(** * sc2reader.utils: the [ReplayBuffer] bit/byte cursor and its decoders

    A shallow embedding of [src/sc2reader/utils.py]: the class
    [ReplayBuffer], and after it [PersonDict], [windows_to_unix], [Length]
    and [RangeMap].  The two dicts of a [PersonDict] are finite maps; the
    ranges of a [RangeMap] are the list the class keeps.
    The Python object is a record of the mutable fields the methods touch;
    every method is a function in a state-and-exception monad whose result
    keeps the state reached when an exception is raised, because the Python
    object stays mutated after a [raise].

    Conventions.
    - A byte of the buffer is a [Byte.byte]; [ord] gives its integer value.
      [self.last_byte] is kept as the byte it is the [ord] of.
    - Python integers are [Z]; lengths, byte counts and bit widths, which the
      callers pass as non-negative counts, are [nat].
    - [cStringIO.StringIO] (the Python 2 standard library) is modelled by its
      documented behaviour: [read n] returns at most [n] bytes and the empty
      string at the end, [seek] clamps a negative target to [0] and accepts a
      target past the end.
    - The tables built by [__init__] are functions of their index;
      [self.char_buffer], a scratch buffer emptied by each use, is not part
      of the state.
    - A [while] loop or a recursion of the source that is not structural
      takes a [fuel]; the methods give enough of it (section "The fuel of the
      model is never exhausted").

    The file has the embedding first, then the vocabulary of the properties,
    then the properties, one section per method. *)

From Stdlib Require Import ZArith List Lia ZifyNat Bool String Ascii
  DecimalString.
From Stdlib.Strings Require Import Byte.
From Stdlib Require QArith.
From stdpp Require Import base tactics option list gmap strings.
Import ListNotations.
#[local] Set Warnings "-register-all".

(** ** Python values and exceptions *)

(** Why a [TypeError] was raised: [ord] of a string that is not one
    character long, an arithmetic operator applied to [None], or the
    "Unknown Data Structure" error of [read_data_struct]. *)
Inductive type_error :=
| OrdLength
| NoneOperand
| UnknownDataStructure (datatype : Z).

Inductive exn :=
| TypeError (why : type_error)
| EOFError
| ValueError
| StructError
| IndexError
| KeyError
| OutOfFuel.

Inductive result (A : Type) :=
| Ok (a : A)
| Raise (e : exn).
Arguments Ok {A} a.
Arguments Raise {A} e.

(** [os.SEEK_SET], [os.SEEK_CUR], [os.SEEK_END]. *)
Inductive whence := SEEK_SET | SEEK_CUR | SEEK_END.

(** [struct] byte order characters. *)
Inductive endian := LITTLE_ENDIAN | BIG_ENDIAN.

(** The values [read_data_struct] returns: a Python [str], [list], [dict]
    or [int].  A [dict] is kept as an association list in the order of first
    insertion of each key. *)
Inductive value :=
| PyStr (s : list byte)
| PyList (l : list value)
| PyDict (d : list (Z * value))
| PyInt (n : Z).

(** ** The buffer object *)

Record ReplayBuffer := mkReplayBuffer {
  io_buf : list byte;        (* the contents of [self.io] *)
  io_pos : nat;              (* the position of [self.io] *)
  bit_shift : nat;           (* [self.bit_shift] *)
  last_byte : option byte;   (* [self.last_byte]; [None] until a byte is cached *)
}.

(** [self.length], fixed by [__init__]. *)
Definition length_ (s : ReplayBuffer) : nat := length (io_buf s).

(** [ReplayBuffer(file)]. *)
Definition init (file : list byte) : ReplayBuffer :=
  mkReplayBuffer file 0 0 None.

Definition ord (b : byte) : Z := Z.of_N (Byte.to_N b).

(** [chr(i)]: a [ValueError] outside [range(256)]. *)
Definition chr (i : Z) : option byte :=
  if (0 <=? i)%Z && (i <? 256)%Z then Byte.of_N (Z.to_N i) else None.

(** ** The monad of methods *)

Definition M (A : Type) : Type := ReplayBuffer -> result A * ReplayBuffer.

Definition ret {A} (a : A) : M A := fun s => (Ok a, s).
Definition raise {A} (e : exn) : M A := fun s => (Raise e, s).
Definition bind {A B} (m : M A) (f : A -> M B) : M B :=
  fun s => match m s with
           | (Ok a, s') => f a s'
           | (Raise e, s') => (Raise e, s')
           end.

Declare Scope py_scope.
Delimit Scope py_scope with py.
Notation "x <- m ;; k" := (bind m (fun x => k))
  (at level 100, m at next level, right associativity) : py_scope.
Notation "m ;;; k" := (bind m (fun _ => k))
  (at level 100, right associativity) : py_scope.
Open Scope py_scope.

(** [try: m except TypeError: raise e]. *)
Definition except_TypeError {A} (m : M A) (e : exn) : M A :=
  fun s => match m s with
           | (Raise (TypeError _), s') => (Raise e, s')
           | r => r
           end.

Definition get_bit_shift : M nat := fun s => (Ok (bit_shift s), s).
Definition get_last_byte : M (option byte) := fun s => (Ok (last_byte s), s).
Definition set_bit_shift (n : nat) : M unit :=
  fun s => (Ok tt, mkReplayBuffer (io_buf s) (io_pos s) n (last_byte s)).
Definition set_last_byte (b : option byte) : M unit :=
  fun s => (Ok tt, mkReplayBuffer (io_buf s) (io_pos s) (bit_shift s) b).

(** ** [cStringIO] *)

Definition io_tell : M nat := fun s => (Ok (io_pos s), s).

(** The state [s] with the position of [self.io] moved to [p]. *)
Definition with_pos (s : ReplayBuffer) (p : nat) : ReplayBuffer :=
  mkReplayBuffer (io_buf s) p (bit_shift s) (last_byte s).

(** Where [self.io.seek(position, mode)] lands: a negative target is [0]. *)
Definition io_seek_target (position : Z) (mode : whence) (s : ReplayBuffer)
  : nat :=
  Z.to_nat (Z.max 0 match mode with
                    | SEEK_SET => position
                    | SEEK_CUR => position + Z.of_nat (io_pos s)
                    | SEEK_END => position + Z.of_nat (length_ s)
                    end).

(** [self.io.seek(position, mode)]. *)
Definition io_seek (position : Z) (mode : whence) : M unit :=
  fun s => (Ok tt, with_pos s (io_seek_target position mode s)).

(** [self.read_basic(n)], that is [self.io.read(n)]. *)
Definition read_basic (n : nat) : M (list byte) :=
  fun s =>
    let out := take n (drop (io_pos s) (io_buf s)) in
    (Ok out, with_pos s (io_pos s + length out)).

(** [ord(self.read_basic(1))]: the byte read, whose value is [ord] of it. *)
Definition read_ord : M byte :=
  c <- read_basic 1 ;;
  match c with
  | [b] => ret b
  | _ => raise (TypeError OrdLength)
  end.

(** ** Precomputed tables *)

Definition lo_masks : list Z := [0x00; 0x01; 0x03; 0x07; 0x0F; 0x1F; 0x3F; 0x7F; 0xFF]%Z.

(** One entry of [self.read_state]. *)
Record state_entry := mkEntry {
  old_bit_shift_inv : nat;
  lo_mask : Z;
  lo_mask_inv : Z;
  hi_mask : Z;
  hi_mask_inv : Z;
  last_mask : Z;
  adjustment : Z;
  adjustment_mask : Z;
}.

(** [load_state].  For a negative [adjustment] Python's [2**adjustment] is a
    float; that [adjustment_mask] is never read, and here it is [-1]. *)
Definition load_state (old_bit_shift new_bit_shift : nat) : state_entry :=
  let old_bit_shift_inv := 8 - old_bit_shift in
  let lo_mask := (2 ^ Z.of_nat old_bit_shift - 1)%Z in
  let lo_mask_inv := (0xFF - 2 ^ Z.of_nat (8 - old_bit_shift) + 1)%Z in
  let hi_mask := Z.lxor 0xFF lo_mask in
  let hi_mask_inv := Z.lxor 0xFF lo_mask_inv in
  if Nat.eqb new_bit_shift 0 then
    let adjustment := (8 - Z.of_nat old_bit_shift)%Z in
    mkEntry old_bit_shift_inv lo_mask lo_mask_inv hi_mask hi_mask_inv
            0xFF adjustment (2 ^ adjustment - 1)%Z
  else
    let adjustment := (Z.of_nat new_bit_shift - Z.of_nat old_bit_shift)%Z in
    mkEntry old_bit_shift_inv lo_mask lo_mask_inv hi_mask hi_mask_inv
            (2 ^ Z.of_nat new_bit_shift - 1)%Z adjustment (2 ^ adjustment - 1)%Z.

(** [self.read_state[(old, new)]]: the keys are the pairs of [range(0,8)]. *)
Definition read_state (old new : nat) : M state_entry :=
  if Nat.ltb old 8 && Nat.ltb new 8 then ret (load_state old new)
  else raise KeyError.

(** ** Properties and stream manipulation *)

Definition tell : M nat := io_tell.
Definition cursor : M nat := io_tell.
Definition left : M Z :=
  p <- io_tell ;; fun s => (Ok (Z.of_nat (length_ s) - Z.of_nat p)%Z, s).
Definition empty : M bool := l <- left ;; ret (l =? 0)%Z.

Definition reset : M unit := io_seek 0 SEEK_SET ;;; set_bit_shift 0.
Definition align : M unit := set_bit_shift 0.

Definition seek (position : Z) (mode : whence) : M unit :=
  io_seek position mode ;;;
  p <- io_tell ;;
  bs <- get_bit_shift ;;
  if negb (Nat.eqb p 0) && negb (Nat.eqb bs 0) then
    io_seek (-1) SEEK_CUR ;;;
    b <- read_ord ;;
    set_last_byte (Some b)
  else ret tt.

Definition skip (amount : Z) : M unit := seek amount SEEK_CUR.

(** ** Base read functions *)

(** [shift(bits)]. *)
Definition shift (bits : nat) : M Z :=
  except_TypeError
    (bit_shift <- get_bit_shift ;;
     let new_shift := bit_shift + bits in
     if Nat.leb new_shift 8 then
       (if Nat.eqb bit_shift 0 then
          b <- read_ord ;; set_last_byte (Some b)
        else ret tt) ;;;
       last <- get_last_byte ;;
       match last with
       | None => raise (TypeError NoneOperand)
       | Some last =>
           match lo_masks !! bits with
           | None => raise IndexError
           | Some mask =>
               let r := Z.land (Z.shiftr (ord last) (Z.of_nat bit_shift)) mask in
               set_bit_shift (if Nat.eqb new_shift 8 then 0 else new_shift) ;;;
               ret r
           end
       end
     else raise ValueError)
    EOFError.

(** [[ord(self.read_basic(1)) for byte in range(bytes)]]. *)
Fixpoint read_base (bytes : nat) : M (list Z) :=
  match bytes with
  | O => ret []
  | S n => b <- read_ord ;; rest <- read_base n ;; ret (ord b :: rest)
  end.

(** The [while bit_count > 0] loop of [read], with the locals it updates.
    [fuel] bounds the number of iterations. *)
Fixpoint read_loop (fuel : nat) (e : state_entry) (old_bit_shift : nat)
    (bit_count : nat) (first : Z) (next : byte) (raw_bytes : list Z)
  : M (list Z * byte) :=
  if Nat.ltb 0 bit_count then
    match fuel with
    | O => raise OutOfFuel
    | S fuel =>
        if Nat.leb bit_count 8 then
          let last := Z.land (ord next) (last_mask e) in
          let raw_bytes :=
            if (adjustment e <? 0)%Z then
              let first := Z.shiftr first (Z.abs (adjustment e)) in
              raw_bytes ++ [Z.lor first last]
            else if (0 <? adjustment e)%Z then
              (raw_bytes ++ [Z.land last (adjustment_mask e)])
                ++ [Z.lor first (Z.shiftr last (adjustment e))]
            else raw_bytes ++ [Z.lor first last] in
          read_loop fuel e old_bit_shift 0 first next raw_bytes
        else
          let second := Z.shiftr (Z.land (ord next) (lo_mask_inv e))
                                 (Z.of_nat (old_bit_shift_inv e)) in
          let raw_bytes := raw_bytes ++ [Z.lor first second] in
          let first := Z.shiftl (Z.land (ord next) (hi_mask_inv e))
                                (Z.of_nat old_bit_shift) in
          let bit_count := bit_count - 8 in
          next <- read_ord ;;
          read_loop fuel e old_bit_shift bit_count first next raw_bytes
    end
  else ret (raw_bytes, next).

(** The last path of [read], after its special cases: the cursor is inside
    a byte and the request goes beyond that byte. *)
Definition read_general (old_bit_shift bit_count bits : nat) : M (list Z) :=
  let new_bit_shift := (old_bit_shift + bits) mod 8 in
  e <- read_state old_bit_shift new_bit_shift ;;
  prev <- get_last_byte ;;
  next <- read_ord ;;
  match prev with
  | None => raise (TypeError NoneOperand)
  | Some prev =>
      let first := Z.land (ord prev) (hi_mask e) in
      let bit_count := bit_count - old_bit_shift_inv e in
      out <- read_loop bit_count e old_bit_shift
                       bit_count first next [] ;;
      let '(raw_bytes, next) := out in
      set_last_byte (Some next) ;;;
      set_bit_shift new_bit_shift ;;;
      ret raw_bytes
  end.

(** [read(bytes, bits)]. *)
Definition read (bytes bits : nat) : M (list Z) :=
  except_TypeError
    (let bytes := bytes + bits / 8 in
     let bits := bits mod 8 in
     let bit_count := bytes * 8 + bits in
     if Nat.eqb bit_count 0 then ret []
     else
       bs <- get_bit_shift ;;
       if Nat.leb bit_count (8 - bs) then
         r <- shift bit_count ;; ret [r]
       else if Nat.eqb bs 0 then
         base <- read_base bytes ;;
         if negb (Nat.eqb bits 0) then
           r <- shift bits ;; ret (base ++ [r])
         else ret base
       else read_general bs bit_count bits)
    EOFError.

(** ** Basic structures *)

(** [read_byte]. *)
Definition read_byte : M Z :=
  bs <- get_bit_shift ;;
  if Nat.eqb bs 0 then
    b <- read_ord ;; ret (ord b)
  else
    r <- read 1 0 ;;
    match r !! 0 with
    | Some v => ret v
    | None => raise IndexError
    end.

(** The chars of a string as an unsigned integer, least or most significant
    byte first. *)
Definition le_int (chars : list byte) : Z :=
  foldr (fun b acc => ord b + 256 * acc)%Z 0%Z chars.
Definition be_int (chars : list byte) : Z :=
  foldl (fun acc b => acc * 256 + ord b)%Z 0%Z chars.

(** [struct.unpack(endian + 'H', chars)[0]] for [size = 2] and
    [struct.unpack(endian + 'I', chars)[0]] for [size = 4]: a [struct.error]
    unless [chars] has exactly [size] bytes. *)
Definition struct_unpack (e : endian) (size : nat) (chars : list byte) : M Z :=
  if Nat.eqb (length chars) size then
    ret (match e with
         | LITTLE_ENDIAN => le_int chars
         | BIG_ENDIAN => be_int chars
         end)
  else raise StructError.

(** The loop of [read_chars] writing [chr(byte)] to [self.char_buffer],
    which is emptied first and read back whole. *)
Fixpoint write_chars (bytes : list Z) : M (list byte) :=
  match bytes with
  | [] => ret []
  | byte :: rest =>
      match chr byte with
      | None => raise ValueError
      | Some c => cs <- write_chars rest ;; ret (c :: cs)
      end
  end.

Definition read_chars (length : nat) : M (list byte) :=
  bs <- get_bit_shift ;;
  if Nat.eqb bs 0 then read_basic length
  else bytes <- read length 0 ;; write_chars bytes.

Definition read_int (e : endian) : M Z :=
  bs <- get_bit_shift ;;
  chars <- (if Nat.eqb bs 0 then read_basic 4 else read_chars 4) ;;
  struct_unpack e 4 chars.

Definition read_short (e : endian) : M Z :=
  bs <- get_bit_shift ;;
  chars <- (if Nat.eqb bs 0 then read_basic 2 else read_chars 2) ;;
  struct_unpack e 2 chars.

Definition hex_digit (n : N) : ascii :=
  match n with
  | 0 => "0" | 1 => "1" | 2 => "2" | 3 => "3" | 4 => "4" | 5 => "5"
  | 6 => "6" | 7 => "7" | 8 => "8" | 9 => "9" | 10 => "a" | 11 => "b"
  | 12 => "c" | 13 => "d" | 14 => "e" | _ => "f"
  end%N%char.

(** [chars.encode("hex")]. *)
Fixpoint encode_hex (chars : list byte) : string :=
  match chars with
  | [] => EmptyString
  | b :: rest =>
      String (hex_digit (Byte.to_N b / 16))
        (String (hex_digit (Byte.to_N b mod 16)) (encode_hex rest))
  end.

Definition read_hex (length : nat) : M string :=
  chars <- read_chars length ;; ret (encode_hex chars).

(** [peek(length)]. *)
Definition peek (length : nat) : M string :=
  start <- cursor ;;
  last <- get_last_byte ;;
  r <- read_hex length ;;
  seek (Z.of_nat start) SEEK_SET ;;;
  set_last_byte last ;;;
  ret r.

(** ** Replay-specific structures *)

Definition read_count : M Z :=
  b <- read_byte ;; ret (b / 2)%Z.

(** The [while byte & 0x80 != 0] loop of [read_variable_int]. *)
Fixpoint variable_int_loop (fuel : nat) (byte shift value : Z) : M Z :=
  if negb (Z.land byte 0x80 =? 0)%Z then
    match fuel with
    | O => raise OutOfFuel
    | S fuel =>
        byte <- read_byte ;;
        let value := Z.lor (Z.shiftl (Z.land byte 0x7F) (shift * 7)) value in
        variable_int_loop fuel byte (shift + 1)%Z value
    end
  else ret value.

(** The bytes not read yet bound what a loop or a recursion can still read. *)
Definition bytes_left : M nat :=
  fun s => (Ok (length_ s - io_pos s), s).

Definition read_variable_int : M Z :=
  byte <- read_byte ;;
  fuel <- bytes_left ;;
  value <- variable_int_loop (S fuel) byte 1 (Z.land byte 0x7F) ;;
  ret ((-1) ^ Z.land value 0x1 * Z.shiftr value 1)%Z.

Definition read_string (length : option nat) : M (list byte) :=
  n <- match length with
       | Some n => ret n
       | None => b <- read_byte ;; ret (Z.to_nat b)
       end ;;
  read_chars n.

Definition read_timestamp : M Z :=
  first <- read_byte ;;
  let time := Z.shiftr first 2 in
  let count := Z.land first 0x03 in
  if (count =? 0)%Z then ret time
  else if (count =? 1)%Z then
    b <- read_byte ;; ret (Z.lor (Z.shiftl time 8) b)
  else if (count =? 2)%Z then
    h <- read_short LITTLE_ENDIAN ;; ret (Z.lor (Z.shiftl time 16) h)
  else if (count =? 3)%Z then
    h <- read_short LITTLE_ENDIAN ;;
    b <- read_byte ;;
    ret (Z.lor (Z.lor (Z.shiftl time 24) (Z.shiftl h 8)) b)
  else raise ValueError.

(** [data[key] = value] on a [dict]. *)
Fixpoint dict_set (data : list (Z * value)) (key : Z) (v : value)
  : list (Z * value) :=
  match data with
  | [] => [(key, v)]
  | (k, w) :: rest =>
      if (k =? key)%Z then (k, v) :: rest else (k, w) :: dict_set rest key v
  end.

(** [[m for i in range(n)]]. *)
Fixpoint for_range {A} (n : nat) (m : M A) : M (list A) :=
  match n with
  | O => ret []
  | S n => a <- m ;; rest <- for_range n m ;; ret (a :: rest)
  end.

(** [for i in range(n): key, value = entry; data[key] = value]. *)
Fixpoint for_pairs (n : nat) (entry : M (Z * value)) (data : list (Z * value))
  : M (list (Z * value)) :=
  match n with
  | O => ret data
  | S n => kv <- entry ;; for_pairs n entry (dict_set data (fst kv) (snd kv))
  end.

(** [read_data_struct], [fuel] bounding the depth of the recursion. *)
Fixpoint read_data_struct_fuel (fuel : nat) : M value :=
  match fuel with
  | O => raise OutOfFuel
  | S fuel =>
      datatype <- read_byte ;;
      if (datatype =? 0x02)%Z then
        count <- read_count ;;
        s <- read_string (Some (Z.to_nat count)) ;;
        ret (PyStr s)
      else if (datatype =? 0x04)%Z then
        skip 2 ;;;
        n <- read_count ;;
        l <- for_range (Z.to_nat n) (read_data_struct_fuel fuel) ;;
        ret (PyList l)
      else if (datatype =? 0x05)%Z then
        n <- read_count ;;
        data <- for_pairs (Z.to_nat n)
                  (count <- read_count ;;
                   v <- read_data_struct_fuel fuel ;;
                   ret (count, v)) [] ;;
        ret (PyDict data)
      else if (datatype =? 0x06)%Z then
        b <- read_byte ;; ret (PyInt b)
      else if (datatype =? 0x07)%Z then
        i <- read_int LITTLE_ENDIAN ;; ret (PyInt i)
      else if (datatype =? 0x09)%Z then
        i <- read_variable_int ;; ret (PyInt i)
      else raise (TypeError (UnknownDataStructure datatype))
  end.

(** Every level of the recursion reads its tag byte first, so the depth is at
    most the number of unread bytes. *)
Definition read_data_struct : M value :=
  fuel <- bytes_left ;; read_data_struct_fuel (S fuel).

Definition read_object_type (read_modifier : bool) : M Z :=
  type <- read_short BIG_ENDIAN ;;
  if read_modifier then
    b <- read_byte ;; ret (Z.lor (Z.shiftl type 8) b)
  else ret type.

Definition read_object_id : M Z := read_int BIG_ENDIAN.

(** [self.coord_convert]: the mask of fractional bit [i] and its weight
    [1.0 / 2**i], for [i] in [range(1, 13)].  The weights and their sums are
    dyadic rationals that a float holds exactly, so they are kept as [Q]. *)
Definition coord_convert : list (Z * QArith_base.Q) :=
  map (fun i => (2 ^ (12 - Z.of_nat i),
                 QArith_base.Qmake 1 (Pos.pow 2 (Pos.of_nat i))))%Z
      (seq 1 12).

(** [_coord_to_float(coord)] of [read_coordinate]. *)
Definition _coord_to_float (whole part : Z) : QArith_base.Q :=
  let fraction :=
    foldl (fun fraction mq =>
             if (Z.land part (fst mq) =? 0)%Z then fraction
             else QArith_base.Qplus fraction (snd mq))
          (QArith_base.inject_Z 0) coord_convert in
  QArith_base.Qplus (QArith_base.inject_Z whole) fraction.

(** [_coord_dimension()] of [read_coordinate]. *)
Definition _coord_dimension : M QArith_base.Q :=
  coord <- read 0 20 ;;
  match coord !! 0, coord !! 1, coord !! 2 with
  | Some c0, Some c1, Some c2 =>
      ret (_coord_to_float c0 (Z.lor (Z.shiftl c1 4) c2))
  | _, _, _ => raise IndexError
  end.

Definition read_coordinate : M (QArith_base.Q * QArith_base.Q) :=
  x <- _coord_dimension ;; y <- _coord_dimension ;; ret (x, y).

(** [_make_mask(byte, bit_length, current)] of [read_bitmask]; the recursion
    is on [bit_length - current], here [todo]. *)
Fixpoint _make_mask (todo : nat) (byte : Z) (bit_length current : nat)
  : list bool :=
  match todo with
  | S todo =>
      if Nat.ltb current bit_length then
        let byte_mask := (2 ^ Z.of_nat (bit_length - current))%Z in
        (0 <? Z.land byte byte_mask)%Z
          :: _make_mask todo byte bit_length (current + 1)
      else [(Z.land byte 0x1 =? 0x01)%Z]
  | O => [(Z.land byte 0x1 =? 0x01)%Z]
  end.

Definition read_bitmask : M (list bool) :=
  length <- read_byte ;;
  let length := Z.to_nat length in
  bytes <- read 0 length ;;
  let mask := foldl (fun mask byte => Z.lor (Z.shiftl mask 8) byte) 0%Z
                    (rev bytes) in
  ret (rev (_make_mask (length - 1) mask length 1)).

(** [self.io.read(-1)]: everything up to the end. *)
Definition io_read_all : M (list byte) :=
  fun s =>
    let out := drop (io_pos s) (io_buf s) in
    (Ok out, with_pos s (io_pos s + length out)).

Definition read_range (start end_ : Z) : M (list byte) :=
  current <- cursor ;;
  io_seek start SEEK_SET ;;;
  r <- (if (end_ - start <? 0)%Z then io_read_all
        else read_basic (Z.to_nat (end_ - start))) ;;
  io_seek (Z.of_nat current) SEEK_SET ;;;
  ret r.

(** [m] run on a fresh buffer over [file]. *)
Definition run {A} (m : M A) (file : list byte) : result A * ReplayBuffer :=
  m (init file).

(** The byte a [shift] works on: the next byte of the stream when no bit of
    a byte is pending, the cached byte otherwise. *)
Definition current_byte (s : ReplayBuffer) : option byte :=
  if Nat.eqb (bit_shift s) 0 then io_buf s !! io_pos s else last_byte s.

(** ** [PersonDict] *)

(** [class PersonDict(dict)]: the people of a replay by player id, with a
    second index from names to player ids.  The values are objects with the
    attributes [pid] and [name]; the keys are [str] or [int].  The object is
    the [dict] itself, here [items], and [self._key_map]. *)
Module PersonDict.
Section PersonDict.
Context {V : Type} (pid : V -> Z) (name : V -> string).

Inductive key :=
| Str (s : string)
| Int (i : Z).

Record t := mk {
  items : gmap Z V;
  _key_map : gmap string Z;
}.

(** [dict.__getitem__(self, key)]. *)
Definition dict_getitem (self : t) (key : Z) : result V :=
  match items self !! key with
  | Some value => Ok value
  | None => Raise KeyError
  end.

Definition __getitem__ (self : t) (key : key) : result V :=
  match key with
  | Str s =>
      match _key_map self !! s with
      | Some key => dict_getitem self key
      | None => Raise KeyError
      end
  | Int i => dict_getitem self i
  end.

Definition __setitem__ (self : t) (key : key) (value : V) : t :=
  let key_map :=
    match key with
    | Str s => <[s := pid value]> (_key_map self)
    | Int i => <[name value := i]> (_key_map self)
    end in
  mk (<[pid value := value]> (items self)) key_map.

(** [PersonDict.__init__]: [args] is the sequence of pairs given as
    the first positional argument, empty when there is none, and [kwargs]
    the keyword arguments in the order [iteritems] yields them.  The two
    [print] statements write to the standard output and nothing else. *)
Definition __init__ (args : list (key * V)) (kwargs : list (string * V)) : t :=
  let self := mk ∅ ∅ in
  let self := foldl (fun self arg => __setitem__ self (fst arg) (snd arg))
                    self args in
  foldl (fun self kv => __setitem__ self (Str (fst kv)) (snd kv)) self kwargs.
End PersonDict.
End PersonDict.

(** ** Module-level functions and small classes *)

(** [windows_to_unix]; [/] on integers is the floor division. *)
Definition windows_to_unix (windows_time : Z) : Z :=
  ((windows_time - 116444735995904000) / 10 ^ 7)%Z.

(** [str(n)] for an integer [n]. *)
Definition str_int (n : Z) : string := NilZero.string_of_int (Z.to_int n).

(** ["{0:0>2}".format(n)]: [str(n)] right-aligned in a field of width two
    filled with ['0']. *)
Definition format_0gt2 (n : Z) : string :=
  String.append
    (string_of_list_ascii (repeat "0"%char (2 - String.length (str_int n))))
    (str_int n).

(** [class Length(timedelta)].  A [timedelta] holds days, seconds and
    microseconds, normalised so that the seconds are in [0, 86400); the
    methods read [self.seconds].  The lengths are within the range of
    [timedelta], a thousand million days. *)
Module Length.
Record t := mk { days : Z; seconds : Z }.

(** [Length(seconds=n)] for an integer [n], as [read_header] builds it. *)
Definition of_seconds (n : Z) : t := mk (n / 86400) (n mod 86400).

Definition hours (self : t) : Z := (seconds self / 3600)%Z.
Definition mins (self : t) : Z := (seconds self / 60)%Z.
Definition secs (self : t) : Z := (seconds self mod 60)%Z.

Definition __str__ (self : t) : string :=
  if negb (hours self =? 0)%Z then
    String.append (format_0gt2 (hours self))
      (String.append "."
         (String.append (format_0gt2 (mins self))
            (String.append "." (format_0gt2 (secs self)))))
  else
    String.append (format_0gt2 (mins self))
      (String.append "." (format_0gt2 (secs self))).
End Length.

(** [class RangeMap(dict)]: [self.ranges], a list of [(start, end,
    reader_set)] in the order of the calls of [add_range].  An [end] is an
    integer or [None]. *)
Module RangeMap.
Section RangeMap.
Context {R : Type}.

Record t := mk { ranges : list (Z * option Z * R) }.

Definition __init__ : t := mk [].

Definition add_range (self : t) (start : Z) (end_ : option Z) (reader_set : R)
  : t :=
  mk (ranges self ++ [(start, end_, reader_set)]).

(** [if end:] is false for [None] and for [0]. *)
Definition truthy (end_ : option Z) : bool :=
  match end_ with
  | Some e => negb (e =? 0)%Z
  | None => false
  end.

(** [key < end]; in Python 2 [None] is below every integer. *)
Definition lt_end (key : Z) (end_ : option Z) : bool :=
  match end_ with
  | Some e => (key <? e)%Z
  | None => false
  end.

(** The [for] loop of [__getitem__]; [None] when it runs to its end. *)
Fixpoint getitem_loop (ranges : list (Z * option Z * R)) (key : Z) : option R :=
  match ranges with
  | [] => None
  | (start, end_, range_set) :: rest =>
      if truthy end_ then
        if (start <=? key)%Z && lt_end key end_ then Some range_set
        else getitem_loop rest key
      else
        if (start <=? key)%Z then Some range_set
        else getitem_loop rest key
  end.

Definition __getitem__ (self : t) (key : Z) : result R :=
  match getitem_loop (ranges self) key with
  | Some range_set => Ok range_set
  | None => Raise KeyError
  end.
End RangeMap.
End RangeMap.

(** ** Vocabulary of the properties *)

(** The reference the specification compares [read] with: [shift(8)] called
    [b] times, then [shift(k)] once, the values in order. *)
Definition read_by_shifts (b k : nat) : M (list Z) :=
  base <- for_range b (shift 8) ;;
  r <- shift k ;;
  ret (base ++ [r]).

(** The state after [n] calls of [shift(8)] from a byte boundary. *)
Definition after_shifts (s : ReplayBuffer) (n : nat) : ReplayBuffer :=
  match n with
  | O => s
  | S m => mkReplayBuffer (io_buf s) (io_pos s + n) 0
                          (io_buf s !! (io_pos s + m))
  end.

(** While a byte is partly consumed and the position is not [0], the cache
    holds the byte before the position. *)
Definition cache_ok (s : ReplayBuffer) : Prop :=
  bit_shift s <> 0 -> io_pos s <> 0 ->
  exists b, last_byte s = Some b /\ io_buf s !! (io_pos s - 1) = Some b.

Definition cursor_ok (s : ReplayBuffer) : Prop :=
  bit_shift s < 8 /\ cache_ok s.

Definition in_bounds (s : ReplayBuffer) : Prop := io_pos s <= length_ s.

(** What a method that returns keeps: [moves] the buffer and [cursor_ok],
    [sound] also a position within the buffer, and [reads] leaves the
    position within the buffer wherever it started. *)
Definition moves {A} (m : M A) : Prop :=
  forall s a s', cursor_ok s -> m s = (Ok a, s') ->
    io_buf s' = io_buf s /\ cursor_ok s'.

Definition sound {A} (m : M A) : Prop :=
  forall s a s', cursor_ok s -> m s = (Ok a, s') ->
    io_buf s' = io_buf s /\ cursor_ok s' /\ (in_bounds s -> in_bounds s').

Definition reads {A} (m : M A) : Prop :=
  forall s a s', cursor_ok s -> m s = (Ok a, s') ->
    io_buf s' = io_buf s /\ cursor_ok s' /\ in_bounds s'.

(** A call of a method of the buffer with its arguments. *)
Inductive call :=
| Tell | Cursor | Left | Empty
| Seek (position : Z) (mode : whence)
| Skip (amount : Z)
| Reset | Align
| Peek (length : nat)
| Shift (bits : nat)
| Read (bytes bits : nat)
| ReadByte
| ReadShort (e : endian)
| ReadInt (e : endian)
| ReadChars (length : nat)
| ReadHex (length : nat)
| ReadCount
| ReadVariableInt
| ReadString (length : option nat)
| ReadTimestamp
| ReadDataStruct
| ReadObjectType (read_modifier : bool)
| ReadObjectId
| ReadCoordinate
| ReadBitmask
| ReadRange (start end_ : Z).

(** Runs [m] for its effect on the buffer. *)
Definition effect {A} (m : M A) : M unit := m ;;; ret tt.

Definition exec (c : call) : M unit :=
  match c with
  | Tell => effect tell
  | Cursor => effect cursor
  | Left => effect left
  | Empty => effect empty
  | Seek position mode => seek position mode
  | Skip amount => skip amount
  | Reset => reset
  | Align => align
  | Peek length => effect (peek length)
  | Shift bits => effect (shift bits)
  | Read bytes bits => effect (read bytes bits)
  | ReadByte => effect read_byte
  | ReadShort e => effect (read_short e)
  | ReadInt e => effect (read_int e)
  | ReadChars length => effect (read_chars length)
  | ReadHex length => effect (read_hex length)
  | ReadCount => effect read_count
  | ReadVariableInt => effect read_variable_int
  | ReadString length => effect (read_string length)
  | ReadTimestamp => effect read_timestamp
  | ReadDataStruct => effect read_data_struct
  | ReadObjectType read_modifier => effect (read_object_type read_modifier)
  | ReadObjectId => effect read_object_id
  | ReadCoordinate => effect read_coordinate
  | ReadBitmask => effect read_bitmask
  | ReadRange start end_ => effect (read_range start end_)
  end.

(** A [seek] or [skip] whose resulting offset is within the buffer. *)
Definition seek_in_bounds (c : call) (s : ReplayBuffer) : Prop :=
  match c with
  | Seek position mode => io_seek_target position mode s <= length_ s
  | Skip amount => io_seek_target amount SEEK_CUR s <= length_ s
  | _ => True
  end.

(** The states a fresh buffer over [file] reaches by calls that return. *)
Inductive reachable (file : list byte) : ReplayBuffer -> Prop :=
| reach_init : reachable file (init file)
| reach_call s c s' :
    reachable file s -> seek_in_bounds c s -> exec c s = (Ok tt, s') ->
    reachable file s'.

(** What the specification describes for a [read_string] without a length:
    a count byte, halved, then that many bytes. *)
Definition read_string_halved : M (list byte) :=
  count <- read_count ;; read_chars (Z.to_nat count).

(** The integer [read_bitmask] packs the values of [read] into: the first
    value is the least significant byte. *)
Definition pack_mask (bytes : list Z) : Z :=
  foldl (fun mask byte => Z.lor (Z.shiftl mask 8) byte) 0%Z (rev bytes).

(** The tags [read_data_struct] decodes. *)
Definition known_tag (d : Z) : bool :=
  (d =? 0x02)%Z || (d =? 0x04)%Z || (d =? 0x05)%Z
  || (d =? 0x06)%Z || (d =? 0x07)%Z || (d =? 0x09)%Z.

(** The Python type of the value decoded for tag [d]. *)
Definition variant_matches (d : Z) (v : value) : Prop :=
  match v with
  | PyStr _ => d = 0x02%Z
  | PyList _ => d = 0x04%Z
  | PyDict _ => d = 0x05%Z
  | PyInt _ => d = 0x06%Z \/ d = 0x07%Z \/ d = 0x09%Z
  end.

(** [quiet] methods never raise the unknown-tag error; [unknown_only]
    methods raise it only for a tag that is not known. *)
Definition quiet {A} (m : M A) : Prop :=
  forall s d s', m s <> (Raise (TypeError (UnknownDataStructure d)), s').

Definition unknown_only {A} (m : M A) : Prop :=
  forall s d s', m s = (Raise (TypeError (UnknownDataStructure d)), s') ->
    known_tag d = false.

(** The decoding of the value that follows tag [datatype]. *)
Definition read_data_struct_body (fuel : nat) (datatype : Z) : M value :=
  if (datatype =? 0x02)%Z then
    count <- read_count ;;
    s <- read_string (Some (Z.to_nat count)) ;;
    ret (PyStr s)
  else if (datatype =? 0x04)%Z then
    skip 2 ;;;
    n <- read_count ;;
    l <- for_range (Z.to_nat n) (read_data_struct_fuel fuel) ;;
    ret (PyList l)
  else if (datatype =? 0x05)%Z then
    n <- read_count ;;
    data <- for_pairs (Z.to_nat n)
              (count <- read_count ;;
               v <- read_data_struct_fuel fuel ;;
               ret (count, v)) [] ;;
    ret (PyDict data)
  else if (datatype =? 0x06)%Z then
    b <- read_byte ;; ret (PyInt b)
  else if (datatype =? 0x07)%Z then
    i <- read_int LITTLE_ENDIAN ;; ret (PyInt i)
  else if (datatype =? 0x09)%Z then
    i <- read_variable_int ;; ret (PyInt i)
  else raise (TypeError (UnknownDataStructure datatype)).

(** The continuation flag of a byte of a variable-length integer: bit 7. *)
Definition continuation_flag (b : byte) : bool := Z.testbit (ord b) 7.

(** The byte of value [z], for [z] in [0,256). *)
Definition byte_of_Z (z : Z) : byte :=
  match Byte.of_N (Z.to_N z) with
  | Some b => b
  | None => x00
  end.

(** The encoding as the specification words it; the repository has the
    decoder only.  The groups of a non-negative [v], seven bits each, least
    significant group first; every byte but the last has the continuation
    flag, bit 7, set.  [fuel] bounds the number of groups. *)
Fixpoint spec_encode_groups (fuel : nat) (v : Z) : list byte :=
  match fuel with
  | O => []
  | S fuel =>
      if (v <? 128)%Z then [byte_of_Z v]
      else byte_of_Z (v mod 128 + 128) :: spec_encode_groups fuel (v / 128)
  end.

(** The variable-length encoding of an integer as the specification words
    it: the sign flag in bit 0 of the value to encode and the magnitude in
    the bits above it. *)
Definition spec_encode_variable_int (n : Z) : list byte :=
  let value := (2 * Z.abs n + (if (n <? 0)%Z then 1 else 0))%Z in
  spec_encode_groups (S (Z.to_nat (Z.log2 value))) value.

(** [fueled] methods never stop for lack of fuel; [advances] methods that
    return have kept the buffer and not moved the position backwards. *)
Definition fueled {A} (m : M A) : Prop :=
  forall s s', m s <> (Raise OutOfFuel, s').

Definition advances {A} (m : M A) : Prop :=
  forall s a s', m s = (Ok a, s') ->
    io_buf s' = io_buf s /\ io_pos s <= io_pos s'.

(** In every state over [buf] at or after position [p], [m] does not stop
    for lack of fuel, and when it returns it has not moved backwards. *)
Definition safe_from {A} (buf : list byte) (p : nat) (m : M A) : Prop :=
  forall s, io_buf s = buf -> p <= io_pos s ->
    (forall s', m s <> (Raise OutOfFuel, s')) /\
    (forall a s', m s = (Ok a, s') -> io_buf s' = buf /\ io_pos s <= io_pos s').

(** The bits not consumed yet: the rest of the current byte and the bytes
    after the position. *)
Definition remaining_bits (s : ReplayBuffer) : nat :=
  8 * (length_ s - io_pos s)
  + (if Nat.eqb (bit_shift s) 0 then 0 else 8 - bit_shift s).

(** A byte value. *)
Definition is_byte (v : Z) : Prop := (0 <= v < 256)%Z.

(** The values of a read of whole bytes that starts [o] bits inside a byte,
    [0 < o < 8].  [high] is what the byte before contributes to the first
    value, placed in bits [o..7]; [next] and [rest] are the bytes read.  Every
    value but the last takes its low [o] bits from the top of the byte read
    for it; the last value takes them from the bottom. *)
Fixpoint straddled (o : Z) (high : Z) (next : byte) (rest : list byte)
  : list Z :=
  match rest with
  | [] => [(ord next mod 2 ^ o + high * 2 ^ o)%Z]
  | n :: rest' =>
      (ord next / 2 ^ (8 - o) + high * 2 ^ o)%Z
        :: straddled o (ord next mod 2 ^ (8 - o)) n rest'
  end.

(** The keys of a [dict] built by [data[key] = value] from keys in range are
    distinct and in range. *)
Definition keys_ok (data : list (Z * value)) : Prop :=
  NoDup (map fst data) /\ Forall (fun k => 0 <= k <= 127)%Z (map fst data).

(** The Windows file time of the Unix epoch, 1970-01-01: 11644473600
    seconds after 1601-01-01, in periods of 100 nanoseconds. *)
Definition unix_epoch_ticks : Z := 116444736000000000%Z.

(** A key is in a range: at or after its start, and before its end when it
    has one; an end that is [None] or [0] is no end. *)
Definition covers (start : Z) (end_ : option Z) (key : Z) : Prop :=
  (start <= key)%Z /\
  match end_ with
  | Some e => e = 0%Z \/ (key < e)%Z
  | None => True
  end.

(** * Properties *)

(** ** The monad *)

Section monad.
Context {A B : Type}.
Implicit Types (m : M A) (f : A -> M B) (s : ReplayBuffer).

Lemma bind_ok m f s b s' :
  bind m f s = (Ok b, s') ->
  exists a s1, m s = (Ok a, s1) /\ f a s1 = (Ok b, s').
Proof.
  unfold bind. destruct (m s) as [[a|e] s1]; [eauto | discriminate].
Qed.

Lemma bind_step m f s a s1 : m s = (Ok a, s1) -> bind m f s = f a s1.
Proof. unfold bind. intros ->. reflexivity. Qed.

Lemma bind_raise m f s e s1 :
  m s = (Raise e, s1) -> bind m f s = (Raise e, s1).
Proof. unfold bind. intros ->. reflexivity. Qed.

Lemma except_ok m e s a s' :
  except_TypeError m e s = (Ok a, s') -> m s = (Ok a, s').
Proof.
  unfold except_TypeError.
  destruct (m s) as [[a'|[]] s1]; congruence.
Qed.

Lemma except_step m e s a s' :
  m s = (Ok a, s') -> except_TypeError m e s = (Ok a, s').
Proof. unfold except_TypeError. intros ->. reflexivity. Qed.
End monad.

(** ** Reading one byte from the stream *)

Lemma with_pos_id s : with_pos s (io_pos s) = s.
Proof. destruct s; reflexivity. Qed.

Lemma read_ord_some s b :
  io_buf s !! io_pos s = Some b ->
  read_ord s = (Ok b, with_pos s (S (io_pos s))).
Proof.
  intros Hb. unfold read_ord, bind, read_basic.
  rewrite (drop_S _ _ _ Hb). cbn. rewrite Nat.add_1_r. reflexivity.
Qed.

Lemma read_ord_none s :
  io_buf s !! io_pos s = None ->
  read_ord s = (Raise (TypeError OrdLength), s).
Proof.
  intros Hb. unfold read_ord, bind, read_basic.
  rewrite drop_ge by (apply lookup_ge_None; exact Hb).
  cbn. rewrite Nat.add_0_r. destruct s; reflexivity.
Qed.

Lemma read_ord_ok s b s' :
  read_ord s = (Ok b, s') ->
  io_buf s !! io_pos s = Some b /\ s' = with_pos s (S (io_pos s)).
Proof.
  destruct (io_buf s !! io_pos s) as [b'|] eqn:Hb.
  - rewrite (read_ord_some _ _ Hb). intros [= -> <-]. auto.
  - rewrite (read_ord_none _ Hb). discriminate.
Qed.

(** ** [shift] *)

Lemma lo_masks_lookup (w : nat) :
  w <= 8 -> lo_masks !! w = Some (Z.ones (Z.of_nat w)).
Proof.
  intros Hw. do 9 (destruct w as [|w]; [reflexivity|]). lia.
Qed.

Lemma ord_range b : (0 <= ord b < 256)%Z.
Proof. unfold ord. pose proof (Byte.to_N_bounded b). lia. Qed.

(** What [shift] does when the request fits in the current byte. *)
Lemma shift_fits s (w : nat) (b : byte) :
  bit_shift s + w <= 8 ->
  current_byte s = Some b ->
  shift w s =
    (Ok (Z.land (Z.shiftr (ord b) (Z.of_nat (bit_shift s))) (Z.ones (Z.of_nat w))),
     mkReplayBuffer (io_buf s)
       (if Nat.eqb (bit_shift s) 0 then S (io_pos s) else io_pos s)
       (if Nat.eqb (bit_shift s + w) 8 then 0 else bit_shift s + w)
       (Some b)).
Proof.
  intros Hfit Hcur. unfold shift, current_byte in *.
  apply except_step. unfold bind at 1, get_bit_shift at 1.
  destruct (Nat.leb_spec (bit_shift s + w) 8) as [_|]; [|lia].
  rewrite (lo_masks_lookup w) by lia.
  destruct (Nat.eqb (bit_shift s) 0) eqn:Hbs.
  - unfold bind. rewrite (read_ord_some _ _ Hcur). cbn.
    apply Nat.eqb_eq in Hbs. rewrite Hbs. reflexivity.
  - unfold bind. cbn. rewrite Hcur. cbn. rewrite Hcur. reflexivity.
Qed.

(** C6.  For a width [w] in [1,8] and a bit offset [o] in [0,8) with
    [w <= 8 - o], and the byte [b] that [shift] works on available (the next
    byte of the stream when [o = 0], the cached byte otherwise), [shift w]
    returns the [w] bits of [b] from bit [o] on: the value got by shifting
    [b] right by [o] and masking with [2^w - 1], whose bit [i] is bit
    [o + i] of [b] for [i < w] and [0] above.  It leaves the bit offset
    [(o + w) mod 8], caches [b], and moves the byte position only to load
    [b]. *)
Theorem shift_within_byte (s : ReplayBuffer) (w : nat) (b : byte) :
  1 <= w <= 8 ->
  bit_shift s < 8 ->
  w <= 8 - bit_shift s ->
  current_byte s = Some b ->
  let o := bit_shift s in
  exists r s',
    shift w s = (Ok r, s') /\
    r = Z.land (Z.shiftr (ord b) (Z.of_nat o)) (2 ^ Z.of_nat w - 1) /\
    r = ((ord b / 2 ^ Z.of_nat o) mod 2 ^ Z.of_nat w)%Z /\
    (forall i, (0 <= i)%Z ->
       Z.testbit r i = (i <? Z.of_nat w)%Z && Z.testbit (ord b) (Z.of_nat o + i)) /\
    bit_shift s' = (o + w) mod 8 /\
    last_byte s' = Some b /\
    io_buf s' = io_buf s /\
    io_pos s' = (if Nat.eqb o 0 then S (io_pos s) else io_pos s).
Proof.
  intros Hw Ho Hfit Hcur o.
  eexists _, _. split; [apply (shift_fits s w b); [lia | exact Hcur]|].
  cbn [bit_shift last_byte io_buf io_pos]. fold o.
  repeat split.
  - rewrite Z.ones_equiv. reflexivity.
  - rewrite Z.land_ones, Z.shiftr_div_pow2 by lia. reflexivity.
  - intros i Hi. rewrite Z.land_spec, Z.shiftr_spec by lia.
    rewrite Z.testbit_ones_nonneg by lia.
    rewrite andb_comm, (Z.add_comm i). reflexivity.
  - destruct (Nat.eqb_spec (o + w) 8) as [->|Hne]; [reflexivity|].
    symmetry. apply Nat.mod_small. lia.
Qed.

Lemma shift_within_byte_witness :
  exists r s',
    shift 3 (mkReplayBuffer [xab; xcd] 1 2 (Some xab)) = (Ok r, s') /\
    r = 2%Z /\ bit_shift s' = 5.
Proof.
  destruct (shift_within_byte (mkReplayBuffer [xab; xcd] 1 2 (Some xab)) 3 xab)
    as (r & s' & Hrun & _ & Hr & _ & Hbs & _); cbn; try lia; try reflexivity.
  exists r, s'. repeat split; [exact Hrun | exact Hr | exact Hbs].
Defined.

(** [shift] refuses a width that does not fit in the current byte. *)
Lemma shift_too_wide s (w : nat) :
  8 < bit_shift s + w -> shift w s = (Raise ValueError, s).
Proof.
  intros Hwide. unfold shift, except_TypeError, bind, get_bit_shift.
  destruct (Nat.leb_spec (bit_shift s + w) 8); [lia | reflexivity].
Qed.

(** [shift] at a byte boundary with nothing left to load signals the end of
    the stream and changes nothing. *)
Lemma shift_at_end s (w : nat) :
  bit_shift s = 0 -> w <= 8 -> length_ s <= io_pos s ->
  shift w s = (Raise EOFError, s).
Proof.
  intros Hbs Hw Hend. unfold shift, except_TypeError, bind at 1, get_bit_shift.
  rewrite Hbs. cbn [Nat.add].
  destruct (Nat.leb_spec w 8); [|lia]. cbn [Nat.eqb].
  unfold bind. rewrite read_ord_none; [reflexivity|].
  apply lookup_ge_None. exact Hend.
Qed.

(** ** The byte-aligned path of [read] *)

Lemma land_ones_byte b : Z.land (Z.shiftr (ord b) 0) (Z.ones 8) = ord b.
Proof.
  rewrite Z.shiftr_0_r, Z.land_ones by lia.
  apply Z.mod_small. pose proof (ord_range b). lia.
Qed.

Lemma read_base_ok (n : nat) s :
  io_pos s + n <= length_ s ->
  read_base n s =
    (Ok (map ord (take n (drop (io_pos s) (io_buf s)))), with_pos s (io_pos s + n)).
Proof.
  revert s. induction n as [|n IH]; intros s Hlen.
  - cbn. rewrite Nat.add_0_r, with_pos_id. reflexivity.
  - destruct (lookup_lt_is_Some_2 (io_buf s) (io_pos s)) as [b Hb];
      [unfold length_ in Hlen; lia|].
    cbn [read_base]. rewrite (bind_step _ _ _ _ _ (read_ord_some _ _ Hb)).
    assert (Hlen' : io_pos (with_pos s (S (io_pos s))) + n
                    <= length_ (with_pos s (S (io_pos s))))
      by (unfold length_ in *; cbn; lia).
    rewrite (bind_step _ _ _ _ _ (IH _ Hlen')).
    cbn. rewrite (drop_S _ _ _ Hb). cbn. unfold with_pos. cbn.
    repeat f_equal. lia.
Qed.

Lemma shifts8_ok (n : nat) s :
  bit_shift s = 0 ->
  io_pos s + n <= length_ s ->
  for_range n (shift 8) s =
    (Ok (map ord (take n (drop (io_pos s) (io_buf s)))), after_shifts s n).
Proof.
  revert s. induction n as [|n IH]; intros s Hbs Hlen.
  - reflexivity.
  - destruct (lookup_lt_is_Some_2 (io_buf s) (io_pos s)) as [b Hb];
      [unfold length_ in Hlen; lia|].
    cbn [for_range].
    assert (Hcur : current_byte s = Some b)
      by (unfold current_byte; rewrite Hbs; exact Hb).
    rewrite (bind_step _ _ _ _ _ (shift_fits s 8 b ltac:(lia) Hcur)).
    rewrite Hbs. cbn [Nat.eqb Nat.add].
    set (s1 := mkReplayBuffer (io_buf s) (S (io_pos s)) 0 (Some b)).
    assert (Hlen' : io_pos s1 + n <= length_ s1)
      by (unfold length_ in *; cbn; lia).
    rewrite (bind_step _ _ _ _ _ (IH s1 eq_refl Hlen')).
    cbn [io_pos io_buf s1]. rewrite (drop_S _ _ _ Hb). cbn [ret take map].
    change (Z.of_nat 0) with 0%Z. change (Z.of_nat 8) with 8%Z.
    rewrite land_ones_byte. f_equal.
    destruct n as [|n]; cbn.
    + rewrite Nat.add_0_r, Nat.add_1_r, Hb. reflexivity.
    + f_equal; [lia | f_equal; lia].
Qed.

(** The aligned path of [read] on a request of [b] whole bytes and [k] more
    bits, [1 <= k <= 7]. *)
Lemma read_aligned_bits (b k : nat) s (c : byte) :
  bit_shift s = 0 -> 1 <= k <= 7 ->
  io_buf s !! (io_pos s + b) = Some c ->
  read b k s =
    (Ok (map ord (take b (drop (io_pos s) (io_buf s)))
         ++ [Z.land (ord c) (Z.ones (Z.of_nat k))]),
     mkReplayBuffer (io_buf s) (S (io_pos s + b)) k (Some c)).
Proof.
  intros Hbs Hk Hc.
  assert (Hlen : io_pos s + b < length_ s) by (eapply lookup_lt_Some; eauto).
  unfold read. apply except_step.
  replace (k / 8) with 0 by (symmetry; apply Nat.div_small; lia).
  replace (k mod 8) with k by (symmetry; apply Nat.mod_small; lia).
  rewrite Nat.add_0_r.
  destruct (Nat.eqb_spec (b * 8 + k) 0) as [|_]; [lia|].
  unfold bind at 1, get_bit_shift at 1. rewrite Hbs. cbn [Nat.sub Nat.eqb].
  destruct (Nat.leb_spec (b * 8 + k) 8) as [Hle|Hgt].
  - assert (b = 0) as -> by lia. cbn [Nat.mul Nat.add] in *.
    rewrite Nat.add_0_r in Hc.
    assert (Hcur : current_byte s = Some c)
      by (unfold current_byte; rewrite Hbs; exact Hc).
    rewrite (bind_step _ _ _ _ _ (shift_fits s k c ltac:(lia) Hcur)).
    rewrite Hbs. cbn [Nat.eqb Nat.add ret take map app].
    rewrite Z.shiftr_0_r, Nat.add_0_r.
    destruct (Nat.eqb_spec k 8); [lia | reflexivity].
  - rewrite (bind_step _ _ _ _ _ (read_base_ok b s ltac:(lia))).
    destruct (Nat.eqb_spec k 0) as [|_]; [lia|]. cbn [negb].
    assert (Hcur : current_byte (with_pos s (io_pos s + b)) = Some c)
      by (unfold current_byte; cbn; rewrite Hbs; exact Hc).
    assert (Hfit : bit_shift (with_pos s (io_pos s + b)) + k <= 8)
      by (cbn; lia).
    rewrite (bind_step _ _ _ _ _ (shift_fits _ k c Hfit Hcur)).
    cbn. rewrite Hbs. cbn. rewrite Z.shiftr_0_r.
    destruct (Nat.eqb_spec k 8); [lia | reflexivity].
Qed.

(** The aligned path of [read] on a request of [n >= 1] whole bytes. *)
Lemma read_aligned_bytes (n : nat) s :
  bit_shift s = 0 -> 1 <= n ->
  io_pos s + n <= length_ s ->
  exists lb,
    read n 0 s =
      (Ok (map ord (take n (drop (io_pos s) (io_buf s)))),
       mkReplayBuffer (io_buf s) (io_pos s + n) 0 lb) /\
    (n = 1 -> lb = io_buf s !! io_pos s) /\
    (2 <= n -> lb = last_byte s).
Proof.
  intros Hbs Hn Hlen. unfold read.
  change (0 / 8) with 0. change (0 mod 8) with 0. rewrite !Nat.add_0_r.
  destruct (Nat.eqb_spec (n * 8) 0) as [|_]; [lia|].
  destruct (Nat.leb_spec (n * 8) (8 - bit_shift s)) as [Hle|Hgt].
  - assert (n = 1) as -> by lia.
    destruct (lookup_lt_is_Some_2 (io_buf s) (io_pos s)) as [c Hc];
      [unfold length_ in Hlen; lia|].
    assert (Hcur : current_byte s = Some c)
      by (unfold current_byte; rewrite Hbs; exact Hc).
    exists (Some c). split; [|split; [congruence | lia]].
    apply except_step. unfold bind at 1, get_bit_shift at 1.
    destruct (Nat.leb_spec (1 * 8) (8 - bit_shift s)) as [_|]; [|lia].
    rewrite (bind_step _ _ _ _ _ (shift_fits s 8 c ltac:(lia) Hcur)).
    rewrite Hbs. cbn [Nat.eqb Nat.add ret].
    change (Z.of_nat 0) with 0%Z. change (Z.of_nat 8) with 8%Z.
    rewrite land_ones_byte, (drop_S _ _ _ Hc), Nat.add_1_r. reflexivity.
  - exists (last_byte s). split; [|split; [lia | reflexivity]].
    apply except_step. unfold bind at 1, get_bit_shift at 1.
    destruct (Nat.leb_spec (n * 8) (8 - bit_shift s)) as [|_]; [lia|].
    rewrite Hbs. cbn [Nat.eqb].
    rewrite (bind_step _ _ _ _ _ (read_base_ok n s Hlen)).
    cbn. unfold with_pos. rewrite Hbs. reflexivity.
Qed.

Lemma read_bits_8 (b : nat) s : read b 8 s = read (b + 1) 0 s.
Proof.
  unfold read. change (8 / 8) with 1. change (8 mod 8) with 0.
  change (0 / 8) with 0. change (0 mod 8) with 0.
  rewrite (Nat.add_0_r (b + 1)). reflexivity.
Qed.

Lemma after_shifts_pos s n : io_pos (after_shifts s n) = io_pos s + n.
Proof. destruct n; cbn; lia. Qed.

Lemma after_shifts_current s n :
  bit_shift s = 0 ->
  current_byte (after_shifts s n) = io_buf s !! (io_pos s + n).
Proof.
  intros Hbs. unfold current_byte. destruct n; cbn.
  - rewrite Hbs, Nat.add_0_r. reflexivity.
  - reflexivity.
Qed.

Lemma after_shifts_fields s n :
  bit_shift s = 0 ->
  bit_shift (after_shifts s n) = 0 /\ io_buf (after_shifts s n) = io_buf s.
Proof. intros Hbs. destruct n; cbn; auto. Qed.

(** The reference on a request that the stream can serve. *)
Lemma read_by_shifts_ok (b k : nat) s (c : byte) :
  bit_shift s = 0 -> k <= 8 ->
  io_buf s !! (io_pos s + b) = Some c ->
  read_by_shifts b k s =
    (Ok (map ord (take b (drop (io_pos s) (io_buf s)))
         ++ [Z.land (ord c) (Z.ones (Z.of_nat k))]),
     mkReplayBuffer (io_buf s) (S (io_pos s + b))
                    (if Nat.eqb k 8 then 0 else k) (Some c)).
Proof.
  intros Hbs Hk Hc.
  assert (Hlen : io_pos s + b < length_ s) by (eapply lookup_lt_Some; eauto).
  unfold read_by_shifts.
  rewrite (bind_step _ _ _ _ _ (shifts8_ok b s Hbs ltac:(lia))).
  destruct (after_shifts_fields s b Hbs) as [Hbs' Hbuf'].
  assert (Hcur : current_byte (after_shifts s b) = Some c)
    by (rewrite after_shifts_current by exact Hbs; exact Hc).
  assert (Hfit : bit_shift (after_shifts s b) + k <= 8) by lia.
  rewrite (bind_step _ _ _ _ _ (shift_fits _ k c Hfit Hcur)).
  rewrite Hbs', Hbuf', after_shifts_pos. cbn [Nat.eqb Nat.add ret].
  rewrite Z.shiftr_0_r. reflexivity.
Qed.

(** C7 (as the code has it).  At bit offset [0], for a byte count [b] and a
    bit count [k] in [1,8] that the rest of the stream can serve, [read b k]
    returns the values of [shift(8)] called [b] times followed by [shift(k)],
    and ends at the same byte position and bit offset; when [k <= 7] or
    [b = 0] the cached byte is the same too, so the two states are equal. *)
Theorem read_aligned_refines_shifts (s : ReplayBuffer) (b k : nat) :
  bit_shift s = 0 ->
  1 <= k <= 8 ->
  8 * b + k <= 8 * (length_ s - io_pos s) ->
  exists vs s1 s2,
    read b k s = (Ok vs, s1) /\
    read_by_shifts b k s = (Ok vs, s2) /\
    io_buf s1 = io_buf s2 /\
    io_pos s1 = io_pos s2 /\
    bit_shift s1 = bit_shift s2 /\
    (k <= 7 \/ b = 0 -> s1 = s2).
Proof.
  intros Hbs Hk Hroom.
  destruct (lookup_lt_is_Some_2 (io_buf s) (io_pos s + b)) as [c Hc];
    [unfold length_ in Hroom; lia|].
  destruct (Nat.eq_dec k 8) as [->|Hk7].
  - rewrite read_bits_8.
    destruct (read_aligned_bytes (b + 1) s Hbs ltac:(lia)
                ltac:(unfold length_ in *; lia)) as (lb & Hread & Hlb1 & _).
    rewrite Hread, (read_by_shifts_ok b 8 s c Hbs ltac:(lia) Hc).
    eexists _, _, _. split; [|split; [reflexivity|]].
    + repeat f_equal. rewrite Nat.add_1_r.
      rewrite (take_S_r _ _ c) by (rewrite lookup_drop; exact Hc).
      rewrite map_app. cbn [map]. f_equal. f_equal.
      change (Z.of_nat 8) with 8%Z.
      rewrite <- (land_ones_byte c) at 1. rewrite Z.shiftr_0_r. reflexivity.
    + cbn. repeat split; try lia.
      intros [Hlt | ->]; [lia|]. cbn. rewrite Nat.add_0_r in *.
      rewrite Hlb1 by reflexivity. rewrite Hc. f_equal. lia.
  - rewrite (read_aligned_bits b k s c Hbs ltac:(lia) Hc),
            (read_by_shifts_ok b k s c Hbs ltac:(lia) Hc).
    destruct (Nat.eqb_spec k 8) as [|_]; [lia|].
    eexists _, _, _. repeat split; reflexivity.
Qed.

Lemma read_aligned_refines_shifts_witness :
  exists vs s1 s2,
    read 1 3 (init [xab; xcd; xef]) = (Ok vs, s1) /\
    read_by_shifts 1 3 (init [xab; xcd; xef]) = (Ok vs, s2) /\
    s1 = s2.
Proof.
  destruct (read_aligned_refines_shifts (init [xab; xcd; xef]) 1 3)
    as (vs & s1 & s2 & H1 & H2 & _ & _ & _ & Heq); cbn; try lia.
  exists vs, s1, s2. repeat split; [exact H1 | exact H2 | apply Heq; lia].
Defined.

(** C7 as stated fails.  With [k = 0] the reference ends with [shift(0)],
    which at a byte boundary loads one more byte and yields a value [0] that
    [read] does not return; with [k > 8] the reference raises [ValueError];
    with [k = 8] and [b >= 1] the values agree and the cached byte does not. *)
Lemma read_differs_from_shifts :
  let s := init [x01; x02; x03] in
  bit_shift s = 0 /\
  read 1 0 s = (Ok [1%Z], mkReplayBuffer [x01; x02; x03] 1 0 (Some x01)) /\
  read_by_shifts 1 0 s
    = (Ok [1%Z; 0%Z], mkReplayBuffer [x01; x02; x03] 2 0 (Some x02)) /\
  read 0 9 s = (Ok [1%Z; 0%Z], mkReplayBuffer [x01; x02; x03] 2 1 (Some x02)) /\
  read_by_shifts 0 9 s = (Raise ValueError, s) /\
  read 1 8 s = (Ok [1%Z; 2%Z], mkReplayBuffer [x01; x02; x03] 2 0 None) /\
  read_by_shifts 1 8 s
    = (Ok [1%Z; 2%Z], mkReplayBuffer [x01; x02; x03] 2 0 (Some x02)).
Proof. cbv zeta. repeat split; vm_compute; reflexivity. Qed.

(** ** The general path of [read] *)

(** A successful run of the loop of [read]: it reads [(bit_count - 1) / 8]
    bytes, touches no field but the position, hands back the last byte it
    read, and appends one value per byte read and one or two for the last
    byte. *)
Lemma read_loop_ok (fuel : nat) (e : state_entry) (old bit_count : nat)
    (first : Z) (next : byte) (raw : list Z) s out next' s' :
  read_loop fuel e old bit_count first next raw s = (Ok (out, next'), s') ->
  io_buf s' = io_buf s /\ bit_shift s' = bit_shift s /\
  last_byte s' = last_byte s /\
  io_pos s' = io_pos s + (bit_count - 1) / 8 /\
  (io_pos s' = io_pos s /\ next' = next \/
   io_pos s < io_pos s' /\ io_buf s !! (io_pos s' - 1) = Some next') /\
  length out = length raw + (bit_count - 1) / 8 +
               (if Nat.eqb bit_count 0 then 0
                else if (0 <? adjustment e)%Z then 2 else 1).
Proof.
  revert bit_count first next raw s.
  induction fuel as [|fuel IH]; intros bit_count first next raw s Hrun;
    cbn [read_loop] in Hrun.
  - destruct (Nat.ltb_spec 0 bit_count) as [Hpos|Hzero]; [discriminate|].
    assert (bit_count = 0) as -> by lia. injection Hrun as <- <- <-.
    cbn. repeat split; try lia. left. auto.
  - destruct (Nat.ltb_spec 0 bit_count) as [Hpos|Hzero].
    + destruct (Nat.leb_spec bit_count 8) as [Hlast|Hmore].
      * apply IH in Hrun. cbn in Hrun.
        destruct Hrun as (Hbuf & Hbs & Hlb & Hp & Hnext & Hlen).
        replace ((bit_count - 1) / 8) with 0
          by (symmetry; apply Nat.div_small; lia).
        repeat split; try assumption.
        destruct (Nat.eqb_spec bit_count 0) as [|_]; [lia|].
        rewrite Hlen.
        destruct (adjustment e <? 0)%Z eqn:Hneg.
        -- assert ((0 <? adjustment e)%Z = false) as -> by lia.
           rewrite length_app. cbn. lia.
        -- destruct (0 <? adjustment e)%Z; rewrite !length_app; cbn; lia.
      * apply bind_ok in Hrun as (nb & s1 & Hord & Hrun).
        apply read_ord_ok in Hord as [Hnb ->].
        apply IH in Hrun. cbn [io_buf io_pos bit_shift last_byte with_pos] in Hrun.
        destruct Hrun as (Hbuf & Hbs & Hlb & Hp & Hnext & Hlen).
        assert (Hdiv : (bit_count - 1) / 8 = S ((bit_count - 8 - 1) / 8)).
        { replace (bit_count - 1) with ((bit_count - 8 - 1) + 1 * 8) by lia.
          rewrite Nat.div_add by lia. lia. }
        rewrite Hdiv. repeat split; try assumption; try lia.
        -- right. destruct Hnext as [[Heq ->] | [Hlt Hnext]].
           ++ rewrite Heq. split; [lia|].
              replace (S (io_pos s) - 1) with (io_pos s) by lia. exact Hnb.
           ++ split; [lia | exact Hnext].
        -- rewrite Hlen, length_app. cbn.
           destruct (Nat.eqb_spec bit_count 0) as [|_]; [lia|].
           destruct (Nat.eqb_spec (bit_count - 8) 0) as [|_]; [lia|]. lia.
    + assert (bit_count = 0) as -> by lia. injection Hrun as <- <- <-.
      cbn. repeat split; try lia. left. auto.
Qed.

(** The loop never runs out of the fuel [read] gives it. *)
Lemma read_loop_fuel (fuel : nat) (e : state_entry) (old bit_count : nat)
    (first : Z) (next : byte) (raw : list Z) s :
  bit_count <= fuel ->
  fst (read_loop fuel e old bit_count first next raw s) <> Raise OutOfFuel.
Proof.
  revert bit_count first next raw s.
  induction fuel as [|fuel IH]; intros bit_count first next raw s Hfuel;
    cbn [read_loop].
  - destruct (Nat.ltb_spec 0 bit_count); [lia | discriminate].
  - destruct (Nat.ltb_spec 0 bit_count); [|discriminate].
    destruct (Nat.leb_spec bit_count 8).
    + apply IH. lia.
    + unfold bind. destruct (read_ord s) as [[nb|err] s1] eqn:Hord.
      * apply IH. lia.
      * destruct (io_buf s !! io_pos s) as [b|] eqn:Hb.
        -- rewrite (read_ord_some _ _ Hb) in Hord. discriminate.
        -- rewrite (read_ord_none _ Hb) in Hord. injection Hord as <- <-.
           discriminate.
Qed.

(** [shift] with no byte to work on signals the end of the stream. *)
Lemma shift_no_byte s (w : nat) :
  bit_shift s + w <= 8 -> current_byte s = None ->
  shift w s = (Raise EOFError, s).
Proof.
  intros Hfit Hcur. unfold shift, current_byte in *.
  unfold except_TypeError, bind at 1, get_bit_shift at 1.
  destruct (Nat.leb_spec (bit_shift s + w) 8) as [_|]; [|lia].
  destruct (Nat.eqb (bit_shift s) 0).
  - unfold bind. rewrite (read_ord_none _ Hcur). reflexivity.
  - unfold bind. cbn. rewrite Hcur. reflexivity.
Qed.

(** Every successful [shift] is the one of [shift_fits]. *)
Lemma shift_ok s (w : nat) r s' :
  shift w s = (Ok r, s') ->
  bit_shift s + w <= 8 /\
  exists b, current_byte s = Some b /\
    r = Z.land (Z.shiftr (ord b) (Z.of_nat (bit_shift s))) (Z.ones (Z.of_nat w)) /\
    s' = mkReplayBuffer (io_buf s)
           (if Nat.eqb (bit_shift s) 0 then S (io_pos s) else io_pos s)
           (if Nat.eqb (bit_shift s + w) 8 then 0 else bit_shift s + w)
           (Some b).
Proof.
  intros Hrun.
  destruct (le_gt_dec (bit_shift s + w) 8) as [Hfit|Hwide].
  - split; [exact Hfit|].
    destruct (current_byte s) as [b|] eqn:Hcur.
    + rewrite (shift_fits s w b Hfit Hcur) in Hrun.
      injection Hrun as <- <-. eauto.
    + rewrite (shift_no_byte s w Hfit Hcur) in Hrun. discriminate.
  - rewrite (shift_too_wide s w Hwide) in Hrun. discriminate.
Qed.

Lemma read_base_inv (n : nat) s vs s' :
  read_base n s = (Ok vs, s') ->
  s' = with_pos s (io_pos s + n) /\ io_pos s + n <= length_ s \/
  n = 0 /\ s' = s.
Proof.
  revert s vs. induction n as [|n IH]; intros s vs Hrun; cbn [read_base] in Hrun.
  - right. injection Hrun as <- <-. auto.
  - left. apply bind_ok in Hrun as (b & s1 & Hord & Hrun).
    apply read_ord_ok in Hord as [Hb ->].
    apply bind_ok in Hrun as (rest & s2 & Hrest & Hrun).
    injection Hrun as <- <-.
    apply lookup_lt_Some in Hb.
    apply IH in Hrest as [[-> Hlen] | [-> ->]]; unfold with_pos, length_ in *;
      cbn in *; split; try lia; f_equal; lia.
Qed.

(** A successful [read] on the general path: a cursor inside a byte and a
    request that does not fit in the rest of that byte. *)
Lemma read_general_ok (bytes bits : nat) s vs s' :
  bit_shift s <> 0 ->
  8 - bit_shift s < (bytes + bits / 8) * 8 + bits mod 8 ->
  read bytes bits s = (Ok vs, s') ->
  let bit_count := (bytes + bits / 8) * 8 + bits mod 8 in
  let new := (bit_shift s + bits mod 8) mod 8 in
  bit_shift s < 8 /\
  io_buf s' = io_buf s /\
  bit_shift s' = new /\
  io_pos s' = io_pos s + 1 + (bit_count - (8 - bit_shift s) - 1) / 8 /\
  (exists b, last_byte s' = Some b /\ io_buf s !! (io_pos s' - 1) = Some b) /\
  length vs = (bit_count - (8 - bit_shift s) - 1) / 8 +
              (if (0 <? adjustment (load_state (bit_shift s) new))%Z
               then 2 else 1).
Proof.
  intros Hbs Hbig Hrun bit_count new. apply except_ok in Hrun.
  fold bit_count in Hrun, Hbig.
  destruct (Nat.eqb_spec bit_count 0) as [|_]; [lia|].
  unfold bind at 1, get_bit_shift at 1 in Hrun.
  destruct (Nat.leb_spec bit_count (8 - bit_shift s)) as [|_]; [lia|].
  destruct (Nat.eqb_spec (bit_shift s) 0) as [|_]; [lia|].
  unfold read_general in Hrun. cbv zeta in Hrun. fold new in Hrun.
  apply bind_ok in Hrun as (e & s0 & He & Hrun).
  unfold read_state in He.
  destruct (Nat.ltb (bit_shift s) 8 && Nat.ltb new 8) eqn:Hkeys;
    [|discriminate].
  apply andb_prop in Hkeys as [Hlt%Nat.ltb_lt _].
  injection He as <- <-.
  apply bind_ok in Hrun as (prev & s0 & Hprev & Hrun).
  injection Hprev as <- <-.
  apply bind_ok in Hrun as (next & s1 & Hord & Hrun).
  apply read_ord_ok in Hord as [Hnext ->].
  destruct (last_byte s) as [prev|]; [|discriminate].
  apply bind_ok in Hrun as ([raw next'] & s2 & Hloop & Hrun).
  injection Hrun as <- <-.
  apply read_loop_ok in Hloop.
  cbn [io_buf io_pos bit_shift last_byte with_pos] in Hloop.
  destruct Hloop as (Hbuf & _ & _ & Hp & Hlast & Hlen).
  assert (Hinv : old_bit_shift_inv (load_state (bit_shift s) new)
                 = 8 - bit_shift s)
    by (unfold load_state; destruct (Nat.eqb new 0); reflexivity).
  rewrite Hinv in *.
  cbn [io_buf io_pos bit_shift last_byte].
  repeat split; try assumption; try lia.
  - exists next'. split; [reflexivity|].
    destruct Hlast as [[Heq ->] | [_ Hl]]; [|exact Hl].
    rewrite Heq. replace (S (io_pos s) - 1) with (io_pos s) by lia.
    exact Hnext.
  - rewrite Hlen. cbn [length].
    destruct (Nat.eqb_spec (bit_count - (8 - bit_shift s)) 0); [lia|]. lia.
Qed.

(** ** The cursor invariant *)

Create HintDb cursor.

Section triples.
Context {A B : Type}.
Implicit Types (m : M A) (f : A -> M B).

Lemma reads_sound m : reads m -> sound m.
Proof. intros H s a s' Hs Hrun. destruct (H s a s' Hs Hrun) as (?&?&?). auto. Qed.

Lemma sound_moves m : sound m -> moves m.
Proof. intros H s a s' Hs Hrun. destruct (H s a s' Hs Hrun) as (?&?&?). auto. Qed.

Lemma in_bounds_buf s s' :
  io_buf s' = io_buf s -> io_pos s' = io_pos s -> in_bounds s -> in_bounds s'.
Proof. unfold in_bounds, length_. intros -> ->. auto. Qed.

Lemma sound_ret (a : A) : sound (ret a).
Proof. intros s a' s' Hs [= <- <-]. auto. Qed.

Lemma sound_raise e : sound (@raise A e).
Proof. intros s a s' _ [=]. Qed.

Lemma reads_raise e : reads (@raise A e).
Proof. intros s a s' _ [=]. Qed.

Lemma sound_bind m f : sound m -> (forall a, sound (f a)) -> sound (bind m f).
Proof.
  intros Hm Hf s b s' Hs Hrun.
  apply bind_ok in Hrun as (a & s1 & H1 & H2).
  destruct (Hm _ _ _ Hs H1) as (Hb1 & Hs1 & Hin1).
  destruct (Hf a _ _ _ Hs1 H2) as (Hb2 & Hs2 & Hin2).
  split; [congruence | auto].
Qed.

Lemma moves_bind m f : moves m -> (forall a, moves (f a)) -> moves (bind m f).
Proof.
  intros Hm Hf s b s' Hs Hrun.
  apply bind_ok in Hrun as (a & s1 & H1 & H2).
  destruct (Hm _ _ _ Hs H1) as (Hb1 & Hs1).
  destruct (Hf a _ _ _ Hs1 H2) as (Hb2 & Hs2).
  split; [congruence | auto].
Qed.

Lemma reads_bind_l m f : reads m -> (forall a, sound (f a)) -> reads (bind m f).
Proof.
  intros Hm Hf s b s' Hs Hrun.
  apply bind_ok in Hrun as (a & s1 & H1 & H2).
  destruct (Hm _ _ _ Hs H1) as (Hb1 & Hs1 & Hin1).
  destruct (Hf a _ _ _ Hs1 H2) as (Hb2 & Hs2 & Hin2).
  split; [congruence | auto].
Qed.

Lemma reads_bind_r m f : moves m -> (forall a, reads (f a)) -> reads (bind m f).
Proof.
  intros Hm Hf s b s' Hs Hrun.
  apply bind_ok in Hrun as (a & s1 & H1 & H2).
  destruct (Hm _ _ _ Hs H1) as (Hb1 & Hs1).
  destruct (Hf a _ _ _ Hs1 H2) as (Hb2 & Hs2 & Hin2).
  split; [congruence | auto].
Qed.
End triples.

#[local] Hint Resolve sound_ret sound_raise reads_raise reads_sound : cursor.

(** Steps through a method built from methods already known to keep the
    invariant. *)
Ltac cursor_step :=
  lazymatch goal with
  | |- sound (bind _ _) => apply sound_bind; [|intros ?]
  | |- reads (bind _ _) =>
      first [ apply reads_bind_l; [solve [auto with cursor]|intros ?]
            | apply reads_bind_r; [solve [auto with cursor]|intros ?] ]
  | |- sound (ret _) => apply sound_ret
  | |- sound (raise _) => apply sound_raise
  | |- reads (raise _) => apply reads_raise
  | |- _ (if ?c then _ else _) => destruct c
  | |- _ (match ?x with _ => _ end) => destruct x
  | |- _ => solve [auto with cursor]
  end.

Lemma sound_get_bit_shift : sound get_bit_shift.
Proof. intros s a s' Hs [= <- <-]. auto. Qed.

Lemma sound_get_last_byte : sound get_last_byte.
Proof. intros s a s' Hs [= <- <-]. auto. Qed.

Lemma sound_io_tell : sound io_tell.
Proof. intros s a s' Hs [= <- <-]. auto. Qed.

Lemma sound_bytes_left : sound bytes_left.
Proof. intros s a s' Hs [= <- <-]. auto. Qed.

#[local] Hint Resolve sound_get_bit_shift sound_get_last_byte sound_io_tell
  sound_bytes_left : cursor.

(** What a [seek] that returns has done: the position is the target, and
    the cache was reloaded when a byte is partly consumed. *)
Lemma seek_ok (position : Z) (mode : whence) s a s' :
  seek position mode s = (Ok a, s') ->
  io_buf s' = io_buf s /\ bit_shift s' = bit_shift s /\
  io_pos s' = io_seek_target position mode s /\
  cache_ok s' /\
  (bit_shift s = 0 \/ io_seek_target position mode s = 0 ->
   last_byte s' = last_byte s).
Proof.
  unfold seek, io_seek, io_tell, get_bit_shift. unfold bind at 1 2 3.
  cbn [with_pos io_pos bit_shift].
  set (p := io_seek_target position mode s).
  destruct (Nat.eqb_spec p 0) as [Hp|Hp]; cbn [negb andb].
  - intros [= <- <-]. cbn. repeat split; auto. intros _ Hne. contradiction.
  - destruct (Nat.eqb_spec (bit_shift s) 0) as [Hbs|Hbs]; cbn [negb].
    + intros [= <- <-]. cbn. repeat split; auto. intros Hne. contradiction.
    + unfold bind at 1. cbn [with_pos io_pos bit_shift].
      intros Hrun. apply bind_ok in Hrun as (b & s1 & Hord & Hrun).
      apply read_ord_ok in Hord as [Hb ->]. injection Hrun as <- <-.
      cbn in Hb |- *.
      assert (Hback : io_seek_target (-1) SEEK_CUR (with_pos s p) = p - 1)
        by (unfold io_seek_target; cbn; lia).
      rewrite Hback in *.
      replace (S (p - 1)) with p by lia.
      repeat split; auto.
      * intros _ _. exists b. auto.
      * intros [?|?]; contradiction.
Qed.

Lemma moves_seek position mode : moves (seek position mode).
Proof.
  intros s a s' [Hbs _] Hrun.
  destruct (seek_ok _ _ _ _ _ Hrun) as (Hbuf & Hbs' & _ & Hc & _).
  split; [exact Hbuf|]. split; [lia | exact Hc].
Qed.

Lemma sound_shift (w : nat) : sound (shift w).
Proof.
  intros s r s' [Hbs Hc] Hrun.
  apply shift_ok in Hrun as (Hfit & b & Hcur & _ & ->).
  unfold current_byte in Hcur. cbn.
  split; [reflexivity|]. split; [split|].
  - cbn. destruct (Nat.eqb_spec (bit_shift s + w) 8); lia.
  - unfold cache_ok. cbn. intros Hne Hpos.
    destruct (Nat.eqb_spec (bit_shift s) 0) as [Hz|Hnz].
    + exists b. split; [reflexivity|].
      replace (S (io_pos s) - 1) with (io_pos s) by lia. exact Hcur.
    + destruct (Hc Hnz Hpos) as (b' & Hlb & Hbuf).
      exists b. split; [reflexivity|]. congruence.
  - unfold in_bounds, length_. cbn. intros Hin.
    destruct (Nat.eqb_spec (bit_shift s) 0); [|lia].
    apply lookup_lt_Some in Hcur. lia.
Qed.

Lemma sound_read (bytes bits : nat) : sound (read bytes bits).
Proof.
  intros s vs s' Hs Hrun.
  destruct (Nat.eq_dec (bit_shift s) 0) as [Hz|Hnz];
    [|destruct (le_gt_dec ((bytes + bits / 8) * 8 + bits mod 8)
                          (8 - bit_shift s)) as [Hfit|Hbig]].
  - (* byte-aligned *)
    apply except_ok in Hrun.
    destruct (Nat.eqb ((bytes + bits / 8) * 8 + bits mod 8) 0);
      [injection Hrun as <- <-; auto|].
    unfold bind at 1, get_bit_shift at 1 in Hrun.
    destruct (Nat.leb ((bytes + bits / 8) * 8 + bits mod 8) (8 - bit_shift s)).
    { apply bind_ok in Hrun as (r & s1 & Hsh & Hrun). injection Hrun as <- <-.
      exact (sound_shift _ _ _ _ Hs Hsh). }
    rewrite Hz in Hrun. cbn [Nat.eqb] in Hrun.
    apply bind_ok in Hrun as (base & s1 & Hbase & Hrun).
    assert (Hs1 : io_buf s1 = io_buf s /\ cursor_ok s1 /\
                  (in_bounds s -> in_bounds s1)).
    { apply read_base_inv in Hbase as [[-> Hlen] | [_ ->]]; [|auto].
      cbn. split; [reflexivity|]. split; [|intros _; exact Hlen].
      split; [cbn; lia|]. intros Hne. cbn in Hne. contradiction. }
    destruct Hs1 as (Hb1 & Hc1 & Hin1).
    destruct (negb (Nat.eqb (bits mod 8) 0)).
    + apply bind_ok in Hrun as (r & s2 & Hsh & Hrun). injection Hrun as <- <-.
      destruct (sound_shift _ _ _ _ Hc1 Hsh) as (Hb2 & Hc2 & Hin2).
      split; [congruence | auto].
    + injection Hrun as <- <-. auto.
  - (* within the current byte, or nothing to read *)
    apply except_ok in Hrun.
    destruct (Nat.eqb ((bytes + bits / 8) * 8 + bits mod 8) 0);
      [injection Hrun as <- <-; auto|].
    unfold bind at 1, get_bit_shift at 1 in Hrun.
    destruct (Nat.leb_spec ((bytes + bits / 8) * 8 + bits mod 8)
                           (8 - bit_shift s)); [|lia].
    apply bind_ok in Hrun as (r & s1 & Hsh & Hrun). injection Hrun as <- <-.
    exact (sound_shift _ _ _ _ Hs Hsh).
  - (* across bytes from inside a byte *)
    destruct (read_general_ok _ _ _ _ _ Hnz Hbig Hrun)
      as (_ & Hbuf & Hbs & Hpos & (b & Hlb & Hb) & _).
    split; [exact Hbuf|]. split; [split|].
    + rewrite Hbs. apply Nat.mod_upper_bound. lia.
    + intros _ _. exists b. rewrite Hbuf. auto.
    + intros _. unfold in_bounds, length_. rewrite Hbuf.
      apply lookup_lt_Some in Hb. lia.
Qed.

#[local] Hint Resolve moves_seek sound_shift sound_read : cursor.

(** A successful [read] of [n >= 1] whole bytes from inside a byte reads
    exactly [n] bytes, yields [n] values and keeps the bit offset. *)
Lemma read_bytes_shifted_ok (n : nat) s vs s' :
  bit_shift s <> 0 -> 1 <= n ->
  read n 0 s = (Ok vs, s') ->
  bit_shift s < 8 /\
  io_buf s' = io_buf s /\ bit_shift s' = bit_shift s /\
  io_pos s' = io_pos s + n /\ io_pos s' <= length_ s /\
  (exists b, last_byte s' = Some b /\ io_buf s !! (io_pos s' - 1) = Some b) /\
  length vs = n.
Proof.
  intros Hnz Hn Hrun.
  assert (Hbig : 8 - bit_shift s < (n + 0 / 8) * 8 + 0 mod 8)
    by (change (0 / 8) with 0; change (0 mod 8) with 0; lia).
  destruct (read_general_ok _ _ _ _ _ Hnz Hbig Hrun)
    as (Hlt & Hbuf & Hbs & Hpos & (b & Hlb & Hb) & Hlen).
  change (0 / 8) with 0 in *. change (0 mod 8) with 0 in *.
  rewrite !Nat.add_0_r in *.
  rewrite (Nat.mod_small (bit_shift s) 8 Hlt) in *.
  assert (Hdiv : (n * 8 - (8 - bit_shift s) - 1) / 8 = n - 1).
  { replace (n * 8 - (8 - bit_shift s) - 1)
      with ((bit_shift s - 1) + (n - 1) * 8) by lia.
    rewrite Nat.div_add by lia. rewrite Nat.div_small; lia. }
  rewrite Hdiv in *.
  assert (Hadj : adjustment (load_state (bit_shift s) (bit_shift s)) = 0%Z).
  { unfold load_state. destruct (Nat.eqb_spec (bit_shift s) 0); [lia|].
    cbn. lia. }
  rewrite Hadj in Hlen. cbn in Hlen.
  repeat split; try assumption; try lia.
  - apply lookup_lt_Some in Hb. unfold length_. lia.
  - exists b. auto.
Qed.

(** What a [read_byte] that returns has done. *)
Lemma read_byte_ok s v s' :
  read_byte s = (Ok v, s') ->
  bit_shift s < 8 /\
  io_buf s' = io_buf s /\ bit_shift s' = bit_shift s /\
  io_pos s' = S (io_pos s) /\ io_pos s' <= length_ s /\
  (bit_shift s = 0 ->
   s' = with_pos s (S (io_pos s)) /\
   exists b, io_buf s !! io_pos s = Some b /\ v = ord b) /\
  (bit_shift s <> 0 ->
   exists b, last_byte s' = Some b /\ io_buf s !! io_pos s = Some b).
Proof.
  unfold read_byte. unfold bind at 1, get_bit_shift at 1.
  destruct (Nat.eqb_spec (bit_shift s) 0) as [Hz|Hnz]; intros Hrun.
  - apply bind_ok in Hrun as (b & s1 & Hord & Hrun).
    apply read_ord_ok in Hord as [Hb ->]. injection Hrun as <- <-.
    cbn. repeat split; try lia; try (intros; contradiction).
    + apply lookup_lt_Some in Hb. unfold length_. lia.
    + eauto.
  - apply bind_ok in Hrun as (r & s1 & Hread & Hrun).
    destruct (r !! 0); [|discriminate]. injection Hrun as <- <-.
    destruct (read_bytes_shifted_ok 1 _ _ _ Hnz ltac:(lia) Hread)
      as (Hlt & Hbuf & Hbs & Hpos & Hlen & (b & Hlb & Hb) & _).
    repeat split; try assumption; try lia; try (intros; contradiction).
    intros _. exists b. split; [exact Hlb|].
    rewrite Hpos in Hb. replace (io_pos s + 1 - 1) with (io_pos s) in Hb by lia.
    exact Hb.
Qed.

Lemma reads_read_byte : reads read_byte.
Proof.
  intros s v s' [_ Hc] Hrun.
  destruct (read_byte_ok _ _ _ Hrun) as (Hlt & Hbuf & Hbs & Hpos & Hlen & Hz & Hnz).
  split; [exact Hbuf|]. split; [split|].
  - lia.
  - intros Hne _. rewrite Hbs in Hne. destruct (Hnz Hne) as (b & Hlb & Hb).
    exists b. split; [exact Hlb|]. rewrite Hbuf, Hpos.
    replace (S (io_pos s) - 1) with (io_pos s) by lia. exact Hb.
  - unfold in_bounds, length_ in *. rewrite Hbuf. exact Hlen.
Qed.

Lemma write_chars_ok (bytes : list Z) s cs s' :
  write_chars bytes s = (Ok cs, s') ->
  s' = s /\ map ord cs = bytes.
Proof.
  revert cs. induction bytes as [|byte rest IH]; intros cs Hrun;
    cbn [write_chars] in Hrun.
  - injection Hrun as <- <-. auto.
  - destruct (chr byte) as [c|] eqn:Hchr; [|discriminate].
    apply bind_ok in Hrun as (cs' & s1 & Hrest & Hrun).
    injection Hrun as <- <-. destruct (IH _ Hrest) as [-> <-].
    split; [reflexivity|]. cbn. f_equal.
    unfold chr in Hchr.
    destruct ((0 <=? byte)%Z && (byte <? 256)%Z) eqn:Hrange; [|discriminate].
    apply Byte.to_of_N in Hchr. unfold ord. rewrite Hchr. lia.
Qed.

Lemma read_basic_ok (n : nat) s out s' :
  read_basic n s = (Ok out, s') ->
  out = take n (drop (io_pos s) (io_buf s)) /\
  s' = with_pos s (io_pos s + length out) /\
  (in_bounds s -> in_bounds s') /\
  (length out = n -> in_bounds s -> io_pos s + n <= length_ s).
Proof.
  unfold read_basic. intros [= <- <-].
  repeat split; unfold in_bounds, length_; cbn;
    rewrite length_take, length_drop; lia.
Qed.

(** What a [read_chars] that returns has done; from inside a byte it yields
    exactly [n] characters. *)
Lemma read_chars_ok (n : nat) s cs s' :
  read_chars n s = (Ok cs, s') ->
  (bit_shift s = 0 /\ read_basic n s = (Ok cs, s')) \/
  (bit_shift s <> 0 /\ exists vs, read n 0 s = (Ok vs, s') /\ map ord cs = vs).
Proof.
  unfold read_chars. unfold bind at 1, get_bit_shift at 1.
  destruct (Nat.eqb_spec (bit_shift s) 0) as [Hz|Hnz]; intros Hrun.
  - left. auto.
  - right. split; [exact Hnz|].
    apply bind_ok in Hrun as (vs & s1 & Hread & Hw).
    apply write_chars_ok in Hw as [-> Hmap]. eauto.
Qed.

Lemma sound_read_chars (n : nat) : sound (read_chars n).
Proof.
  intros s cs s' Hs Hrun.
  apply read_chars_ok in Hrun as [[Hz Hrun] | [Hnz (vs & Hrun & _)]].
  - apply read_basic_ok in Hrun as (_ & -> & Hin & _).
    split; [reflexivity|]. split; [|exact Hin].
    destruct Hs as [Hlt _]. split; [exact Hlt|].
    intros Hne. cbn in Hne. contradiction.
  - exact (sound_read _ _ _ _ _ Hs Hrun).
Qed.

Lemma struct_unpack_ok e (size : nat) chars s v s' :
  struct_unpack e size chars s = (Ok v, s') -> s' = s /\ length chars = size.
Proof.
  unfold struct_unpack. destruct (Nat.eqb_spec (length chars) size); [|discriminate].
  intros [= <- <-]. auto.
Qed.

(** A fixed-width read ([read_short], [read_int]) that returns has read
    exactly [size] bytes. *)
Lemma read_fixed_ok e (size : nat) s v s' :
  1 <= size ->
  (bs <- get_bit_shift ;;
   chars <- (if Nat.eqb bs 0 then read_basic size else read_chars size) ;;
   struct_unpack e size chars) s = (Ok v, s') ->
  io_buf s' = io_buf s /\ bit_shift s' = bit_shift s /\
  io_pos s' = io_pos s + size /\
  (bit_shift s = 0 -> s' = with_pos s (io_pos s + size)) /\
  (cursor_ok s -> cursor_ok s') /\
  (in_bounds s \/ bit_shift s <> 0 -> in_bounds s').
Proof.
  intros Hsize. unfold bind at 1, get_bit_shift at 1. intros Hrun.
  apply bind_ok in Hrun as (chars & s1 & Hchars & Hun).
  apply struct_unpack_ok in Hun as [-> Hlen].
  destruct (Nat.eqb_spec (bit_shift s) 0) as [Hz|Hnz].
  - apply read_basic_ok in Hchars as (_ & -> & Hin & _).
    rewrite Hlen in *. cbn.
    split; [reflexivity|]. split; [reflexivity|]. split; [reflexivity|].
    split; [reflexivity|]. split.
    + intros [Hlt _]. split; [exact Hlt|]. intros Hne. cbn in Hne. contradiction.
    + intros [Hb | Hb]; [auto | contradiction].
  - apply read_chars_ok in Hchars as [[Hz _] | [_ (vs & Hread & _)]];
      [contradiction|].
    destruct (read_bytes_shifted_ok size _ _ _ Hnz Hsize Hread)
      as (Hlt & Hbuf & Hbs & Hpos & Hle & (b & Hlb & Hb) & _).
    split; [exact Hbuf|]. split; [exact Hbs|]. split; [exact Hpos|].
    split; [intros; contradiction|]. split.
    + intros _. split; [lia|]. intros _ _. exists b. rewrite Hbuf. auto.
    + intros _. unfold in_bounds, length_ in *. rewrite Hbuf. exact Hle.
Qed.

Lemma sound_read_short e : sound (read_short e).
Proof.
  intros s v s' Hs Hrun.
  destruct (read_fixed_ok e 2 s v s' ltac:(lia) Hrun) as (?&?&?&?&?&?).
  auto.
Qed.

Lemma sound_read_int e : sound (read_int e).
Proof.
  intros s v s' Hs Hrun.
  destruct (read_fixed_ok e 4 s v s' ltac:(lia) Hrun) as (?&?&?&?&?&?).
  auto.
Qed.

#[local] Hint Resolve reads_read_byte sound_read_chars sound_read_short
  sound_read_int : cursor.

Lemma sound_read_hex (n : nat) : sound (read_hex n).
Proof. unfold read_hex. repeat cursor_step. Qed.

Lemma reads_read_count : reads read_count.
Proof. unfold read_count. repeat cursor_step. Qed.

#[local] Hint Resolve sound_read_hex reads_read_count : cursor.

(** ** [peek] *)

Lemma read_chars_keeps (n : nat) s cs s' :
  read_chars n s = (Ok cs, s') ->
  io_buf s' = io_buf s /\ bit_shift s' = bit_shift s.
Proof.
  intros Hrun.
  apply read_chars_ok in Hrun as [[Hz Hrun] | [Hnz (vs & Hrun & _)]].
  - apply read_basic_ok in Hrun as (_ & -> & _). auto.
  - destruct n as [|n].
    + vm_compute in Hrun. injection Hrun as <- <-. auto.
    + destruct (read_bytes_shifted_ok (S n) _ _ _ Hnz ltac:(lia) Hrun)
        as (_ & Hbuf & Hbs & _). auto.
Qed.

Lemma seek_set_target (p : nat) s : io_seek_target (Z.of_nat p) SEEK_SET s = p.
Proof. unfold io_seek_target. lia. Qed.

(** A [peek] that returns leaves the buffer object as it found it. *)
Lemma peek_ok (n : nat) s r s' :
  peek n s = (Ok r, s') -> s' = s /\ fst (read_hex n s) = Ok r.
Proof.
  unfold peek, cursor. unfold bind at 1 2, io_tell at 1, get_last_byte at 1.
  intros Hrun.
  apply bind_ok in Hrun as (r' & s1 & Hhex & Hrun).
  rewrite Hhex. cbn [fst].
  apply bind_ok in Hhex as (cs & s1' & Hchars & Hret).
  injection Hret as <- <-.
  apply bind_ok in Hrun as ([] & s2 & Hseek & Hrun).
  apply bind_ok in Hrun as ([] & s3 & Hset & Hrun).
  injection Hrun as <- <-. injection Hset as <-.
  destruct (read_chars_keeps _ _ _ _ Hchars) as [Hbuf1 Hbs1].
  destruct (seek_ok _ _ _ _ _ Hseek) as (Hbuf2 & Hbs2 & Hpos2 & _).
  rewrite seek_set_target in Hpos2.
  rewrite Hbuf2, Hbs2, Hpos2, Hbuf1, Hbs1.
  split; [destruct s|]; reflexivity.
Qed.

(** At a byte boundary [peek] always returns: the hex of the bytes that
    are there, at most [n] of them. *)
Lemma peek_aligned (n : nat) s :
  bit_shift s = 0 ->
  peek n s = (Ok (encode_hex (take n (drop (io_pos s) (io_buf s)))), s).
Proof.
  intros Hbs. destruct s as [buf pos bs lb]. cbn in Hbs. subst bs.
  unfold peek, cursor, read_hex, read_chars, seek.
  unfold bind, io_tell, get_last_byte, get_bit_shift, read_basic, io_seek,
    set_last_byte, ret, with_pos.
  cbn [io_pos io_buf bit_shift last_byte Nat.eqb negb].
  rewrite andb_false_r. rewrite seek_set_target. reflexivity.
Qed.

(** C10 (as the code has it).  Whenever [peek n] returns, the buffer
    object is exactly as before the call: byte offset, bit offset and
    cached byte; so [tell] and any [read] after it give what they would
    have given without the [peek].  What it returns is what [read_hex n]
    returns. *)
Theorem peek_restores_cursor (s : ReplayBuffer) (n : nat) (r : string) s' :
  peek n s = (Ok r, s') ->
  s' = s /\
  tell s' = tell s /\
  (forall bytes bits, read bytes bits s' = read bytes bits s) /\
  fst (read_hex n s) = Ok r.
Proof.
  intros Hrun. destruct (peek_ok _ _ _ _ Hrun) as [-> Hhex]. auto.
Qed.

Lemma peek_restores_cursor_witness :
  let s := mkReplayBuffer [xab; xcd; xef] 1 3 (Some xab) in
  peek 1 s = (Ok "ad"%string, s) /\ tell s = (Ok 1, s).
Proof.
  cbv zeta.
  assert (Hrun : peek 1 (mkReplayBuffer [xab; xcd; xef] 1 3 (Some xab))
                 = (Ok "ad"%string, mkReplayBuffer [xab; xcd; xef] 1 3 (Some xab)))
    by (vm_compute; reflexivity).
  destruct (peek_restores_cursor _ _ _ _ Hrun) as (_ & Htell & _).
  split; [exact Hrun | reflexivity].
Defined.

(** C10 as stated fails when [peek] raises: from inside a byte with too few
    bytes left, the bytes read before the end of the stream stay consumed. *)
Lemma peek_failure_moves_cursor :
  let s := snd (run (shift 3) [xab; xcd]) in
  s = mkReplayBuffer [xab; xcd] 1 3 (Some xab) /\
  peek 2 s = (Raise EOFError, mkReplayBuffer [xab; xcd] 2 3 (Some xab)) /\
  fst (tell s) = Ok 1 /\
  fst (tell (snd (peek 2 s))) = Ok 2.
Proof. cbv zeta. repeat split; vm_compute; reflexivity. Qed.

(** ** The decoders keep the cursor invariant *)

Lemma sound_peek (n : nat) : sound (peek n).
Proof. intros s r s' Hs Hrun. apply peek_ok in Hrun as [-> _]. auto. Qed.

Lemma sound_reset : sound reset.
Proof.
  intros s a s' _ Hrun. unfold reset, bind, io_seek, set_bit_shift in Hrun.
  injection Hrun as <- <-. cbn.
  split; [reflexivity|]. split; [split; [cbn; lia|]|].
  - intros Hne. cbn in Hne. contradiction.
  - intros _. unfold in_bounds. cbn. unfold io_seek_target. cbn. lia.
Qed.

Lemma sound_align : sound align.
Proof.
  intros s a s' _ Hrun. injection Hrun as <- <-.
  split; [reflexivity|]. split; [split; [cbn; lia|]|].
  - intros Hne. cbn in Hne. contradiction.
  - auto.
Qed.

Lemma sound_left : sound left.
Proof. intros s a s' Hs [= <- <-]. auto. Qed.

Lemma sound_empty : sound empty.
Proof. intros s a s' Hs [= <- <-]. auto. Qed.

Lemma sound_read_range (start end_ : Z) : sound (read_range start end_).
Proof.
  intros s r s' Hs Hrun.
  assert (s' = s) as ->; [|auto].
  unfold read_range, cursor, bind, io_tell, io_seek in Hrun.
  destruct (end_ - start <? 0)%Z; injection Hrun as <- <-;
    unfold io_read_all, read_basic; cbn;
    rewrite seek_set_target; destruct s; reflexivity.
Qed.

Lemma sound_variable_int_loop (fuel : nat) (byte shift value : Z) :
  sound (variable_int_loop fuel byte shift value).
Proof.
  revert byte shift value.
  induction fuel as [|fuel IH]; intros byte shift value; cbn [variable_int_loop];
    repeat cursor_step.
Qed.

#[local] Hint Resolve sound_variable_int_loop : cursor.

Lemma reads_read_variable_int : reads read_variable_int.
Proof. unfold read_variable_int. repeat cursor_step. Qed.

Lemma sound_read_string (length : option nat) : sound (read_string length).
Proof. unfold read_string. repeat cursor_step. Qed.

Lemma reads_read_timestamp : reads read_timestamp.
Proof. unfold read_timestamp. repeat cursor_step. Qed.

Lemma sound_for_range {A} (n : nat) (m : M A) : sound m -> sound (for_range n m).
Proof. intros Hm. induction n as [|n IH]; cbn [for_range]; repeat cursor_step. Qed.

Lemma sound_for_pairs (n : nat) (entry : M (Z * value)) data :
  sound entry -> sound (for_pairs n entry data).
Proof.
  intros Hm. revert data.
  induction n as [|n IH]; intros data; cbn [for_pairs]; repeat cursor_step.
Qed.

#[local] Hint Resolve reads_read_variable_int sound_read_string
  reads_read_timestamp sound_for_range sound_for_pairs : cursor.

Lemma moves_skip (amount : Z) : moves (skip amount).
Proof. apply moves_seek. Qed.

Lemma reads_read_data_struct_fuel (fuel : nat) : reads (read_data_struct_fuel fuel).
Proof.
  induction fuel as [|fuel IH]; cbn [read_data_struct_fuel].
  - apply reads_raise.
  - apply reads_bind_l; [apply reads_read_byte|]. intros datatype.
    destruct (datatype =? 2)%Z; [repeat cursor_step|].
    destruct (datatype =? 4)%Z.
    { apply reads_sound, reads_bind_r; [apply moves_skip|]. intros _.
      repeat cursor_step. }
    destruct (datatype =? 5)%Z.
    { apply sound_bind; [auto with cursor|]. intros n.
      apply sound_bind; [|intros ?; apply sound_ret].
      apply sound_for_pairs. repeat cursor_step. }
    repeat cursor_step.
Qed.

Lemma reads_read_data_struct : reads read_data_struct.
Proof.
  unfold read_data_struct. apply reads_bind_r; [auto using sound_moves with cursor|].
  intros fuel. apply reads_read_data_struct_fuel.
Qed.

Lemma sound_read_object_type (read_modifier : bool) :
  sound (read_object_type read_modifier).
Proof. unfold read_object_type. repeat cursor_step. Qed.

Lemma sound_read_object_id : sound read_object_id.
Proof. apply sound_read_int. Qed.

Lemma sound_read_bitmask : sound read_bitmask.
Proof. unfold read_bitmask. repeat cursor_step. Qed.

Lemma sound_read_coordinate : sound read_coordinate.
Proof. unfold read_coordinate, _coord_dimension. repeat cursor_step. Qed.

(** ** Sequences of calls *)

Lemma sound_effect {A} (m : M A) : sound m -> sound (effect m).
Proof. intros Hm. unfold effect. repeat cursor_step. Qed.

Lemma exec_sound (c : call) s s' :
  cursor_ok s -> in_bounds s -> seek_in_bounds c s ->
  exec c s = (Ok tt, s') ->
  io_buf s' = io_buf s /\ cursor_ok s' /\ in_bounds s'.
Proof.
  intros Hs Hin Hseek Hrun.
  assert (Hseek_case : forall position mode,
            io_seek_target position mode s <= length_ s ->
            seek position mode s = (Ok tt, s') ->
            io_buf s' = io_buf s /\ cursor_ok s' /\ in_bounds s').
  { intros position mode Hle Hsk.
    destruct (seek_ok _ _ _ _ _ Hsk) as (Hbuf & Hbs & Hpos & Hc & _).
    destruct Hs as [Hlt _].
    split; [exact Hbuf|]. split; [split; [lia | exact Hc]|].
    unfold in_bounds, length_ in *. rewrite Hbuf, Hpos. exact Hle. }
  assert (Hsound : forall m : M unit, sound m -> m s = (Ok tt, s') ->
            io_buf s' = io_buf s /\ cursor_ok s' /\ in_bounds s').
  { intros m Hm Hr. destruct (Hm _ _ _ Hs Hr) as (?&?&?). auto. }
  destruct c; cbn [exec seek_in_bounds] in *;
    try (apply (Hseek_case _ _ Hseek Hrun));
    (eapply Hsound; [|exact Hrun]);
    first [ apply sound_reset | apply sound_align | apply sound_effect ];
    auto using sound_io_tell, sound_left, sound_empty, sound_peek,
      sound_shift, sound_read, reads_sound, reads_read_byte, sound_read_short,
      sound_read_int, sound_read_chars, sound_read_hex, reads_read_count,
      reads_read_variable_int, sound_read_string, reads_read_timestamp,
      reads_read_data_struct, sound_read_object_type, sound_read_object_id,
      sound_read_coordinate, sound_read_bitmask, sound_read_range.
Qed.

(** C3 (as the code has it).  After every sequence of calls that return
    (the stream manipulation and the read methods, a [seek] or [skip] landing
    within the buffer), the buffer is still the file, the bit offset is in
    [0,8), [tell()] is between [0] and the length of the buffer, and whenever
    the bit offset and the byte offset are both non-zero the one-byte cache
    holds the byte of the buffer at offset - 1. *)
Theorem cursor_invariant (file : list byte) (s : ReplayBuffer) :
  reachable file s ->
  io_buf s = file /\
  bit_shift s < 8 /\
  (exists p, tell s = (Ok p, s) /\ 0 <= p <= length file) /\
  (bit_shift s <> 0 -> io_pos s <> 0 ->
   exists b, last_byte s = Some b /\ file !! (io_pos s - 1) = Some b).
Proof.
  intros Hreach.
  assert (H : io_buf s = file /\ cursor_ok s /\ in_bounds s).
  { induction Hreach as [|s c s' _ IH Hseek Hrun].
    - split; [reflexivity|]. split; [split; [cbn; lia|]|].
      + intros Hne. cbn in Hne. contradiction.
      + unfold in_bounds. cbn. lia.
    - destruct IH as (Hbuf & Hs & Hin).
      destruct (exec_sound _ _ _ Hs Hin Hseek Hrun) as (Hbuf' & Hs' & Hin').
      split; [congruence | auto]. }
  destruct H as (Hbuf & [Hlt Hc] & Hin).
  split; [exact Hbuf|]. split; [exact Hlt|]. split.
  - exists (io_pos s). split; [reflexivity|].
    unfold in_bounds, length_ in Hin. rewrite Hbuf in Hin. lia.
  - intros Hbs Hpos. rewrite <- Hbuf. exact (Hc Hbs Hpos).
Qed.

Lemma cursor_invariant_witness :
  let file := [xab; xcd; xef] in
  let s := mkReplayBuffer file 2 3 (Some xcd) in
  reachable file s /\
  bit_shift s < 8 /\
  (exists b, last_byte s = Some b /\ file !! (io_pos s - 1) = Some b).
Proof.
  cbv zeta.
  assert (Hr : reachable [xab; xcd; xef]
                 (mkReplayBuffer [xab; xcd; xef] 2 3 (Some xcd))).
  { apply (reach_call _ (mkReplayBuffer [xab; xcd; xef] 1 0 None) (Shift 3));
      [|exact I | vm_compute; reflexivity].
    apply (reach_call _ (init [xab; xcd; xef]) ReadByte);
      [apply reach_init | exact I | vm_compute; reflexivity]. }
  destruct (cursor_invariant _ _ Hr) as (_ & Hlt & _ & Hcache).
  split; [exact Hr|]. split; [exact Hlt|].
  apply Hcache; cbn; lia.
Defined.

(** C3 as stated fails.  A [seek] to offset [0] while a byte is partly
    consumed does not reload the cache (there is no byte at offset - 1), so
    the cache keeps a byte that is neither before the position nor anywhere
    the position points to.  A [read] that raises at the end of the stream
    leaves the position advanced and the cache behind it, and a
    [read_data_struct] that raises after its [skip(2)] leaves the position
    past the end of the buffer. *)
Lemma cursor_invariant_breaks :
  let file := [xab; xcd; xef] in
  let s := mkReplayBuffer file 0 3 (Some xcd) in
  (reachable file s /\
   bit_shift s <> 0 /\
   ~ (exists b, last_byte s = Some b /\ 1 <= io_pos s /\
                file !! (io_pos s - 1) = Some b) /\
   last_byte s <> file !! 0 /\ last_byte s <> last file) /\
  run (shift 3 ;;; read 2 0) [xab; xcd]
    = (Raise EOFError, mkReplayBuffer [xab; xcd] 2 3 (Some xab)) /\
  run read_data_struct [x04]
    = (Raise (TypeError OrdLength), mkReplayBuffer [x04] 3 0 None).
Proof.
  cbv zeta. split; [|split; vm_compute; reflexivity].
  split; [|split; [|split; [|split]]].
  - apply (reach_call _ (mkReplayBuffer [xab; xcd; xef] 2 3 (Some xcd))
             (Seek 0 SEEK_SET)); [|vm_compute; lia | vm_compute; reflexivity].
    apply (reach_call _ (mkReplayBuffer [xab; xcd; xef] 1 0 None) (Shift 3));
      [|exact I | vm_compute; reflexivity].
    apply (reach_call _ (init [xab; xcd; xef]) ReadByte);
      [apply reach_init | exact I | vm_compute; reflexivity].
  - cbn. lia.
  - intros (b & _ & Hpos & _). cbn in Hpos. lia.
  - cbn. discriminate.
  - cbn. discriminate.
Qed.

(** ** [read_string] *)

(** At a byte boundary with the whole string present, [read_string()] takes
    the value of the next byte as the length and returns the bytes after it. *)
Lemma read_string_aligned s (b : byte) :
  bit_shift s = 0 ->
  io_buf s !! io_pos s = Some b ->
  S (io_pos s) + Z.to_nat (ord b) <= length_ s ->
  read_string None s =
    (Ok (take (Z.to_nat (ord b)) (drop (S (io_pos s)) (io_buf s))),
     with_pos s (S (io_pos s) + Z.to_nat (ord b))).
Proof.
  intros Hbs Hb Hlen. unfold read_string, read_byte, read_chars.
  unfold bind at 1 2 3, get_bit_shift at 1. rewrite Hbs. cbn [Nat.eqb].
  rewrite (bind_step _ _ _ _ _ (read_ord_some _ _ Hb)).
  unfold ret at 1 2. unfold bind, get_bit_shift. cbn [bit_shift with_pos].
  rewrite Hbs. cbn [Nat.eqb]. unfold read_basic, with_pos. cbn.
  rewrite length_take, length_drop. unfold length_ in Hlen.
  repeat f_equal. lia.
Qed.

(** C1 (as the code has it).  A [read_string] without a length reads one
    byte with [read_byte] and takes its raw value, not halved, as the length;
    it then returns what [read_chars] gives for that length, which, when that
    many bytes remain, is exactly that many bytes.  With the whole string
    present at a byte boundary it returns. *)
Theorem read_string_length_prefixed (s : ReplayBuffer) :
  (forall b, bit_shift s = 0 -> io_buf s !! io_pos s = Some b ->
     S (io_pos s) + Z.to_nat (ord b) <= length_ s ->
     exists cs s', read_string None s = (Ok cs, s') /\
       length cs = Z.to_nat (ord b) /\
       cs = take (Z.to_nat (ord b)) (drop (S (io_pos s)) (io_buf s)) /\
       io_pos s' = S (io_pos s) + Z.to_nat (ord b)) /\
  (forall cs s', read_string None s = (Ok cs, s') ->
     exists raw s1,
       read_byte s = (Ok raw, s1) /\
       io_pos s1 = S (io_pos s) /\
       read_chars (Z.to_nat raw) s1 = (Ok cs, s') /\
       (io_pos s1 + Z.to_nat raw <= length_ s ->
        length cs = Z.to_nat raw /\ io_pos s' = io_pos s1 + Z.to_nat raw)).
Proof.
  split.
  - intros b Hbs Hb Hlen. eexists _, _.
    split; [apply (read_string_aligned s b Hbs Hb Hlen)|].
    cbn. rewrite length_take, length_drop. unfold length_ in Hlen.
    repeat split; lia.
  - intros cs s' Hrun. unfold read_string in Hrun.
    apply bind_ok in Hrun as (n & s1 & Hn & Hchars).
    apply bind_ok in Hn as (raw & s1' & Hbyte & Hret).
    injection Hret as <- <-.
    exists raw, s1'.
    destruct (read_byte_ok _ _ _ Hbyte) as (_ & Hbuf & Hbs & Hpos & Hle & _).
    split; [exact Hbyte|]. split; [exact Hpos|]. split; [exact Hchars|].
    apply read_chars_ok in Hchars as [[Hz Hbasic] | [Hnz (vs & Hread & Hmap)]].
    + apply read_basic_ok in Hbasic as (-> & -> & _).
      cbn [io_pos with_pos]. rewrite length_take, length_drop.
      unfold length_ in *. rewrite Hbuf. intros Hroom. split; lia.
    + intros _. assert (Hlen : length cs = length vs)
        by (rewrite <- Hmap, length_map; reflexivity).
      destruct (Z.to_nat raw) as [|n] eqn:Hraw.
      * vm_compute in Hread. injection Hread as <- <-. cbn in Hlen. lia.
      * destruct (read_bytes_shifted_ok (S n) _ _ _ Hnz ltac:(lia) Hread)
          as (_ & _ & _ & Hp & _ & _ & Hl). lia.
Qed.

Lemma read_string_length_prefixed_witness :
  exists cs s',
    read_string None (init [x04; x61; x62; x63; x64; x65]) = (Ok cs, s') /\
    cs = [x61; x62; x63; x64] /\ io_pos s' = 5.
Proof.
  destruct (read_string_length_prefixed (init [x04; x61; x62; x63; x64; x65]))
    as [Haligned _].
  destruct (Haligned x04) as (cs & s' & Hrun & _ & Hcs & Hpos);
    [reflexivity | reflexivity | vm_compute; lia|].
  exists cs, s'. split; [exact Hrun|]. split; [exact Hcs | exact Hpos].
Defined.

(** C1 as stated fails: the length byte [0x04] gives a string of four bytes,
    where a halved count would give two. *)
Lemma read_string_length_not_halved :
  let s := init [x04; x61; x62; x63; x64; x65] in
  read_string None s
    = (Ok [x61; x62; x63; x64], with_pos s 5) /\
  read_string_halved s = (Ok [x61; x62], with_pos s 3).
Proof. cbv zeta. split; vm_compute; reflexivity. Qed.

(** ** [read_timestamp] *)

(** C5.  [read_timestamp] reads a first byte and splits it into its high
    six bits, the leading time bits, and its low two bits, the count of
    bytes that follow.  For count [0] the time is the leading bits; for
    count [1], [2], [3] the leading bits are shifted left by [8], [16], [24]
    and OR-ed with one more byte, a little-endian short, or a short shifted
    left by [8] then a byte.  Whenever it returns it has consumed exactly
    [count] bytes after the first. *)
Theorem read_timestamp_decodes (s : ReplayBuffer) (first : Z) s1 :
  read_byte s = (Ok first, s1) ->
  let time := Z.shiftr first 2 in
  let count := Z.land first 0x03 in
  time = (first / 4)%Z /\ count = (first mod 4)%Z /\
  (count = 0%Z -> read_timestamp s = (Ok time, s1)) /\
  (count = 1%Z ->
   read_timestamp s
   = (b <- read_byte ;; ret (Z.lor (Z.shiftl time 8) b)) s1) /\
  (count = 2%Z ->
   read_timestamp s
   = (h <- read_short LITTLE_ENDIAN ;; ret (Z.lor (Z.shiftl time 16) h)) s1) /\
  (count = 3%Z ->
   read_timestamp s
   = (h <- read_short LITTLE_ENDIAN ;;
      b <- read_byte ;;
      ret (Z.lor (Z.lor (Z.shiftl time 24) (Z.shiftl h 8)) b)) s1) /\
  (forall t s', read_timestamp s = (Ok t, s') ->
     io_pos s1 = S (io_pos s) /\
     io_pos s' = io_pos s1 + Z.to_nat count).
Proof.
  intros Hfirst time count.
  assert (Hcount : count = (first mod 4)%Z)
    by (unfold count; change 3%Z with (Z.ones 2); rewrite Z.land_ones by lia;
        reflexivity).
  assert (Hrange : (0 <= count < 4)%Z)
    by (rewrite Hcount; apply Z.mod_pos_bound; lia).
  assert (Hunfold : read_timestamp s =
            (if (count =? 0)%Z then ret time
             else if (count =? 1)%Z then
               b <- read_byte ;; ret (Z.lor (Z.shiftl time 8) b)
             else if (count =? 2)%Z then
               h <- read_short LITTLE_ENDIAN ;;
               ret (Z.lor (Z.shiftl time 16) h)
             else if (count =? 3)%Z then
               h <- read_short LITTLE_ENDIAN ;;
               b <- read_byte ;;
               ret (Z.lor (Z.lor (Z.shiftl time 24) (Z.shiftl h 8)) b)
             else raise ValueError) s1).
  { unfold read_timestamp. rewrite (bind_step _ _ _ _ _ Hfirst). reflexivity. }
  split; [unfold time; rewrite Z.shiftr_div_pow2 by lia; reflexivity|].
  split; [exact Hcount|].
  split; [intros H0; rewrite Hunfold, H0; reflexivity|].
  split; [intros H1; rewrite Hunfold, H1; reflexivity|].
  split; [intros H2; rewrite Hunfold, H2; reflexivity|].
  split; [intros H3; rewrite Hunfold, H3; reflexivity|].
  intros t s' Hrun. rewrite Hunfold in Hrun.
  destruct (read_byte_ok _ _ _ Hfirst) as (_ & _ & _ & Hp1 & _).
  split; [exact Hp1|].
  destruct (Z.eqb_spec count 0) as [->|_].
  { injection Hrun as <- <-. cbn. lia. }
  destruct (Z.eqb_spec count 1) as [->|_].
  { apply bind_ok in Hrun as (b & s2 & Hb & Hret). injection Hret as <- <-.
    destruct (read_byte_ok _ _ _ Hb) as (_ & _ & _ & Hp2 & _). cbn. lia. }
  destruct (Z.eqb_spec count 2) as [->|_].
  { apply bind_ok in Hrun as (h & s2 & Hh & Hret). injection Hret as <- <-.
    destruct (read_fixed_ok _ 2 _ _ _ ltac:(lia) Hh) as (_ & _ & Hp2 & _).
    cbn. lia. }
  destruct (Z.eqb_spec count 3) as [->|_]; [|discriminate].
  apply bind_ok in Hrun as (h & s2 & Hh & Hrun).
  apply bind_ok in Hrun as (b & s3 & Hb & Hret). injection Hret as <- <-.
  destruct (read_fixed_ok _ 2 _ _ _ ltac:(lia) Hh) as (_ & _ & Hp2 & _).
  destruct (read_byte_ok _ _ _ Hb) as (_ & _ & _ & Hp3 & _). cbn. lia.
Qed.

Lemma read_timestamp_decodes_witness :
  read_timestamp (init [x04]) = (Ok 1%Z, with_pos (init [x04]) 1) /\
  (forall t s', read_timestamp (init [x05; x07]) = (Ok t, s') -> io_pos s' = 2).
Proof.
  assert (H4 : read_byte (init [x04]) = (Ok 4%Z, with_pos (init [x04]) 1))
    by reflexivity.
  assert (H5 : read_byte (init [x05; x07])
               = (Ok 5%Z, with_pos (init [x05; x07]) 1)) by reflexivity.
  destruct (read_timestamp_decodes _ _ _ H4) as (_ & _ & Hzero & _).
  destruct (read_timestamp_decodes _ _ _ H5) as (_ & _ & _ & _ & _ & _ & Hone).
  split; [apply Hzero; reflexivity|].
  intros t s' Hrun. destruct (Hone t s' Hrun) as [_ Hp]. exact Hp.
Defined.

(** The examples of the specification: byte [0x04] is time [1] with no
    byte after it, and [0x05] takes exactly one more byte. *)
Lemma read_timestamp_examples :
  run read_timestamp [x04; xff] = (Ok 1%Z, with_pos (init [x04; xff]) 1) /\
  run read_timestamp [x05; x07; xff]
    = (Ok 263%Z, with_pos (init [x05; x07; xff]) 2) /\
  run read_timestamp [x06; x07; x01; xff]
    = (Ok (65536 + 263)%Z, with_pos (init [x06; x07; x01; xff]) 3) /\
  run read_timestamp [x07; x07; x01; x02; xff]
    = (Ok (16777216 + 263 * 256 + 2)%Z,
       with_pos (init [x07; x07; x01; x02; xff]) 4).
Proof. repeat split; vm_compute; reflexivity. Qed.

(** ** Reads at the end of the stream *)

(** At a byte boundary at the end of the stream [read_byte] raises the
    [TypeError] of [ord('')], which nothing turns into [EOFError]. *)
Lemma read_byte_aligned_at_end s :
  bit_shift s = 0 -> length_ s <= io_pos s ->
  read_byte s = (Raise (TypeError OrdLength), s).
Proof.
  intros Hbs Hend. unfold read_byte, bind at 1, get_bit_shift at 1.
  rewrite Hbs. cbn [Nat.eqb].
  apply bind_raise, read_ord_none, lookup_ge_None. exact Hend.
Qed.

(** At a byte boundary [read_chars] returns the bytes that are left when
    there are fewer than asked for, and raises nothing. *)
Lemma read_chars_aligned_truncates s (n : nat) :
  bit_shift s = 0 -> io_pos s <= length_ s -> length_ s < io_pos s + n ->
  exists cs, read_chars n s = (Ok cs, with_pos s (length_ s)) /\
             cs = drop (io_pos s) (io_buf s) /\ length cs < n.
Proof.
  intros Hbs Hin Hshort. exists (drop (io_pos s) (io_buf s)).
  unfold read_chars, bind, get_bit_shift. rewrite Hbs. cbn [Nat.eqb].
  unfold read_basic, length_ in *.
  rewrite take_ge by (rewrite length_drop; lia).
  rewrite length_drop. split; [|split; [reflexivity | lia]].
  repeat f_equal. lia.
Qed.

(** C2 on the code.  At a byte boundary the byte-level reads do not raise
    the end-of-stream error past the end of the buffer: [read_chars] returns
    the shorter string, [read_byte] raises the [TypeError] of [ord('')], and
    [read_short] and [read_int] raise [struct.error].  From inside a byte the
    same reads go through [read] and do raise [EOFError]. *)
Lemma aligned_reads_past_end :
  run (read_chars 2) [x61] = (Ok [x61], with_pos (init [x61]) 1) /\
  run read_byte [] = (Raise (TypeError OrdLength), init []) /\
  run (read_short LITTLE_ENDIAN) [x61]
    = (Raise StructError, with_pos (init [x61]) 1) /\
  run (read_int LITTLE_ENDIAN) [x61; x62; x63]
    = (Raise StructError, with_pos (init [x61; x62; x63]) 3) /\
  fst (run (shift 3 ;;; read_chars 2) [x61; x62]) = Raise EOFError /\
  fst (run (shift 3 ;;; read_byte) [x61]) = Raise EOFError /\
  fst (run (shift 3 ;;; read_short LITTLE_ENDIAN) [x61; x62]) = Raise EOFError.
Proof. repeat split; vm_compute; reflexivity. Qed.

(** ** [read_bitmask] *)

Lemma _make_mask_length (todo : nat) (byte : Z) (bit_length current : nat) :
  length (_make_mask todo byte bit_length current)
  = S (Nat.min todo (bit_length - current)).
Proof.
  revert current. induction todo as [|todo IH]; intros current; cbn [_make_mask].
  - reflexivity.
  - destruct (Nat.ltb_spec current bit_length) as [Hlt|Hge].
    + cbn [length]. rewrite IH. lia.
    + cbn [length]. lia.
Qed.

(** The recursion of the source: with [todo = bit_length - current] the
    model unfolds as [_make_mask] does. *)
Lemma _make_mask_unfold (byte : Z) (bit_length current : nat) :
  _make_mask (bit_length - current) byte bit_length current =
    if Nat.ltb current bit_length then
      (0 <? Z.land byte (2 ^ Z.of_nat (bit_length - current)))%Z
        :: _make_mask (bit_length - (current + 1)) byte bit_length (current + 1)
    else [(Z.land byte 0x1 =? 0x01)%Z].
Proof.
  destruct (Nat.ltb_spec current bit_length) as [Hlt|Hge].
  - destruct (bit_length - current) as [|todo] eqn:Htodo; [lia|].
    cbn [_make_mask]. destruct (Nat.ltb_spec current bit_length); [|lia].
    rewrite Htodo.
    replace (bit_length - (current + 1)) with todo by lia. reflexivity.
  - replace (bit_length - current) with 0 by lia. reflexivity.
Qed.

Lemma land_pow2_testbit (x : Z) (k : nat) :
  (0 <? Z.land x (2 ^ Z.of_nat k))%Z = Z.testbit x (Z.of_nat k).
Proof.
  destruct (Z.testbit x (Z.of_nat k)) eqn:Hbit.
  - apply Z.ltb_lt.
    assert (Hnn : (0 <= Z.land x (2 ^ Z.of_nat k))%Z)
      by (apply Z.land_nonneg; right; apply Z.pow_nonneg; lia).
    assert (Hne : Z.land x (2 ^ Z.of_nat k) <> 0%Z).
    { intros Hz.
      assert (Hk : Z.testbit (Z.land x (2 ^ Z.of_nat k)) (Z.of_nat k) = true)
        by (rewrite Z.land_spec, Hbit, Z.pow2_bits_true by lia; reflexivity).
      rewrite Hz, Z.bits_0 in Hk. discriminate. }
    lia.
  - apply Z.ltb_ge.
    assert (Hz : Z.land x (2 ^ Z.of_nat k) = 0%Z); [|lia].
    apply Z.bits_inj'. intros i Hi.
    rewrite Z.land_spec, Z.bits_0, Z.pow2_bits_eqb by lia.
    destruct (Z.eqb_spec (Z.of_nat k) i) as [<-|_].
    + rewrite Hbit. reflexivity.
    + apply andb_false_r.
Qed.

Lemma land_1_testbit (x : Z) : (Z.land x 1 =? 1)%Z = Z.testbit x 0.
Proof.
  change 1%Z with (Z.ones 1) at 1. rewrite Z.land_ones by lia.
  rewrite Z.bit0_eqb. change (2 ^ 1)%Z with 2%Z. reflexivity.
Qed.

(** The booleans of [_make_mask] are the bits of the packed integer, from
    bit [bit_length - current] down to bit [0]. *)
Lemma _make_mask_bits (todo : nat) (byte : Z) (bit_length current : nat) :
  todo = bit_length - current ->
  _make_mask todo byte bit_length current
  = map (fun i => Z.testbit byte (Z.of_nat i)) (rev (seq 0 (S todo))).
Proof.
  revert current. induction todo as [|todo IH]; intros current Htodo.
  - cbn. rewrite land_1_testbit. reflexivity.
  - cbn [_make_mask]. destruct (Nat.ltb_spec current bit_length); [|lia].
    rewrite (IH (current + 1)) by lia.
    rewrite land_pow2_testbit, <- Htodo.
    rewrite (seq_S (S todo)). rewrite rev_app_distr. reflexivity.
Qed.

(** A [read_bitmask] that returns gives the bits of the packed integer from
    bit [0] up; there are as many as the length byte says, and one when the
    length byte is [0]. *)
Lemma read_bitmask_ok s (mask : list bool) s' :
  read_bitmask s = (Ok mask, s') ->
  exists n s1 bytes,
    read_byte s = (Ok n, s1) /\
    read 0 (Z.to_nat n) s1 = (Ok bytes, s') /\
    mask = map (fun i => Z.testbit (pack_mask bytes) (Z.of_nat i))
               (seq 0 (Nat.max 1 (Z.to_nat n))) /\
    length mask = Nat.max 1 (Z.to_nat n).
Proof.
  unfold read_bitmask. intros Hrun.
  apply bind_ok in Hrun as (n & s1 & Hbyte & Hrun).
  apply bind_ok in Hrun as (bytes & s2 & Hread & Hret).
  injection Hret as <- <-.
  exists n, s1, bytes. split; [exact Hbyte|]. split; [exact Hread|].
  fold (pack_mask bytes).
  rewrite (_make_mask_bits _ _ (Z.to_nat n) 1) by reflexivity.
  rewrite <- map_rev, rev_involutive.
  replace (S (Z.to_nat n - 1)) with (Nat.max 1 (Z.to_nat n)) by lia.
  split; [reflexivity|]. rewrite length_map, length_seq. reflexivity.
Qed.

(** For a length byte [n >= 1], a [read_bitmask] that returns gives exactly
    [n] booleans. *)
Lemma read_bitmask_length s (mask : list bool) s' :
  read_bitmask s = (Ok mask, s') ->
  exists n s1, read_byte s = (Ok n, s1) /\
    ((1 <= n)%Z -> length mask = Z.to_nat n).
Proof.
  intros Hrun.
  destruct (read_bitmask_ok _ _ _ Hrun) as (n & s1 & bytes & Hb & _ & _ & Hlen).
  exists n, s1. split; [exact Hb|]. intros Hn. rewrite Hlen. lia.
Qed.

(** At a byte boundary, a length byte [n] in [1,8] followed by a data byte
    [d]: [read_bitmask] returns the [n] low bits of [d], bit [0] first, the
    order in which [shift] hands out the bits of a byte. *)
Lemma read_bitmask_one_byte s (l d : byte) :
  bit_shift s = 0 ->
  io_buf s !! io_pos s = Some l ->
  io_buf s !! S (io_pos s) = Some d ->
  (1 <= ord l <= 8)%Z ->
  exists s',
    read_bitmask s
    = (Ok (map (fun i => Z.testbit (ord d) (Z.of_nat i))
               (seq 0 (Z.to_nat (ord l)))), s') /\
    io_pos s' = io_pos s + 2.
Proof.
  intros Hbs Hl Hd Hrange.
  set (n := Z.to_nat (ord l)).
  assert (Hbyte : read_byte s = (Ok (ord l), with_pos s (S (io_pos s)))).
  { unfold read_byte, bind at 1, get_bit_shift at 1. rewrite Hbs. cbn [Nat.eqb].
    rewrite (bind_step _ _ _ _ _ (read_ord_some _ _ Hl)). reflexivity. }
  set (s1 := with_pos s (S (io_pos s))) in *.
  assert (Hbs1 : bit_shift s1 = 0) by exact Hbs.
  assert (Hread : exists s', read 0 n s1
                  = (Ok [Z.land (ord d) (Z.ones (Z.of_nat n))], s') /\
                  io_pos s' = S (S (io_pos s))).
  { destruct (Nat.eq_dec n 8) as [Hn8|Hn8].
    - rewrite Hn8. rewrite read_bits_8.
      assert (Hlen1 : io_pos s1 + (0 + 1) <= length_ s1)
        by (apply lookup_lt_Some in Hd; unfold length_, s1; cbn; lia).
      destruct (read_aligned_bytes (0 + 1) s1 Hbs1 ltac:(lia) Hlen1)
        as (lb & Hr & _).
      exists (mkReplayBuffer (io_buf s1) (io_pos s1 + (0 + 1)) 0 lb).
      split; [rewrite Hr|unfold s1; cbn; lia].
      unfold s1. cbn [io_pos io_buf with_pos Nat.add].
      rewrite (drop_S _ _ _ Hd). cbn [take map].
      change (Z.of_nat 8) with 8%Z.
      rewrite <- (land_ones_byte d) at 1. rewrite Z.shiftr_0_r. reflexivity.
    - assert (Hlook : io_buf s1 !! (io_pos s1 + 0) = Some d)
        by (cbn; rewrite Nat.add_0_r; exact Hd).
      rewrite (read_aligned_bits 0 n s1 d Hbs1 ltac:(lia) Hlook).
      eexists. split; [reflexivity|]. cbn. lia. }
  destruct Hread as (s' & Hread & Hpos).
  exists s'. split.
  - unfold read_bitmask.
    rewrite (bind_step _ _ _ _ _ Hbyte). fold n.
    rewrite (bind_step _ _ _ _ _ Hread). unfold ret. f_equal. f_equal.
    rewrite (_make_mask_bits _ _ n 1) by reflexivity.
    rewrite <- map_rev, rev_involutive.
    replace (S (n - 1)) with n by lia.
    apply map_ext_in. intros i Hi. apply in_seq in Hi.
    cbn [rev app foldl]. rewrite Z.shiftl_0_l, Z.lor_0_l.
    rewrite Z.land_spec, Z.testbit_ones_nonneg by lia.
    destruct (Z.ltb_spec (Z.of_nat i) (Z.of_nat n)); [|lia].
    apply andb_true_r.
  - lia.
Qed.

(** C4 on the code.  A length byte [0] gives one boolean, not none. *)
Lemma read_bitmask_zero_length :
  run read_bitmask [x00; x93]
  = (Ok [false], with_pos (init [x00; x93]) 1).
Proof. vm_compute. reflexivity. Qed.

(** The example of the specification: length byte [0x08] and data byte
    [0b10010011] give the eight bits of the data byte, bit [0] first. *)
Lemma read_bitmask_example :
  fst (run read_bitmask [x08; x93])
  = Ok [true; true; false; false; true; false; false; true] /\
  fst (run read_bitmask [x08; x93])
  = Ok (map (Z.testbit 0x93) [0; 1; 2; 3; 4; 5; 6; 7]%Z).
Proof. split; vm_compute; reflexivity. Qed.

(** ** [read_data_struct] *)

Create HintDb quiet.

Lemma quiet_unknown_only {A} (m : M A) : quiet m -> unknown_only m.
Proof. intros Hm s d s' Hrun. destruct (Hm _ _ _ Hrun). Qed.

Lemma quiet_ret {A} (a : A) : quiet (ret a).
Proof. intros s d s' [=]. Qed.

Lemma quiet_raise {A} (e : exn) :
  (forall d, e <> TypeError (UnknownDataStructure d)) -> quiet (@raise A e).
Proof. intros He s d s' [= Heq _]. exact (He d Heq). Qed.

Lemma quiet_bind {A B} (m : M A) (f : A -> M B) :
  quiet m -> (forall a, quiet (f a)) -> quiet (bind m f).
Proof.
  intros Hm Hf s d s' Hrun. unfold bind in Hrun.
  destruct (m s) as [[a|e] s1] eqn:H1.
  - exact (Hf a _ _ _ Hrun).
  - injection Hrun as -> ->. exact (Hm _ _ _ H1).
Qed.

Lemma unknown_only_bind {A B} (m : M A) (f : A -> M B) :
  unknown_only m -> (forall a, unknown_only (f a)) -> unknown_only (bind m f).
Proof.
  intros Hm Hf s d s' Hrun. unfold bind in Hrun.
  destruct (m s) as [[a|e] s1] eqn:H1.
  - exact (Hf a _ _ _ Hrun).
  - injection Hrun as -> ->. exact (Hm _ _ _ H1).
Qed.

Lemma quiet_except {A} (m : M A) : quiet (except_TypeError m EOFError).
Proof.
  intros s d s' Hrun. unfold except_TypeError in Hrun.
  destruct (m s) as [[a|[]] s1]; discriminate.
Qed.

Lemma quiet_get_bit_shift : quiet get_bit_shift.
Proof. intros s d s' [=]. Qed.

Lemma quiet_bytes_left : quiet bytes_left.
Proof. intros s d s' [=]. Qed.

Lemma quiet_io_seek position mode : quiet (io_seek position mode).
Proof. intros s d s' [=]. Qed.

Lemma quiet_io_tell : quiet io_tell.
Proof. intros s d s' [=]. Qed.

Lemma quiet_set_last_byte b : quiet (set_last_byte b).
Proof. intros s d s' [=]. Qed.

Lemma quiet_read_basic (n : nat) : quiet (read_basic n).
Proof. intros s d s' [=]. Qed.

Lemma quiet_shift (w : nat) : quiet (shift w).
Proof. apply quiet_except. Qed.

Lemma quiet_read (bytes bits : nat) : quiet (read bytes bits).
Proof. apply quiet_except. Qed.

#[local] Hint Resolve quiet_ret quiet_except quiet_get_bit_shift
  quiet_bytes_left quiet_io_seek quiet_io_tell quiet_set_last_byte
  quiet_read_basic quiet_shift quiet_read : quiet.

Ltac quiet_step :=
  lazymatch goal with
  | |- quiet (bind _ _) => apply quiet_bind; [|intros ?]
  | |- quiet (ret _) => apply quiet_ret
  | |- quiet (raise _) => apply quiet_raise; intros ?; discriminate
  | |- quiet (if ?c then _ else _) => destruct c
  | |- quiet (match ?x with _ => _ end) => destruct x
  | |- _ => solve [auto with quiet]
  end.

Lemma quiet_read_ord : quiet read_ord.
Proof. unfold read_ord. repeat quiet_step. Qed.

#[local] Hint Resolve quiet_read_ord : quiet.

Lemma quiet_seek position mode : quiet (seek position mode).
Proof. unfold seek. repeat quiet_step. Qed.

Lemma quiet_read_byte : quiet read_byte.
Proof. unfold read_byte. repeat quiet_step. Qed.

Lemma quiet_write_chars (bytes : list Z) : quiet (write_chars bytes).
Proof. induction bytes as [|b rest IH]; cbn [write_chars]; repeat quiet_step. Qed.

#[local] Hint Resolve quiet_seek quiet_read_byte quiet_write_chars : quiet.

Lemma quiet_read_chars (n : nat) : quiet (read_chars n).
Proof. unfold read_chars. repeat quiet_step. Qed.

Lemma quiet_struct_unpack e (size : nat) chars : quiet (struct_unpack e size chars).
Proof. unfold struct_unpack. repeat quiet_step. Qed.

#[local] Hint Resolve quiet_read_chars quiet_struct_unpack : quiet.

Lemma quiet_read_int e : quiet (read_int e).
Proof. unfold read_int. repeat quiet_step. Qed.

Lemma quiet_read_count : quiet read_count.
Proof. unfold read_count. repeat quiet_step. Qed.

Lemma quiet_variable_int_loop (fuel : nat) (byte shift value : Z) :
  quiet (variable_int_loop fuel byte shift value).
Proof.
  revert byte shift value.
  induction fuel as [|fuel IH]; intros byte shift value; cbn [variable_int_loop];
    repeat quiet_step.
Qed.

#[local] Hint Resolve quiet_read_int quiet_read_count
  quiet_variable_int_loop : quiet.

Lemma quiet_read_variable_int : quiet read_variable_int.
Proof. unfold read_variable_int. repeat quiet_step. Qed.

Lemma quiet_read_string (length : option nat) : quiet (read_string length).
Proof. unfold read_string. repeat quiet_step. Qed.

#[local] Hint Resolve quiet_read_variable_int quiet_read_string : quiet.

Lemma unknown_only_for_range {A} (n : nat) (m : M A) :
  unknown_only m -> unknown_only (for_range n m).
Proof.
  intros Hm. induction n as [|n IH]; cbn [for_range].
  - apply quiet_unknown_only, quiet_ret.
  - apply unknown_only_bind; [exact Hm|]. intros a.
    apply unknown_only_bind; [exact IH|]. intros rest.
    apply quiet_unknown_only, quiet_ret.
Qed.

Lemma unknown_only_for_pairs (n : nat) (entry : M (Z * value)) data :
  unknown_only entry -> unknown_only (for_pairs n entry data).
Proof.
  intros Hm. revert data. induction n as [|n IH]; intros data; cbn [for_pairs].
  - apply quiet_unknown_only, quiet_ret.
  - apply unknown_only_bind; [exact Hm|]. intros kv. apply IH.
Qed.

Lemma read_data_struct_fuel_S (fuel : nat) :
  read_data_struct_fuel (S fuel)
  = (datatype <- read_byte ;; read_data_struct_body fuel datatype).
Proof. reflexivity. Qed.

Lemma unknown_only_body (fuel : nat) (datatype : Z) :
  unknown_only (read_data_struct_fuel fuel) ->
  unknown_only (read_data_struct_body fuel datatype).
Proof.
  intros IH. unfold read_data_struct_body.
  destruct (Z.eqb_spec datatype 2) as [|N2];
    [apply quiet_unknown_only; repeat quiet_step|].
  destruct (Z.eqb_spec datatype 4) as [|N4].
  { apply unknown_only_bind; [apply quiet_unknown_only, quiet_seek|]. intros _.
    apply unknown_only_bind; [apply quiet_unknown_only, quiet_read_count|].
    intros n. apply unknown_only_bind; [apply unknown_only_for_range, IH|].
    intros l. apply quiet_unknown_only, quiet_ret. }
  destruct (Z.eqb_spec datatype 5) as [|N5].
  { apply unknown_only_bind; [apply quiet_unknown_only, quiet_read_count|].
    intros n. apply unknown_only_bind; [|intros ?; apply quiet_unknown_only, quiet_ret].
    apply unknown_only_for_pairs.
    apply unknown_only_bind; [apply quiet_unknown_only, quiet_read_count|].
    intros c. apply unknown_only_bind; [exact IH|].
    intros v. apply quiet_unknown_only, quiet_ret. }
  destruct (Z.eqb_spec datatype 6) as [|N6];
    [apply quiet_unknown_only; repeat quiet_step|].
  destruct (Z.eqb_spec datatype 7) as [|N7];
    [apply quiet_unknown_only; repeat quiet_step|].
  destruct (Z.eqb_spec datatype 9) as [|N9];
    [apply quiet_unknown_only; repeat quiet_step|].
  intros s d s' [= <- _]. unfold known_tag.
  repeat (apply orb_false_intro); apply Z.eqb_neq; assumption.
Qed.

Lemma unknown_only_read_data_struct_fuel (fuel : nat) :
  unknown_only (read_data_struct_fuel fuel).
Proof.
  induction fuel as [|fuel IH].
  - apply quiet_unknown_only. cbn. apply quiet_raise. intros d. discriminate.
  - rewrite read_data_struct_fuel_S.
    apply unknown_only_bind; [apply quiet_unknown_only, quiet_read_byte|].
    intros datatype. apply unknown_only_body, IH.
Qed.

(** For a scalar tag the body never raises the unknown-tag error. *)
Lemma quiet_body_scalar (fuel : nat) (datatype : Z) :
  known_tag datatype = true -> datatype <> 4%Z -> datatype <> 5%Z ->
  quiet (read_data_struct_body fuel datatype).
Proof.
  intros Hk N4 N5. unfold read_data_struct_body.
  destruct (Z.eqb_spec datatype 2) as [|N2]; [repeat quiet_step|].
  destruct (Z.eqb_spec datatype 4) as [|_]; [contradiction|].
  destruct (Z.eqb_spec datatype 5) as [|_]; [contradiction|].
  destruct (Z.eqb_spec datatype 6) as [|N6]; [repeat quiet_step|].
  destruct (Z.eqb_spec datatype 7) as [|N7]; [repeat quiet_step|].
  destruct (Z.eqb_spec datatype 9) as [|N9]; [repeat quiet_step|].
  unfold known_tag in Hk.
  repeat (apply orb_prop in Hk as [Hk|Hk]); apply Z.eqb_eq in Hk; contradiction.
Qed.

(** The value the body returns has the Python type of its tag. *)
Lemma body_variant (fuel : nat) (datatype : Z) s v s' :
  read_data_struct_body fuel datatype s = (Ok v, s') ->
  known_tag datatype = true /\ variant_matches datatype v.
Proof.
  unfold read_data_struct_body, known_tag. intros Hrun.
  destruct (Z.eqb_spec datatype 2) as [->|_].
  { apply bind_ok in Hrun as (? & ? & _ & Hrun).
    apply bind_ok in Hrun as (? & ? & _ & Hrun).
    injection Hrun as <- <-. cbn. auto. }
  destruct (Z.eqb_spec datatype 4) as [->|_].
  { apply bind_ok in Hrun as (? & ? & _ & Hrun).
    apply bind_ok in Hrun as (? & ? & _ & Hrun).
    apply bind_ok in Hrun as (? & ? & _ & Hrun).
    injection Hrun as <- <-. cbn. auto. }
  destruct (Z.eqb_spec datatype 5) as [->|_].
  { apply bind_ok in Hrun as (? & ? & _ & Hrun).
    apply bind_ok in Hrun as (? & ? & _ & Hrun).
    injection Hrun as <- <-. cbn. auto. }
  destruct (Z.eqb_spec datatype 6) as [->|_].
  { apply bind_ok in Hrun as (? & ? & _ & Hrun).
    injection Hrun as <- <-. cbn. auto. }
  destruct (Z.eqb_spec datatype 7) as [->|_].
  { apply bind_ok in Hrun as (? & ? & _ & Hrun).
    injection Hrun as <- <-. cbn. auto. }
  destruct (Z.eqb_spec datatype 9) as [->|_].
  { apply bind_ok in Hrun as (? & ? & _ & Hrun).
    injection Hrun as <- <-. cbn. auto. }
  discriminate.
Qed.

Lemma read_data_struct_unfold s (d : Z) s1 :
  read_byte s = (Ok d, s1) ->
  read_data_struct s = read_data_struct_body (length_ s - io_pos s) d s1.
Proof.
  intros Hb. unfold read_data_struct, bind at 1, bytes_left at 1.
  rewrite read_data_struct_fuel_S. apply bind_step. exact Hb.
Qed.

Lemma read_byte_aligned s (b : byte) :
  bit_shift s = 0 -> io_buf s !! io_pos s = Some b ->
  read_byte s = (Ok (ord b), with_pos s (S (io_pos s))).
Proof.
  intros Hbs Hb. unfold read_byte, bind at 1, get_bit_shift at 1.
  rewrite Hbs. cbn [Nat.eqb].
  rewrite (bind_step _ _ _ _ _ (read_ord_some _ _ Hb)). reflexivity.
Qed.

Lemma read_chars_aligned s (n : nat) :
  bit_shift s = 0 -> io_pos s + n <= length_ s ->
  read_chars n s
  = (Ok (take n (drop (io_pos s) (io_buf s))), with_pos s (io_pos s + n)).
Proof.
  intros Hbs Hlen. unfold read_chars, bind, get_bit_shift. rewrite Hbs.
  cbn [Nat.eqb]. unfold read_basic, length_ in *.
  rewrite length_take, length_drop. repeat f_equal. lia.
Qed.

(** Tag [0x06] at a byte boundary: the next byte as an integer. *)
Lemma read_data_struct_small_int s (t b : byte) :
  bit_shift s = 0 ->
  io_buf s !! io_pos s = Some t -> ord t = 0x06%Z ->
  io_buf s !! S (io_pos s) = Some b ->
  read_data_struct s = (Ok (PyInt (ord b)), with_pos s (io_pos s + 2)).
Proof.
  intros Hbs Ht Htag Hb.
  rewrite (read_data_struct_unfold s _ _ (read_byte_aligned s t Hbs Ht)).
  rewrite Htag. unfold read_data_struct_body. cbn [Z.eqb Pos.eqb].
  rewrite (bind_step _ _ _ _ _
             (read_byte_aligned (with_pos s (S (io_pos s))) b Hbs Hb)).
  unfold ret, with_pos. cbn. repeat f_equal. lia.
Qed.

(** Tag [0x02] at a byte boundary with the string present: the count byte,
    halved, then that many bytes. *)
Lemma read_data_struct_string s (t c : byte) :
  bit_shift s = 0 ->
  io_buf s !! io_pos s = Some t -> ord t = 0x02%Z ->
  io_buf s !! S (io_pos s) = Some c ->
  io_pos s + 2 + Z.to_nat (ord c / 2) <= length_ s ->
  read_data_struct s
  = (Ok (PyStr (take (Z.to_nat (ord c / 2)) (drop (io_pos s + 2) (io_buf s)))),
     with_pos s (io_pos s + 2 + Z.to_nat (ord c / 2))).
Proof.
  intros Hbs Ht Htag Hc Hlen.
  rewrite (read_data_struct_unfold s _ _ (read_byte_aligned s t Hbs Ht)).
  rewrite Htag. unfold read_data_struct_body. cbn [Z.eqb Pos.eqb].
  unfold read_count, read_string.
  rewrite (bind_step _ _ (with_pos s (S (io_pos s))) (ord c / 2)%Z
             (with_pos s (S (S (io_pos s))))).
  2: { rewrite (bind_step _ _ _ _ _
                  (read_byte_aligned (with_pos s (S (io_pos s))) c Hbs Hc)).
       reflexivity. }
  unfold ret at 1. unfold bind at 2.
  assert (Hlen' : io_pos (with_pos s (S (S (io_pos s)))) + Z.to_nat (ord c / 2)
                  <= length_ (with_pos s (S (S (io_pos s)))))
    by (unfold length_ in *; cbn; lia).
  rewrite (bind_step _ _ _ _ _
             (read_chars_aligned (with_pos s (S (S (io_pos s)))) _ Hbs Hlen')).
  unfold ret, with_pos. cbn.
  replace (io_pos s + 2) with (S (S (io_pos s))) by lia. reflexivity.
Qed.

(** C9 (as the code has it).  With first tag byte [d]: when [d] is outside
    the known set [read_data_struct] raises the unknown-tag error naming [d];
    whenever it raises the unknown-tag error the tag the error names is
    outside the known set, and it is [d] itself unless [d] is the list tag
    [0x04] or the map tag [0x05], whose elements are decoded by the same
    method; whenever it returns, [d] is in the known set and the value has
    the Python type of the tag table; and the scalar tags decode as the table
    says. *)
Theorem read_data_struct_tags (s : ReplayBuffer) (d : Z) s1 :
  read_byte s = (Ok d, s1) ->
  (known_tag d = false ->
   read_data_struct s = (Raise (TypeError (UnknownDataStructure d)), s1)) /\
  (forall d' s',
     read_data_struct s = (Raise (TypeError (UnknownDataStructure d')), s') ->
     known_tag d' = false /\ (d' = d \/ d = 0x04%Z \/ d = 0x05%Z)) /\
  (forall v s', read_data_struct s = (Ok v, s') ->
     known_tag d = true /\ variant_matches d v) /\
  (d = 0x02%Z ->
   read_data_struct s
   = (count <- read_count ;;
      str <- read_chars (Z.to_nat count) ;; ret (PyStr str)) s1) /\
  (d = 0x06%Z ->
   read_data_struct s = (b <- read_byte ;; ret (PyInt b)) s1) /\
  (d = 0x07%Z ->
   read_data_struct s = (i <- read_int LITTLE_ENDIAN ;; ret (PyInt i)) s1) /\
  (d = 0x09%Z ->
   read_data_struct s = (i <- read_variable_int ;; ret (PyInt i)) s1).
Proof.
  intros Hb. rewrite (read_data_struct_unfold s d s1 Hb).
  set (fuel := length_ s - io_pos s).
  split; [|split; [|split; [|split; [|split; [|split]]]]].
  - intros Hk. unfold known_tag in Hk.
    repeat (apply orb_false_elim in Hk as [Hk ?]).
    unfold read_data_struct_body.
    repeat match goal with H : (_ =? _)%Z = false |- _ => rewrite H; clear H end.
    reflexivity.
  - intros d' s' Hrun.
    split; [exact (unknown_only_body fuel d
                     (unknown_only_read_data_struct_fuel fuel) _ _ _ Hrun)|].
    destruct (Z.eq_dec d 4%Z) as [|N4]; [auto|].
    destruct (Z.eq_dec d 5%Z) as [|N5]; [auto|].
    left. destruct (known_tag d) eqn:Hk.
    + destruct (quiet_body_scalar fuel d Hk N4 N5 _ _ _ Hrun).
    + unfold known_tag in Hk.
      repeat (apply orb_false_elim in Hk as [Hk ?]).
      unfold read_data_struct_body in Hrun.
      repeat match goal with
             | H : (_ =? _)%Z = false |- _ => rewrite H in Hrun; clear H
             end.
      injection Hrun as -> _. reflexivity.
  - intros v s' Hrun. exact (body_variant _ _ _ _ _ Hrun).
  - intros ->. reflexivity.
  - intros ->. reflexivity.
  - intros ->. reflexivity.
  - intros ->. reflexivity.
Qed.

Lemma read_data_struct_tags_witness :
  run read_data_struct [x03; x2a]
    = (Raise (TypeError (UnknownDataStructure 3)), with_pos (init [x03; x2a]) 1) /\
  run read_data_struct [x06; x2a] = (Ok (PyInt 42), with_pos (init [x06; x2a]) 2).
Proof.
  assert (H3 : read_byte (init [x03; x2a])
               = (Ok 3%Z, with_pos (init [x03; x2a]) 1)) by reflexivity.
  assert (H6 : read_byte (init [x06; x2a])
               = (Ok 6%Z, with_pos (init [x06; x2a]) 1)) by reflexivity.
  destruct (read_data_struct_tags _ _ _ H3) as (Hunknown & _).
  destruct (read_data_struct_tags _ _ _ H6) as (_ & _ & _ & _ & Hint & _).
  split; [apply Hunknown; reflexivity|].
  unfold run. rewrite (Hint eq_refl). reflexivity.
Defined.

(** The examples of the specification: tag [0x06] then [0x2A] is the
    integer 42; tag [0x02], count byte [0x08] and four characters is the
    string of these four characters. *)
Lemma read_data_struct_examples :
  run read_data_struct [x06; x2a] = (Ok (PyInt 42), with_pos (init [x06; x2a]) 2) /\
  run read_data_struct [x02; x08; x61; x62; x63; x64]
    = (Ok (PyStr [x61; x62; x63; x64]),
       with_pos (init [x02; x08; x61; x62; x63; x64]) 6).
Proof. split; vm_compute; reflexivity. Qed.

(** C9 as stated fails: with the known first tag [0x04] and enough input,
    the unknown tag [0x03] of a list element makes [read_data_struct] raise
    the unknown-tag error. *)
Lemma read_data_struct_nested_unknown_tag :
  let s := init [x04; x01; x00; x02; x03; x06; x2a] in
  fst (read_byte s) = Ok 4%Z /\
  known_tag 4 = true /\
  read_data_struct s
  = (Raise (TypeError (UnknownDataStructure 3)), with_pos s 5).
Proof. cbv zeta. repeat split; vm_compute; reflexivity. Qed.

(** ** [read_variable_int] *)

Lemma ord_byte_of_Z (z : Z) : (0 <= z < 256)%Z -> ord (byte_of_Z z) = z.
Proof.
  intros Hz. unfold byte_of_Z, ord.
  destruct (Byte.of_N (Z.to_N z)) as [b|] eqn:Hb.
  - apply Byte.to_of_N in Hb. rewrite Hb. lia.
  - apply Byte.of_N_None_iff in Hb. lia.
Qed.

(** The continuation flag of a byte value is its bit 7. *)
Lemma flag_testbit (y : Z) :
  negb (Z.land y 0x80 =? 0)%Z = Z.testbit y 7.
Proof.
  change 7%Z with (Z.of_nat 7). rewrite <- land_pow2_testbit.
  change (2 ^ Z.of_nat 7)%Z with 128%Z.
  assert (0 <= Z.land y 128)%Z by (apply Z.land_nonneg; right; lia).
  destruct (Z.eqb_spec (Z.land y 128) 0), (Z.ltb_spec 0 (Z.land y 128));
    cbn; try reflexivity; lia.
Qed.

Lemma group_last (x : Z) :
  (0 <= x < 128)%Z ->
  negb (Z.land x 0x80 =? 0)%Z = false /\ Z.land x 0x7F = x.
Proof.
  intros Hx. split.
  - rewrite flag_testbit. apply Z.testbit_false; [lia|].
    change (2 ^ 7)%Z with 128%Z. rewrite Z.div_small by lia. reflexivity.
  - change 127%Z with (Z.ones 7). rewrite Z.land_ones by lia.
    apply Z.mod_small. exact Hx.
Qed.

Lemma group_more (x : Z) :
  (0 <= x < 128)%Z ->
  negb (Z.land (x + 128) 0x80 =? 0)%Z = true /\ Z.land (x + 128) 0x7F = x.
Proof.
  intros Hx. split.
  - rewrite flag_testbit. apply Z.testbit_true; [lia|].
    change (2 ^ 7)%Z with 128%Z.
    replace (x + 128)%Z with (x + 1 * 128)%Z by lia.
    rewrite Z.div_add by lia. rewrite Z.div_small by lia. reflexivity.
  - change 127%Z with (Z.ones 7). rewrite Z.land_ones by lia.
    change (2 ^ 7)%Z with 128%Z.
    replace (x + 128)%Z with (x + 1 * 128)%Z by lia.
    rewrite Z.mod_add by lia. apply Z.mod_small. exact Hx.
Qed.

(** OR-ing a group in above the bits accumulated so far adds it. *)
Lemma lor_group (g acc n : Z) :
  (0 <= n)%Z -> (0 <= acc < 2 ^ n)%Z ->
  Z.lor (Z.shiftl g n) acc = (acc + g * 2 ^ n)%Z.
Proof.
  intros Hn Hacc.
  assert (Hdisj : Z.land (Z.shiftl g n) acc = 0%Z).
  { apply Z.bits_inj'. intros i Hi. rewrite Z.land_spec, Z.bits_0.
    destruct (Z.lt_ge_cases i n) as [Hlt|Hge].
    - rewrite Z.shiftl_spec_low by lia. reflexivity.
    - replace acc with (acc mod 2 ^ n)%Z by (apply Z.mod_small; lia).
      rewrite Z.mod_pow2_bits_high by lia. apply andb_false_r. }
  pose proof (Z.add_lor_land (Z.shiftl g n) acc) as Hadd.
  rewrite Hdisj, Z.shiftl_mul_pow2 in Hadd by lia.
  rewrite Z.shiftl_mul_pow2 by lia. lia.
Qed.

Lemma variable_int_loop_unfold (fuel : nat) (byte shift value : Z) :
  variable_int_loop fuel byte shift value =
    if negb (Z.land byte 0x80 =? 0)%Z then
      match fuel with
      | O => raise OutOfFuel
      | S fuel =>
          byte <- read_byte ;;
          variable_int_loop fuel byte (shift + 1)%Z
            (Z.lor (Z.shiftl (Z.land byte 0x7F) (shift * 7)) value)
      end
    else ret value.
Proof. destruct fuel; reflexivity. Qed.

Lemma spec_encode_groups_length (fuel : nat) (v : Z) :
  length (spec_encode_groups fuel v) <= fuel.
Proof.
  revert v. induction fuel as [|fuel IH]; intros v; cbn [spec_encode_groups].
  - cbn. lia.
  - destruct (v <? 128)%Z; cbn [length]; [lia|]. specialize (IH (v / 128)%Z). lia.
Qed.

(** The loop, entered after a byte with the continuation flag, decodes the
    groups that follow and stops after the first byte without the flag. *)
Lemma variable_int_loop_decodes (fuel : nat) :
  forall (v : Z) (dfuel : nat) (cur k value : Z) (pre post : list byte) lb,
    fuel <> 0 ->
    (0 <= v < 2 ^ Z.of_nat fuel)%Z ->
    negb (Z.land cur 0x80 =? 0)%Z = true ->
    (0 <= k)%Z -> (0 <= value < 2 ^ (k * 7))%Z ->
    length (spec_encode_groups fuel v) <= dfuel ->
    variable_int_loop dfuel cur k value
      (mkReplayBuffer (pre ++ spec_encode_groups fuel v ++ post) (length pre) 0 lb)
    = (Ok (value + v * 2 ^ (k * 7))%Z,
       mkReplayBuffer (pre ++ spec_encode_groups fuel v ++ post)
         (length pre + length (spec_encode_groups fuel v)) 0 lb).
Proof.
  induction fuel as [|fuel IH];
    intros v dfuel cur k value pre post lb Hne Hv Hflag Hk Hvalue Hfuel.
  - contradiction.
  - rewrite variable_int_loop_unfold, Hflag.
    cbn [spec_encode_groups] in *.
    destruct (Z.ltb_spec v 128) as [Hsmall|Hbig].
    + (* the last group *)
      destruct dfuel as [|dfuel]; [cbn in Hfuel; lia|].
      set (s := mkReplayBuffer (pre ++ [byte_of_Z v] ++ post) (length pre) 0 lb).
      assert (Hb : io_buf s !! io_pos s = Some (byte_of_Z v))
        by (cbn; rewrite lookup_app_r, Nat.sub_diag by lia; reflexivity).
      rewrite (bind_step _ _ _ _ _ (read_byte_aligned s _ eq_refl Hb)).
      rewrite ord_byte_of_Z by lia.
      destruct (group_last v ltac:(lia)) as [Hnoflag Hdata].
      rewrite variable_int_loop_unfold, Hnoflag, Hdata.
      rewrite lor_group by lia.
      unfold ret, s, with_pos. cbn. repeat f_equal. lia.
    + (* a group followed by more *)
      destruct dfuel as [|dfuel]; [cbn in Hfuel; lia|].
      set (b := byte_of_Z (v mod 128 + 128)).
      set (rest := spec_encode_groups fuel (v / 128)).
      set (s := mkReplayBuffer (pre ++ (b :: rest) ++ post) (length pre) 0 lb).
      assert (Hmod : (0 <= v mod 128 < 128)%Z) by (apply Z.mod_pos_bound; lia).
      assert (Hb : io_buf s !! io_pos s = Some b)
        by (cbn; rewrite lookup_app_r, Nat.sub_diag by lia; reflexivity).
      rewrite (bind_step _ _ _ _ _ (read_byte_aligned s _ eq_refl Hb)).
      unfold b at 1 2 3. rewrite ord_byte_of_Z by lia.
      destruct (group_more (v mod 128) Hmod) as [Hmore Hdata].
      rewrite Hdata, lor_group by lia.
      assert (Hfuel_pos : fuel <> 0).
      { intros ->. change (2 ^ Z.of_nat 1)%Z with 2%Z in Hv. lia. }
      assert (Hdiv : (0 <= v / 128 < 2 ^ Z.of_nat fuel)%Z).
      { split; [apply Z.div_pos; lia|].
        apply Z.div_lt_upper_bound; [lia|].
        replace (Z.of_nat (S fuel)) with (Z.of_nat fuel + 1)%Z in Hv by lia.
        rewrite Z.pow_add_r in Hv by lia.
        assert (0 < 2 ^ Z.of_nat fuel)%Z by (apply Z.pow_pos_nonneg; lia).
        lia. }
      assert (Hnext : (0 <= value + v mod 128 * 2 ^ (k * 7)
                       < 2 ^ ((k + 1) * 7))%Z).
      { replace ((k + 1) * 7)%Z with (k * 7 + 7)%Z by lia.
        rewrite Z.pow_add_r by lia. change (2 ^ 7)%Z with 128%Z.
        assert (0 < 2 ^ (k * 7))%Z by (apply Z.pow_pos_nonneg; lia). nia. }
      unfold s, with_pos. cbn [io_buf io_pos bit_shift last_byte].
      replace (pre ++ (b :: rest) ++ post) with ((pre ++ [b]) ++ rest ++ post)
        by (rewrite <- app_assoc; reflexivity).
      replace (S (length pre)) with (length (pre ++ [b]))
        by (rewrite length_app; cbn; lia).
      unfold rest.
      rewrite (IH (v / 128)%Z dfuel _ (k + 1)%Z _ (pre ++ [b]) post lb
                 Hfuel_pos Hdiv Hmore ltac:(lia) Hnext
                 ltac:(cbn [length] in Hfuel; fold rest in Hfuel |- *; lia)).
      f_equal.
      * f_equal. replace ((k + 1) * 7)%Z with (k * 7 + 7)%Z by lia.
        rewrite Z.pow_add_r by lia. change (2 ^ 7)%Z with 128%Z.
        pose proof (Z.div_mod v 128 ltac:(lia)). nia.
      * f_equal; [rewrite <- app_assoc; reflexivity|].
        rewrite length_app. cbn. lia.
Qed.

(** The value that is encoded carries the sign in bit 0 and the magnitude
    above it, as the last line of [read_variable_int] reads them. *)
Lemma sign_magnitude (n : Z) :
  let value := (2 * Z.abs n + (if (n <? 0)%Z then 1 else 0))%Z in
  ((-1) ^ Z.land value 0x1 * Z.shiftr value 1)%Z = n.
Proof.
  cbv zeta. change 1%Z with (Z.ones 1) at 2.
  rewrite Z.land_ones, Z.shiftr_div_pow2 by lia. change (2 ^ 1)%Z with 2%Z.
  destruct (Z.ltb_spec n 0) as [Hneg|Hpos].
  - replace (2 * Z.abs n + 1)%Z with (1 + Z.abs n * 2)%Z by lia.
    rewrite Z.mod_add, Z.div_add by lia.
    change (1 mod 2)%Z with 1%Z. change (1 / 2)%Z with 0%Z.
    change ((-1) ^ 1)%Z with (-1)%Z. lia.
  - replace (2 * Z.abs n + 0)%Z with (0 + Z.abs n * 2)%Z by lia.
    rewrite Z.mod_add, Z.div_add by lia.
    change (0 mod 2)%Z with 0%Z. change (0 / 2)%Z with 0%Z.
    change ((-1) ^ 0)%Z with 1%Z. lia.
Qed.

Lemma spec_encode_variable_int_nonempty (n : Z) : spec_encode_variable_int n <> [].
Proof.
  unfold spec_encode_variable_int. cbn [spec_encode_groups].
  destruct (_ <? 128)%Z; discriminate.
Qed.

(** Decoding the encoding of [n] gives [n] and stops right after it. *)
Lemma read_variable_int_decodes (n : Z) (pre post : list byte)
    (lb : option byte) :
  let s := mkReplayBuffer (pre ++ spec_encode_variable_int n ++ post)
                          (length pre) 0 lb in
  read_variable_int s
  = (Ok n, with_pos s (length pre + length (spec_encode_variable_int n))).
Proof.
  cbv zeta. unfold spec_encode_variable_int.
  pose proof (sign_magnitude n) as Hsign. cbv zeta in Hsign.
  set (value := (2 * Z.abs n + (if (n <? 0)%Z then 1 else 0))%Z) in *.
  assert (Hvalue : (0 <= value)%Z)
    by (unfold value; destruct (n <? 0)%Z; lia).
  set (f := Z.to_nat (Z.log2 value)).
  cbn [spec_encode_groups]. unfold read_variable_int.
  destruct (Z.ltb_spec value 128) as [Hsmall|Hbig].
  - set (s := mkReplayBuffer (pre ++ [byte_of_Z value] ++ post) (length pre) 0 lb).
    assert (Hb : io_buf s !! io_pos s = Some (byte_of_Z value))
      by (cbn; rewrite lookup_app_r, Nat.sub_diag by lia; reflexivity).
    rewrite (bind_step _ _ _ _ _ (read_byte_aligned s _ eq_refl Hb)).
    rewrite ord_byte_of_Z by lia.
    unfold bind at 1, bytes_left at 1.
    destruct (group_last value ltac:(lia)) as [Hnoflag Hdata].
    rewrite variable_int_loop_unfold, Hnoflag, Hdata.
    unfold bind, ret. rewrite Hsign. unfold s, with_pos. cbn.
    repeat f_equal. lia.
  - set (b := byte_of_Z (value mod 128 + 128)).
    set (rest := spec_encode_groups f (value / 128)).
    set (s := mkReplayBuffer (pre ++ (b :: rest) ++ post) (length pre) 0 lb).
    assert (Hmod : (0 <= value mod 128 < 128)%Z) by (apply Z.mod_pos_bound; lia).
    assert (Hb : io_buf s !! io_pos s = Some b)
      by (cbn; rewrite lookup_app_r, Nat.sub_diag by lia; reflexivity).
    rewrite (bind_step _ _ _ _ _ (read_byte_aligned s _ eq_refl Hb)).
    unfold b at 1 2 3. rewrite ord_byte_of_Z by lia.
    unfold bind at 1, bytes_left at 1.
    destruct (group_more (value mod 128) Hmod) as [Hmore Hdata].
    rewrite Hdata.
    assert (Hlog : (7 <= Z.log2 value)%Z)
      by (apply (Z.log2_le_pow2 value 7); lia).
    assert (Hf : f <> 0) by (unfold f; lia).
    assert (Hdiv : (0 <= value / 128 < 2 ^ Z.of_nat f)%Z).
    { split; [apply Z.div_pos; lia|].
      apply Z.div_lt_upper_bound; [lia|].
      destruct (Z.log2_spec value ltac:(lia)) as [_ Hup].
      unfold f. rewrite Z2Nat.id by lia.
      replace (Z.succ (Z.log2 value)) with (Z.log2 value + 1)%Z in Hup by lia.
      rewrite Z.pow_add_r in Hup by lia.
      assert (0 < 2 ^ Z.log2 value)%Z by (apply Z.pow_pos_nonneg; lia). lia. }
    unfold s, with_pos. cbn [io_buf io_pos bit_shift last_byte length_].
    replace (pre ++ (b :: rest) ++ post) with ((pre ++ [b]) ++ rest ++ post)
      by (rewrite <- app_assoc; reflexivity).
    replace (S (length pre)) with (length (pre ++ [b]))
      by (rewrite length_app; cbn; lia).
    unfold rest.
    assert (Hrange : (0 <= value mod 128 < 2 ^ (1 * 7))%Z)
      by (change (2 ^ (1 * 7))%Z with 128%Z; lia).
    erewrite bind_step
      by (apply (variable_int_loop_decodes f (value / 128)%Z _
                   (value mod 128 + 128)%Z 1%Z (value mod 128)%Z
                   (pre ++ [b]) post lb Hf Hdiv Hmore ltac:(lia) Hrange);
          unfold length_; cbn [io_buf]; rewrite !length_app; lia).
    unfold ret.
    replace (value mod 128 + value / 128 * 2 ^ (1 * 7))%Z with value
      by (change (2 ^ (1 * 7))%Z with 128%Z;
          pose proof (Z.div_mod value 128 ltac:(lia)); lia).
    rewrite Hsign. f_equal. f_equal. rewrite length_app. cbn. lia.
Qed.

(** The loop stops at the first byte without the continuation flag. *)
Lemma variable_int_loop_stops (fuel : nat) :
  forall (cur shift value : Z) s v s',
    bit_shift s = 0 ->
    variable_int_loop fuel cur shift value s = (Ok v, s') ->
    bit_shift s' = 0 /\ io_buf s' = io_buf s /\
    (negb (Z.land cur 0x80 =? 0)%Z = false /\ io_pos s' = io_pos s \/
     negb (Z.land cur 0x80 =? 0)%Z = true /\ io_pos s < io_pos s' /\
     (forall i b, io_pos s <= i -> S i < io_pos s' ->
        io_buf s !! i = Some b -> continuation_flag b = true) /\
     (exists b, io_buf s !! (io_pos s' - 1) = Some b /\
                continuation_flag b = false)).
Proof.
  induction fuel as [|fuel IH]; intros cur shift value s v s' Hbs Hrun;
    rewrite variable_int_loop_unfold in Hrun;
    destruct (negb (Z.land cur 128 =? 0)%Z) eqn:Hflag;
    try discriminate;
    try (injection Hrun as <- <-; split; [exact Hbs|]; split; [reflexivity|];
         left; auto).
  apply bind_ok in Hrun as (b & s1 & Hb & Hrun).
  destruct (read_byte_ok _ _ _ Hb) as (_ & _ & _ & _ & _ & Haligned & _).
  destruct (Haligned Hbs) as (-> & c & Hc & ->).
  apply IH in Hrun; [|exact Hbs]. cbn [io_buf io_pos bit_shift with_pos] in Hrun.
  destruct Hrun as (Hbs' & Hbuf' & Hcase).
  split; [exact Hbs'|]. split; [exact Hbuf'|]. right. split; [reflexivity|].
  rewrite flag_testbit in Hcase.
  destruct Hcase as [[Hlast Hpos] | (Hmore & Hpos & Hall & Hend)].
  - split; [lia|]. split.
    + intros i b' Hi Hlt. lia.
    + exists c. rewrite Hpos. replace (S (io_pos s) - 1) with (io_pos s) by lia.
      split; [exact Hc | exact Hlast].
  - split; [lia|]. split; [|exact Hend].
    intros i b' Hi Hlt Hlook.
    destruct (Nat.eq_dec i (io_pos s)) as [->|Hne].
    + rewrite Hc in Hlook. injection Hlook as <-. exact Hmore.
    + apply (Hall i b'); [lia | exact Hlt | exact Hlook].
Qed.

(** At a byte boundary, [read_variable_int] consumes bytes with the
    continuation flag and, last, one byte without it. *)
Lemma read_variable_int_stops s (v : Z) s' :
  bit_shift s = 0 ->
  read_variable_int s = (Ok v, s') ->
  io_pos s < io_pos s' /\
  (forall i b, io_pos s <= i -> S i < io_pos s' ->
     io_buf s !! i = Some b -> continuation_flag b = true) /\
  (exists b, io_buf s !! (io_pos s' - 1) = Some b /\
             continuation_flag b = false).
Proof.
  intros Hbs Hrun. unfold read_variable_int in Hrun.
  apply bind_ok in Hrun as (b & s1 & Hb & Hrun).
  destruct (read_byte_ok _ _ _ Hb) as (_ & _ & _ & _ & _ & Haligned & _).
  destruct (Haligned Hbs) as (-> & c & Hc & ->).
  unfold bind at 1, bytes_left at 1 in Hrun.
  apply bind_ok in Hrun as (value & s2 & Hloop & Hret).
  injection Hret as _ <-.
  apply variable_int_loop_stops in Hloop; [|exact Hbs].
  cbn [io_buf io_pos bit_shift with_pos] in Hloop.
  destruct Hloop as (_ & _ & Hcase). rewrite flag_testbit in Hcase.
  destruct Hcase as [[Hlast Hpos] | (Hmore & Hpos & Hall & Hend)].
  - split; [lia|]. split.
    + intros i b' Hi Hlt. lia.
    + exists c. rewrite Hpos. replace (S (io_pos s) - 1) with (io_pos s) by lia.
      split; [exact Hc | exact Hlast].
  - split; [lia|]. split; [|exact Hend].
    intros i b' Hi Hlt Hlook.
    destruct (Nat.eq_dec i (io_pos s)) as [->|Hne].
    + rewrite Hc in Hlook. injection Hlook as <-. exact Hmore.
    + apply (Hall i b'); [lia | exact Hlt | exact Hlook].
Qed.

(** C8.  For every integer [n], [read_variable_int] at a byte boundary in
    front of the encoding of [n] returns [n] and stops right after the
    encoding, whatever follows it: base-128 groups, least significant group
    first, bit 7 of a byte as continuation flag, bit 0 of the reassembled
    value as sign and the bits above it as magnitude.  On any input, a decode
    at a byte boundary ends with the first byte whose continuation flag is
    clear. *)
Theorem read_variable_int_round_trip (n : Z) (pre post : list byte)
    (lb : option byte) :
  let s := mkReplayBuffer (pre ++ spec_encode_variable_int n ++ post)
                          (length pre) 0 lb in
  read_variable_int s
  = (Ok n, with_pos s (length pre + length (spec_encode_variable_int n))) /\
  (forall s0 v s', bit_shift s0 = 0 -> read_variable_int s0 = (Ok v, s') ->
     io_pos s0 < io_pos s' /\
     (forall i b, io_pos s0 <= i -> S i < io_pos s' ->
        io_buf s0 !! i = Some b -> continuation_flag b = true) /\
     (exists b, io_buf s0 !! (io_pos s' - 1) = Some b /\
                continuation_flag b = false)).
Proof.
  cbv zeta. split; [apply (read_variable_int_decodes n pre post lb)|].
  intros s0 v s' Hbs Hrun. exact (read_variable_int_stops s0 v s' Hbs Hrun).
Qed.

Lemma read_variable_int_round_trip_witness :
  let s := init (spec_encode_variable_int (-1000000) ++ [xff]) in
  read_variable_int s = (Ok (-1000000)%Z, with_pos s 3) /\
  (exists b, io_buf s !! 2 = Some b /\ continuation_flag b = false).
Proof.
  cbv zeta.
  pose proof (read_variable_int_round_trip (-1000000) [] [xff] None) as H.
  cbv zeta in H. destruct H as [Hrt Hstop].
  split; [exact Hrt|].
  destruct (Hstop (init (spec_encode_variable_int (-1000000) ++ [xff])) _ _
              eq_refl Hrt) as (_ & _ & Hend).
  exact Hend.
Defined.

(** The encodings of [0], [1] and [-1], and what they decode to. *)
Lemma read_variable_int_examples :
  spec_encode_variable_int 0 = [x00] /\
  spec_encode_variable_int 1 = [x02] /\
  spec_encode_variable_int (-1) = [x03] /\
  spec_encode_variable_int 1000000 = [x80; x89; x7a] /\
  fst (run read_variable_int (spec_encode_variable_int 0)) = Ok 0%Z /\
  fst (run read_variable_int (spec_encode_variable_int 1)) = Ok 1%Z /\
  fst (run read_variable_int (spec_encode_variable_int (-1))) = Ok (-1)%Z /\
  run read_variable_int [x02; xff] = (Ok 1%Z, with_pos (init [x02; xff]) 1).
Proof. repeat split; vm_compute; reflexivity. Qed.

(** ** The fuel of the model is never exhausted *)

Create HintDb fuel.

Lemma fueled_ret {A} (a : A) : fueled (ret a).
Proof. intros s s' [=]. Qed.

Lemma fueled_raise {A} (e : exn) : e <> OutOfFuel -> fueled (@raise A e).
Proof. intros He s s' [= Heq _]. exact (He Heq). Qed.

Lemma fueled_bind {A B} (m : M A) (f : A -> M B) :
  fueled m -> (forall a, fueled (f a)) -> fueled (bind m f).
Proof.
  intros Hm Hf s s' Hrun. unfold bind in Hrun.
  destruct (m s) as [[a|e] s1] eqn:H1.
  - exact (Hf a _ _ Hrun).
  - injection Hrun as -> ->. exact (Hm _ _ H1).
Qed.

Lemma fueled_except {A} (m : M A) :
  fueled m -> fueled (except_TypeError m EOFError).
Proof.
  intros Hm s s' Hrun. unfold except_TypeError in Hrun.
  destruct (m s) as [[a|[]] s1] eqn:H1; try discriminate.
  injection Hrun as ->. exact (Hm _ _ H1).
Qed.

Lemma fueled_get_bit_shift : fueled get_bit_shift.
Proof. intros s s' [=]. Qed.

Lemma fueled_get_last_byte : fueled get_last_byte.
Proof. intros s s' [=]. Qed.

Lemma fueled_set_bit_shift n : fueled (set_bit_shift n).
Proof. intros s s' [=]. Qed.

Lemma fueled_set_last_byte b : fueled (set_last_byte b).
Proof. intros s s' [=]. Qed.

Lemma fueled_bytes_left : fueled bytes_left.
Proof. intros s s' [=]. Qed.

Lemma fueled_io_seek position mode : fueled (io_seek position mode).
Proof. intros s s' [=]. Qed.

Lemma fueled_io_tell : fueled io_tell.
Proof. intros s s' [=]. Qed.

Lemma fueled_read_basic (n : nat) : fueled (read_basic n).
Proof. intros s s' [=]. Qed.

#[local] Hint Resolve fueled_ret fueled_get_bit_shift fueled_get_last_byte
  fueled_set_bit_shift fueled_set_last_byte fueled_bytes_left fueled_io_seek
  fueled_io_tell fueled_read_basic : fuel.

Ltac fueled_step :=
  lazymatch goal with
  | |- fueled (bind _ _) => apply fueled_bind; [|intros ?]
  | |- fueled (ret _) => apply fueled_ret
  | |- fueled (raise _) => apply fueled_raise; discriminate
  | |- fueled (except_TypeError _ _) => apply fueled_except
  | |- fueled (if ?c then _ else _) => destruct c
  | |- fueled (match ?x with _ => _ end) => destruct x
  | |- fueled (let '(_, _) := ?x in _) => destruct x
  | |- _ => solve [auto with fuel]
  end.

Lemma fueled_read_ord : fueled read_ord.
Proof. unfold read_ord. repeat fueled_step. Qed.

Lemma fueled_read_state old new : fueled (read_state old new).
Proof. unfold read_state. repeat fueled_step. Qed.

#[local] Hint Resolve fueled_read_ord fueled_read_state : fuel.

Lemma fueled_shift (w : nat) : fueled (shift w).
Proof. unfold shift. repeat fueled_step. Qed.

Lemma fueled_read_base (n : nat) : fueled (read_base n).
Proof. induction n as [|n IH]; cbn [read_base]; repeat fueled_step. Qed.

Lemma fueled_read_loop (fuel : nat) e old (bit_count : nat) first next raw :
  bit_count <= fuel -> fueled (read_loop fuel e old bit_count first next raw).
Proof.
  intros Hfuel s s' Hrun.
  apply (read_loop_fuel fuel e old bit_count first next raw s Hfuel).
  rewrite Hrun. reflexivity.
Qed.

#[local] Hint Resolve fueled_shift fueled_read_base : fuel.

Lemma fueled_read (bytes bits : nat) : fueled (read bytes bits).
Proof.
  unfold read. apply fueled_except.
  destruct (Nat.eqb _ 0); [apply fueled_ret|].
  apply fueled_bind; [auto with fuel|]. intros bs.
  destruct (Nat.leb _ _); [repeat fueled_step|].
  destruct (Nat.eqb bs 0); [repeat fueled_step|].
  unfold read_general. cbv zeta.
  apply fueled_bind; [auto with fuel|]. intros e.
  apply fueled_bind; [auto with fuel|]. intros prev.
  apply fueled_bind; [auto with fuel|]. intros next.
  destruct prev as [prev|]; [|apply fueled_raise; discriminate].
  apply fueled_bind; [apply fueled_read_loop; lia|]. intros [raw next'].
  repeat fueled_step.
Qed.

#[local] Hint Resolve fueled_read : fuel.

Lemma fueled_seek position mode : fueled (seek position mode).
Proof. unfold seek. repeat fueled_step. Qed.

Lemma fueled_read_byte : fueled read_byte.
Proof. unfold read_byte. repeat fueled_step. Qed.

Lemma fueled_write_chars (bytes : list Z) : fueled (write_chars bytes).
Proof. induction bytes as [|b rest IH]; cbn [write_chars]; repeat fueled_step. Qed.

#[local] Hint Resolve fueled_seek fueled_read_byte fueled_write_chars : fuel.

Lemma fueled_read_chars (n : nat) : fueled (read_chars n).
Proof. unfold read_chars. repeat fueled_step. Qed.

Lemma fueled_struct_unpack e (size : nat) chars :
  fueled (struct_unpack e size chars).
Proof. unfold struct_unpack. repeat fueled_step. Qed.

#[local] Hint Resolve fueled_read_chars fueled_struct_unpack : fuel.

Lemma fueled_read_int e : fueled (read_int e).
Proof. unfold read_int. repeat fueled_step. Qed.

Lemma fueled_read_count : fueled read_count.
Proof. unfold read_count. repeat fueled_step. Qed.

Lemma fueled_read_string (length : option nat) : fueled (read_string length).
Proof. unfold read_string. repeat fueled_step. Qed.

#[local] Hint Resolve fueled_read_int fueled_read_count fueled_read_string : fuel.

(** The loop of [read_variable_int] reads a byte in every round, so one unit
    of fuel more than the bytes left is enough. *)
Lemma variable_int_loop_fueled (fuel : nat) :
  forall (cur shift value : Z) s s',
    length_ s - io_pos s < fuel ->
    variable_int_loop fuel cur shift value s <> (Raise OutOfFuel, s').
Proof.
  induction fuel as [|fuel IH]; intros cur shift value s s' Hfuel; [lia|].
  rewrite variable_int_loop_unfold.
  destruct (negb (Z.land cur 128 =? 0)%Z); [|discriminate].
  unfold bind. destruct (read_byte s) as [[b|e] s1] eqn:Hb.
  - destruct (read_byte_ok _ _ _ Hb) as (_ & Hbuf & _ & Hpos & Hle & _).
    apply IH. unfold length_ in *. rewrite Hbuf. lia.
  - intros [= -> _]. exact (fueled_read_byte _ _ Hb).
Qed.

Lemma fueled_read_variable_int : fueled read_variable_int.
Proof.
  unfold read_variable_int.
  apply fueled_bind; [apply fueled_read_byte|]. intros b.
  intros s s' Hrun. unfold bind at 1, bytes_left at 1 in Hrun.
  unfold bind in Hrun.
  destruct (variable_int_loop _ _ _ _ s) as [[v|e] s1] eqn:Hloop;
    [discriminate|].
  injection Hrun as -> ->.
  refine (variable_int_loop_fueled _ _ _ _ _ _ _ Hloop). lia.
Qed.

#[local] Hint Resolve fueled_read_variable_int : fuel.

Lemma advances_ret {A} (a : A) : advances (ret a).
Proof. intros s a' s' [= <- <-]. auto. Qed.

Lemma advances_raise {A} (e : exn) : advances (@raise A e).
Proof. intros s a s' [=]. Qed.

Lemma advances_bind {A B} (m : M A) (f : A -> M B) :
  advances m -> (forall a, advances (f a)) -> advances (bind m f).
Proof.
  intros Hm Hf s b s' Hrun. apply bind_ok in Hrun as (a & s1 & H1 & H2).
  destruct (Hm _ _ _ H1) as [Hb1 Hp1]. destruct (Hf a _ _ _ H2) as [Hb2 Hp2].
  split; [congruence | lia].
Qed.

Lemma advances_read_byte : advances read_byte.
Proof.
  intros s v s' Hrun.
  destruct (read_byte_ok _ _ _ Hrun) as (_ & Hbuf & _ & Hpos & _). split; [auto | lia].
Qed.

Lemma advances_read_chars (n : nat) : advances (read_chars n).
Proof.
  intros s cs s' Hrun.
  apply read_chars_ok in Hrun as [[Hz Hrun] | [Hnz (vs & Hrun & _)]].
  - apply read_basic_ok in Hrun as (_ & -> & _). cbn. split; [reflexivity | lia].
  - destruct n as [|n].
    + vm_compute in Hrun. injection Hrun as <- <-. auto.
    + destruct (read_bytes_shifted_ok (S n) _ _ _ Hnz ltac:(lia) Hrun)
        as (_ & Hbuf & _ & Hpos & _). split; [auto | lia].
Qed.

Lemma advances_read_int e : advances (read_int e).
Proof.
  intros s v s' Hrun.
  destruct (read_fixed_ok e 4 s v s' ltac:(lia) Hrun) as (Hbuf & _ & Hpos & _).
  split; [auto | lia].
Qed.

Lemma advances_skip_2 : advances (skip 2).
Proof.
  intros s a s' Hrun.
  destruct (seek_ok _ _ _ _ _ Hrun) as (Hbuf & _ & Hpos & _).
  split; [exact Hbuf|]. rewrite Hpos. unfold io_seek_target. lia.
Qed.

Lemma fueled_skip amount : fueled (skip amount).
Proof. apply fueled_seek. Qed.

#[local] Hint Resolve fueled_skip : fuel.

Lemma advances_bytes_left : advances bytes_left.
Proof. intros s a s' [= <- <-]. auto. Qed.

#[local] Hint Resolve advances_ret advances_raise advances_read_byte
  advances_read_chars advances_read_int advances_skip_2
  advances_bytes_left : fuel.

Ltac advances_step :=
  lazymatch goal with
  | |- advances (bind _ _) => apply advances_bind; [|intros ?]
  | |- advances (if ?c then _ else _) => destruct c
  | |- advances (match ?x with _ => _ end) => destruct x
  | |- _ => solve [auto with fuel]
  end.

Lemma advances_read_count : advances read_count.
Proof. unfold read_count. repeat advances_step. Qed.

Lemma advances_read_string (length : option nat) : advances (read_string length).
Proof. unfold read_string. repeat advances_step. Qed.

Lemma advances_variable_int_loop (fuel : nat) (cur shift value : Z) :
  advances (variable_int_loop fuel cur shift value).
Proof.
  revert cur shift value.
  induction fuel as [|fuel IH]; intros cur shift value; cbn [variable_int_loop];
    repeat advances_step.
Qed.

#[local] Hint Resolve advances_read_count advances_read_string
  advances_variable_int_loop : fuel.

Lemma advances_read_variable_int : advances read_variable_int.
Proof. unfold read_variable_int. repeat advances_step. Qed.

#[local] Hint Resolve advances_read_variable_int : fuel.

Lemma safe_of {A} buf p (m : M A) : fueled m -> advances m -> safe_from buf p m.
Proof.
  intros Hf Ha s Hbuf Hp. split; [apply Hf|].
  intros a s' Hrun. destruct (Ha _ _ _ Hrun). split; [congruence | lia].
Qed.

Lemma safe_bind {A B} buf p (m : M A) (f : A -> M B) :
  safe_from buf p m -> (forall a, safe_from buf p (f a)) ->
  safe_from buf p (bind m f).
Proof.
  intros Hm Hf s Hbuf Hp. destruct (Hm s Hbuf Hp) as [Hfuel Hadv].
  unfold bind. destruct (m s) as [[a|e] s1] eqn:H1.
  - destruct (Hadv _ _ eq_refl) as [Hb1 Hp1].
    destruct (Hf a s1 Hb1 ltac:(lia)) as [Hfuel2 Hadv2].
    split; [exact Hfuel2|]. intros b s' Hrun.
    destruct (Hadv2 _ _ Hrun). split; [auto | lia].
  - split; [|discriminate]. intros s' [= -> ->]. exact (Hfuel _ eq_refl).
Qed.

Lemma safe_for_range {A} buf p (n : nat) (m : M A) :
  safe_from buf p m -> safe_from buf p (for_range n m).
Proof.
  intros Hm. induction n as [|n IH]; cbn [for_range].
  - apply safe_of; auto with fuel.
  - apply safe_bind; [exact Hm|]. intros a.
    apply safe_bind; [exact IH|]. intros rest. apply safe_of; auto with fuel.
Qed.

Lemma safe_for_pairs buf p (n : nat) (entry : M (Z * value)) data :
  safe_from buf p entry -> safe_from buf p (for_pairs n entry data).
Proof.
  intros Hm. revert data. induction n as [|n IH]; intros data; cbn [for_pairs].
  - apply safe_of; auto with fuel.
  - apply safe_bind; [exact Hm|]. intros kv. apply IH.
Qed.

Lemma safe_body buf p (fuel : nat) (datatype : Z) :
  safe_from buf p (read_data_struct_fuel fuel) ->
  safe_from buf p (read_data_struct_body fuel datatype).
Proof.
  intros IH. unfold read_data_struct_body.
  repeat lazymatch goal with
         | |- safe_from _ _ (bind _ _) => apply safe_bind; [|intros ?]
         | |- safe_from _ _ (if ?c then _ else _) => destruct c
         | |- safe_from _ _ (for_range _ _) => apply safe_for_range
         | |- safe_from _ _ (for_pairs _ _ _) => apply safe_for_pairs
         | |- safe_from _ _ (read_data_struct_fuel _) => exact IH
         | |- safe_from _ _ (raise _) =>
             apply safe_of; [apply fueled_raise; discriminate
                            | apply advances_raise]
         | |- _ => apply safe_of; [solve [auto with fuel]
                                  | solve [auto with fuel]]
         end.
Qed.

(** A unit of fuel per byte left, and one more, is enough for
    [read_data_struct]: every level of the recursion reads its tag first. *)
Lemma safe_read_data_struct_fuel (fuel : nat) :
  forall buf p, length buf - p < fuel ->
    safe_from buf p (read_data_struct_fuel fuel).
Proof.
  induction fuel as [|fuel IH]; intros buf p Hfuel; [lia|].
  rewrite read_data_struct_fuel_S. intros s Hbuf Hp.
  unfold bind. destruct (read_byte s) as [[d|e] s1] eqn:Hb.
  - destruct (read_byte_ok _ _ _ Hb) as (_ & Hbuf1 & _ & Hpos1 & Hle & _).
    unfold length_ in Hle. rewrite Hbuf in *.
    destruct (safe_body buf (S p) fuel d (IH buf (S p) ltac:(lia)) s1
                ltac:(congruence) ltac:(lia)) as [Hf Ha].
    split; [exact Hf|]. intros v s' Hrun.
    destruct (Ha _ _ Hrun). split; [auto | lia].
  - split; [|discriminate]. intros s' [= -> _]. exact (fueled_read_byte _ _ Hb).
Qed.

(** [read_data_struct] and [read_variable_int] never stop for lack of fuel:
    what the model returns is what the methods return. *)
Lemma model_fuel_is_enough :
  fueled read_data_struct /\ fueled read_variable_int /\
  (forall bytes bits, fueled (read bytes bits)).
Proof.
  split; [|split; [exact fueled_read_variable_int | exact fueled_read]].
  intros s s' Hrun. unfold read_data_struct, bind at 1, bytes_left at 1 in Hrun.
  destruct (safe_read_data_struct_fuel (S (length_ s - io_pos s))
              (io_buf s) (io_pos s) ltac:(unfold length_; lia) s eq_refl
              ltac:(lia)) as [Hf _].
  exact (Hf _ Hrun).
Qed.

(** ** [read] past the end of the stream *)

Lemma read_base_fails (n : nat) s :
  io_pos s <= length_ s -> length_ s < io_pos s + n ->
  exists s', read_base n s = (Raise (TypeError OrdLength), s').
Proof.
  revert s. induction n as [|n IH]; intros s Hin Hshort; [lia|].
  cbn [read_base]. destruct (io_buf s !! io_pos s) as [b|] eqn:Hb.
  - rewrite (bind_step _ _ _ _ _ (read_ord_some _ _ Hb)).
    apply lookup_lt_Some in Hb.
    destruct (IH (with_pos s (S (io_pos s)))) as (s' & Hfail);
      [unfold length_ in *; cbn; lia | unfold length_ in *; cbn; lia|].
    exists s'. apply bind_raise. exact Hfail.
  - exists s. apply bind_raise, read_ord_none. exact Hb.
Qed.

Lemma read_loop_fails (fuel : nat) e old :
  forall (bit_count : nat) first next raw s,
    bit_count <= fuel -> io_pos s <= length_ s ->
    length_ s - io_pos s < (bit_count - 1) / 8 ->
    exists s', read_loop fuel e old bit_count first next raw s
               = (Raise (TypeError OrdLength), s').
Proof.
  induction fuel as [|fuel IH]; intros bit_count first next raw s Hfuel Hin Hshort.
  - assert (bit_count = 0) as -> by lia. cbn in Hshort. lia.
  - cbn [read_loop].
    destruct (Nat.ltb_spec 0 bit_count) as [Hpos|Hzero];
      [|assert (bit_count = 0) as -> by lia; cbn in Hshort; lia].
    destruct (Nat.leb_spec bit_count 8) as [Hlast|Hmore].
    + rewrite Nat.div_small in Hshort by lia. lia.
    + assert (Hdiv : (bit_count - 1) / 8 = S ((bit_count - 8 - 1) / 8)).
      { replace (bit_count - 1) with ((bit_count - 8 - 1) + 1 * 8) by lia.
        rewrite Nat.div_add by lia. lia. }
      destruct (io_buf s !! io_pos s) as [b|] eqn:Hb.
      * rewrite (bind_step _ _ _ _ _ (read_ord_some _ _ Hb)).
        apply lookup_lt_Some in Hb.
        apply IH; unfold length_ in *; cbn [io_pos io_buf with_pos]; lia.
      * exists s. apply bind_raise, read_ord_none. exact Hb.
Qed.

(** [read] on its last path. *)
Lemma read_unfold_general (bytes bits : nat) s :
  bit_shift s <> 0 ->
  8 - bit_shift s < (bytes + bits / 8) * 8 + bits mod 8 ->
  read bytes bits s
  = except_TypeError
      (read_general (bit_shift s) ((bytes + bits / 8) * 8 + bits mod 8)
                    (bits mod 8)) EOFError s.
Proof.
  intros Hinside Hbig. unfold read, except_TypeError.
  destruct (Nat.eqb_spec ((bytes + bits / 8) * 8 + bits mod 8) 0) as [|_]; [lia|].
  unfold bind at 1, get_bit_shift at 1.
  destruct (Nat.leb_spec ((bytes + bits / 8) * 8 + bits mod 8) (8 - bit_shift s));
    [lia|].
  destruct (Nat.eqb_spec (bit_shift s) 0) as [|_]; [lia|]. reflexivity.
Qed.

Lemma load_state_inv (old new : nat) :
  old_bit_shift_inv (load_state old new) = 8 - old.
Proof. unfold load_state. destruct (Nat.eqb new 0); reflexivity. Qed.

(** The last path of [read] with too few bytes left raises a [TypeError],
    which [read] turns into [EOFError]. *)
Lemma read_general_fails (old bit_count bits : nat) s :
  old < 8 -> old <> 0 -> io_pos s <= length_ s ->
  8 * (length_ s - io_pos s) + (8 - old) < bit_count ->
  exists why s', read_general old bit_count bits s = (Raise (TypeError why), s').
Proof.
  intros Hold Hne Hin Hshort. unfold read_general. cbv zeta.
  set (new := (old + bits) mod 8).
  assert (Hstate : read_state old new s = (Ok (load_state old new), s)).
  { unfold read_state. destruct (Nat.ltb_spec old 8); [|lia].
    destruct (Nat.ltb_spec new 8) as [|Hge]; [reflexivity|].
    pose proof (Nat.mod_upper_bound (old + bits) 8 ltac:(lia)).
    unfold new in Hge. lia. }
  rewrite (bind_step _ _ _ _ _ Hstate).
  unfold bind at 1, get_last_byte at 1. rewrite load_state_inv.
  destruct (io_buf s !! io_pos s) as [next|] eqn:Hnext.
  - rewrite (bind_step _ _ _ _ _ (read_ord_some _ _ Hnext)).
    apply lookup_lt_Some in Hnext.
    destruct (last_byte s) as [prev|]; [|eexists _, _; reflexivity].
    destruct (read_loop_fails (bit_count - (8 - old)) (load_state old new) old
                (bit_count - (8 - old))
                (Z.land (ord prev) (hi_mask (load_state old new))) next []
                (with_pos s (S (io_pos s))) ltac:(lia))
      as (s' & Hfail).
    + unfold length_ in *. cbn [io_pos io_buf with_pos]. lia.
    + unfold length_ in *. cbn [io_pos io_buf with_pos].
      apply Nat.div_le_lower_bound; lia.
    + exists OrdLength, s'. apply bind_raise. exact Hfail.
  - exists OrdLength, s. apply bind_raise, read_ord_none. exact Hnext.
Qed.

(** A [read] of more bits than remain raises [EOFError]. *)
Lemma read_past_end (bytes bits : nat) s :
  bit_shift s < 8 -> io_pos s <= length_ s ->
  remaining_bits s < (bytes + bits / 8) * 8 + bits mod 8 ->
  exists s', read bytes bits s = (Raise EOFError, s').
Proof.
  intros Hbs Hin Hshort. unfold remaining_bits in Hshort.
  destruct (Nat.eq_dec (bit_shift s) 0) as [Haligned|Hinside].
  - rewrite (proj2 (Nat.eqb_eq _ _) Haligned) in Hshort. unfold read.
    set (nbytes := bytes + bits / 8) in *. set (nbits := bits mod 8) in *.
    assert (Hnbits : nbits < 8) by (apply Nat.mod_upper_bound; lia).
    assert (Hraise : forall (m : M (list Z)) s',
              m s = (Raise EOFError, s') \/
              (exists why, m s = (Raise (TypeError why), s')) ->
              except_TypeError m EOFError s = (Raise EOFError, s')).
    { intros m s' [H | [why H]]; unfold except_TypeError; rewrite H; reflexivity. }
    destruct (Nat.eqb_spec (nbytes * 8 + nbits) 0) as [Hz|_]; [lia|].
    destruct (Nat.leb_spec (nbytes * 8 + nbits) (8 - bit_shift s)) as [Hfit|Hbig].
    + exists s. apply Hraise. left.
      unfold bind at 1, get_bit_shift at 1.
      destruct (Nat.leb_spec (nbytes * 8 + nbits) (8 - bit_shift s)); [|lia].
      apply bind_raise, shift_at_end; lia.
    + destruct (le_gt_dec (io_pos s + nbytes) (length_ s)) as [Hroom|Hnoroom].
      * exists (with_pos s (io_pos s + nbytes)). apply Hraise. left.
        unfold bind at 1, get_bit_shift at 1.
        destruct (Nat.leb_spec (nbytes * 8 + nbits) (8 - bit_shift s)); [lia|].
        rewrite Haligned. cbn [Nat.eqb].
        rewrite (bind_step _ _ _ _ _ (read_base_ok nbytes s Hroom)).
        destruct (Nat.eqb_spec nbits 0) as [|_]; [lia|]. cbn [negb].
        apply bind_raise, shift_at_end; unfold length_ in *; cbn; lia.
      * destruct (read_base_fails nbytes s Hin Hnoroom) as (s' & Hfail).
        exists s'. apply Hraise. right. exists OrdLength.
        unfold bind at 1, get_bit_shift at 1.
        destruct (Nat.leb_spec (nbytes * 8 + nbits) (8 - bit_shift s)); [lia|].
        rewrite Haligned. cbn [Nat.eqb]. apply bind_raise. exact Hfail.
  - rewrite (proj2 (Nat.eqb_neq _ _) Hinside) in Hshort.
    rewrite read_unfold_general by lia.
    destruct (read_general_fails (bit_shift s)
                ((bytes + bits / 8) * 8 + bits mod 8) (bits mod 8) s
                Hbs Hinside Hin ltac:(lia)) as (why & s' & Hfail).
    exists s'. unfold except_TypeError. rewrite Hfail. reflexivity.
Qed.

(** ** The values and the bits of [read] *)

(** [lia] with the equations of the divisions and remainders by constants. *)
Ltac div_lia := zify; Z.to_euclidean_division_equations; lia.

Lemma is_byte_ord b : is_byte (ord b).
Proof. exact (ord_range b). Qed.

Lemma is_byte_land (x m : Z) : is_byte x -> is_byte (Z.land x m).
Proof.
  unfold is_byte. intros Hx.
  assert (Hx' : x = Z.land x (Z.ones 8))
    by (rewrite Z.land_ones by lia; symmetry; apply Z.mod_small; exact Hx).
  rewrite Hx', <- Z.land_assoc, (Z.land_comm (Z.ones 8)), Z.land_assoc.
  rewrite Z.land_ones by lia. apply Z.mod_pos_bound. lia.
Qed.

Lemma is_byte_lor (x y : Z) : is_byte x -> is_byte y -> is_byte (Z.lor x y).
Proof.
  unfold is_byte. intros Hx Hy.
  assert (H : Z.lor x y = Z.land (Z.lor x y) (Z.ones 8)).
  { rewrite Z.land_lor_distr_l, !Z.land_ones by lia.
    rewrite !Z.mod_small by (change (2 ^ 8)%Z with 256%Z; lia). reflexivity. }
  rewrite H, Z.land_ones by lia. apply Z.mod_pos_bound. lia.
Qed.

Lemma is_byte_shiftr (x k : Z) : is_byte x -> (0 <= k)%Z -> is_byte (Z.shiftr x k).
Proof.
  unfold is_byte. intros Hx Hk. rewrite Z.shiftr_div_pow2 by lia.
  assert (0 < 2 ^ k)%Z by (apply Z.pow_pos_nonneg; lia).
  split; [apply Z.div_pos; lia|].
  apply Z.div_lt_upper_bound; [lia | nia].
Qed.

Lemma mul_below_256 (a P Q : Z) :
  (0 <= a < P)%Z -> (0 < Q)%Z -> (P * Q = 256)%Z -> is_byte (a * Q).
Proof.
  intros Ha HQ HPQ. unfold is_byte. split; [nia|].
  assert (H : (a * Q <= (P - 1) * Q)%Z) by (apply Z.mul_le_mono_nonneg_r; lia).
  replace ((P - 1) * Q)%Z with (P * Q - Q)%Z in H by ring. lia.
Qed.

Lemma shift_is_byte (w : nat) s r s' : shift w s = (Ok r, s') -> is_byte r.
Proof.
  intros Hrun. apply shift_ok in Hrun as (_ & b & _ & -> & _).
  apply is_byte_land, is_byte_shiftr; [apply is_byte_ord | lia].
Qed.

Lemma read_base_values (n : nat) s vs s' :
  read_base n s = (Ok vs, s') -> length vs = n /\ Forall is_byte vs.
Proof.
  revert s vs. induction n as [|n IH]; intros s vs Hrun; cbn [read_base] in Hrun.
  - injection Hrun as <- <-. split; [reflexivity | constructor].
  - apply bind_ok in Hrun as (b & s1 & _ & Hrun).
    apply bind_ok in Hrun as (rest & s2 & Hrest & Hrun).
    injection Hrun as <- <-. destruct (IH _ _ Hrest) as [Hlen Hall].
    split; [cbn; lia | constructor; [apply is_byte_ord | exact Hall]].
Qed.

Lemma hi_mask_inv_ones (old new : nat) :
  old < 8 -> hi_mask_inv (load_state old new) = Z.ones (Z.of_nat (8 - old)).
Proof.
  intros Hold. unfold load_state.
  destruct (Nat.eqb new 0); cbn [hi_mask_inv];
    do 8 (destruct old as [|old]; [reflexivity|]); lia.
Qed.

Lemma read_loop_values (fuel : nat) (old new : nat) :
  old < 8 ->
  forall (bit_count : nat) first next raw s out next' s',
    is_byte first -> Forall is_byte raw ->
    read_loop fuel (load_state old new) old bit_count first next raw s
      = (Ok (out, next'), s') ->
    Forall is_byte out.
Proof.
  intros Hold. induction fuel as [|fuel IH];
    intros bit_count first next raw s out next' s' Hfirst Hraw Hrun;
    cbn [read_loop] in Hrun.
  - destruct (Nat.ltb 0 bit_count); [discriminate|].
    injection Hrun as <- <- <-. exact Hraw.
  - destruct (Nat.ltb 0 bit_count); [|injection Hrun as <- <- <-; exact Hraw].
    set (e := load_state old new) in *.
    assert (Hlast : is_byte (Z.land (ord next) (last_mask e)))
      by apply is_byte_land, is_byte_ord.
    destruct (Nat.leb bit_count 8).
    + apply IH in Hrun; [exact Hrun | exact Hfirst |].
      destruct (adjustment e <? 0)%Z eqn:Hneg; [|destruct (0 <? adjustment e)%Z eqn:Hpos].
      * apply Forall_app. split; [exact Hraw|]. constructor; [|constructor].
        apply is_byte_lor; [|exact Hlast].
        apply is_byte_shiftr; [exact Hfirst | lia].
      * apply Forall_app. split; [apply Forall_app; split; [exact Hraw|]|].
        -- constructor; [|constructor]. apply is_byte_land. exact Hlast.
        -- constructor; [|constructor]. apply is_byte_lor; [exact Hfirst|].
           apply is_byte_shiftr; [exact Hlast | lia].
      * apply Forall_app. split; [exact Hraw|]. constructor; [|constructor].
        apply is_byte_lor; assumption.
    + apply bind_ok in Hrun as (nb & s1 & _ & Hrun).
      apply IH in Hrun; [exact Hrun | |].
      * unfold e. rewrite hi_mask_inv_ones by exact Hold.
        rewrite Z.land_ones, Z.shiftl_mul_pow2 by lia.
        pose proof (Z.mod_pos_bound (ord next) (2 ^ Z.of_nat (8 - old))
                      ltac:(apply Z.pow_pos_nonneg; lia)) as Hm.
        assert (Hp : (2 ^ Z.of_nat (8 - old) * 2 ^ Z.of_nat old = 256)%Z).
        { rewrite <- Z.pow_add_r by lia.
          replace (Z.of_nat (8 - old) + Z.of_nat old)%Z with 8%Z by lia.
          reflexivity. }
        assert (Hq : (0 < 2 ^ Z.of_nat old)%Z) by (apply Z.pow_pos_nonneg; lia).
        exact (mul_below_256 _ _ _ Hm Hq Hp).
      * apply Forall_app. split; [exact Hraw|]. constructor; [|constructor].
        apply is_byte_lor; [exact Hfirst|].
        apply is_byte_shiftr; [apply is_byte_land, is_byte_ord | lia].
Qed.

(** n = 8 * bytes + bits, normalised as [read] does. *)
Lemma bit_count_eq (bytes bits : nat) :
  (bytes + bits / 8) * 8 + bits mod 8 = 8 * bytes + bits.
Proof. pose proof (Nat.div_mod_eq bits 8). lia. Qed.

Lemma read_values (bytes bits : nat) s vs s' :
  read bytes bits s = (Ok vs, s') -> Forall is_byte vs.
Proof.
  intros Hrun.
  destruct (Nat.eq_dec (bit_shift s) 0) as [Hz|Hnz];
    [|destruct (le_gt_dec ((bytes + bits / 8) * 8 + bits mod 8)
                          (8 - bit_shift s)) as [Hfit|Hbig]].
  - apply except_ok in Hrun.
    destruct (Nat.eqb ((bytes + bits / 8) * 8 + bits mod 8) 0);
      [injection Hrun as <- <-; constructor|].
    unfold bind at 1, get_bit_shift at 1 in Hrun.
    destruct (Nat.leb ((bytes + bits / 8) * 8 + bits mod 8) (8 - bit_shift s)).
    { apply bind_ok in Hrun as (r & s1 & Hsh & Hrun). injection Hrun as <- <-.
      constructor; [exact (shift_is_byte _ _ _ _ Hsh) | constructor]. }
    rewrite Hz in Hrun. cbn [Nat.eqb] in Hrun.
    apply bind_ok in Hrun as (base & s1 & Hbase & Hrun).
    apply read_base_values in Hbase as [_ Hbase].
    destruct (negb (Nat.eqb (bits mod 8) 0)).
    + apply bind_ok in Hrun as (r & s2 & Hsh & Hrun). injection Hrun as <- <-.
      apply Forall_app. split; [exact Hbase|].
      constructor; [exact (shift_is_byte _ _ _ _ Hsh) | constructor].
    + injection Hrun as <- <-. exact Hbase.
  - apply except_ok in Hrun.
    destruct (Nat.eqb ((bytes + bits / 8) * 8 + bits mod 8) 0);
      [injection Hrun as <- <-; constructor|].
    unfold bind at 1, get_bit_shift at 1 in Hrun.
    destruct (Nat.leb_spec ((bytes + bits / 8) * 8 + bits mod 8)
                           (8 - bit_shift s)); [|lia].
    apply bind_ok in Hrun as (r & s1 & Hsh & Hrun). injection Hrun as <- <-.
    constructor; [exact (shift_is_byte _ _ _ _ Hsh) | constructor].
  - rewrite read_unfold_general in Hrun by assumption.
    apply except_ok in Hrun. unfold read_general in Hrun. cbv zeta in Hrun.
    apply bind_ok in Hrun as (e & s0 & He & Hrun).
    unfold read_state in He.
    destruct (Nat.ltb (bit_shift s) 8
              && Nat.ltb ((bit_shift s + bits mod 8) mod 8) 8) eqn:Hkeys;
      [|discriminate].
    apply andb_prop in Hkeys as [Hlt%Nat.ltb_lt _].
    injection He as <- <-.
    apply bind_ok in Hrun as (prev & s0 & Hprev & Hrun).
    injection Hprev as <- <-.
    apply bind_ok in Hrun as (next & s1 & _ & Hrun).
    destruct (last_byte s) as [prev|]; [|discriminate].
    apply bind_ok in Hrun as ([raw next'] & s2 & Hloop & Hrun).
    injection Hrun as <- <-.
    apply (read_loop_values _ _ _ Hlt) in Hloop; [exact Hloop | | constructor].
    apply is_byte_land, is_byte_ord.
Qed.

Lemma read_normal (bytes bits : nat) s :
  read bytes bits s = read (bytes + bits / 8) (bits mod 8) s.
Proof.
  unfold read.
  assert (H8 : bits mod 8 < 8) by (apply Nat.mod_upper_bound; lia).
  rewrite (Nat.div_small (bits mod 8) 8 H8), (Nat.mod_small (bits mod 8) 8 H8).
  rewrite Nat.add_0_r. reflexivity.
Qed.

Lemma read_nothing s : read 0 0 s = (Ok [], s).
Proof. reflexivity. Qed.

Lemma adjustment_sign (old k : nat) :
  0 < old < 8 -> k < 8 ->
  let new := (old + k) mod 8 in
  (0 <? adjustment (load_state old new))%Z
  = negb (Nat.eqb k 0) && Nat.leb (old + k) 8.
Proof.
  intros Hold Hk new. unfold load_state.
  destruct (Nat.eqb_spec new 0) as [Hz|Hnz]; cbn [adjustment];
    destruct (Nat.eqb_spec k 0); destruct (Nat.leb_spec (old + k) 8);
    cbn [negb andb]; first [apply Z.ltb_lt | apply Z.ltb_ge];
    unfold new in *; div_lia.
Qed.

(** A successful [read] on a normalised request [b] bytes and [k < 8] bits. *)
Lemma read_normal_ok (b k : nat) s vs s' :
  k < 8 ->
  read b k s = (Ok vs, s') ->
  io_buf s' = io_buf s /\
  length vs = (8 * b + k + 7) / 8 /\
  remaining_bits s' + (8 * b + k) = remaining_bits s.
Proof.
  intros Hk Hrun.
  assert (Hdiv : k / 8 = 0) by (apply Nat.div_small; exact Hk).
  assert (Hmod : k mod 8 = k) by (apply Nat.mod_small; exact Hk).
  assert (Hceil : forall q r, 1 <= r <= 8 -> (8 * q + r + 7) / 8 = q + 1).
  { intros q r Hr. replace (8 * q + r + 7) with ((r - 1) + (q + 1) * 8) by lia.
    rewrite Nat.div_add by lia. rewrite Nat.div_small by lia. reflexivity. }
  destruct (Nat.eq_dec (8 * b + k) 0) as [Hzero|Hpos].
  { assert (b = 0) as -> by lia. assert (k = 0) as -> by lia.
    rewrite read_nothing in Hrun. injection Hrun as <- <-.
    split; [reflexivity|]. split; [reflexivity | lia]. }
  destruct (Nat.eq_dec (bit_shift s) 0) as [Hz|Hnz];
    [|destruct (le_gt_dec ((b + k / 8) * 8 + k mod 8)
                          (8 - bit_shift s)) as [Hfit|Hbig]].
  - (* byte-aligned *)
    apply except_ok in Hrun. rewrite Hdiv, Hmod, Nat.add_0_r in Hrun.
    destruct (Nat.eqb_spec (b * 8 + k) 0) as [|_]; [lia|].
    unfold bind at 1, get_bit_shift at 1 in Hrun.
    destruct (Nat.leb_spec (b * 8 + k) (8 - bit_shift s)) as [Hfit|Hbig].
    + apply bind_ok in Hrun as (r & s1 & Hsh & Hrun). injection Hrun as <- <-.
      apply shift_ok in Hsh as (_ & c & Hcur & _ & ->).
      unfold current_byte in Hcur. rewrite Hz in Hcur. cbn [Nat.eqb] in Hcur.
      apply lookup_lt_Some in Hcur.
      unfold remaining_bits, length_. cbn [io_buf io_pos bit_shift length].
      rewrite Hz. cbn [Nat.eqb Nat.add].
      split; [reflexivity|]. split.
      * replace (8 * b + k + 7) with ((8 * b + k - 1) + 1 * 8) by lia.
        rewrite Nat.div_add by lia. rewrite Nat.div_small by lia. reflexivity.
      * destruct (Nat.eqb_spec (b * 8 + k) 8) as [H8|H8]; cbn [Nat.eqb].
        -- lia.
        -- destruct (Nat.eqb_spec (b * 8 + k) 0); lia.
    + rewrite Hz in Hrun. cbn [Nat.eqb] in Hrun.
      apply bind_ok in Hrun as (base & s1 & Hbase & Hrun).
      destruct (read_base_values _ _ _ _ Hbase) as [Hlen _].
      assert (Hb : 1 <= b) by lia.
      apply read_base_inv in Hbase as [[-> Hroom] | [? _]]; [|lia].
      destruct (Nat.eqb_spec k 0) as [->|Hk0]; cbn [negb] in Hrun.
      * injection Hrun as <- <-.
        unfold remaining_bits, length_ in *. cbn [io_buf io_pos bit_shift with_pos].
        rewrite Hz. cbn [Nat.eqb].
        split; [reflexivity|]. split; [|lia].
        rewrite Hlen. replace (8 * b + 0 + 7) with (7 + b * 8) by lia.
        rewrite Nat.div_add by lia. reflexivity.
      * apply bind_ok in Hrun as (r & s2 & Hsh & Hrun). injection Hrun as <- <-.
        apply shift_ok in Hsh as (_ & c & Hcur & _ & ->).
        unfold current_byte in Hcur.
        cbn [io_buf io_pos bit_shift with_pos] in Hcur |- *.
        rewrite Hz in Hcur |- *. cbn [Nat.eqb Nat.add] in Hcur |- *.
        apply lookup_lt_Some in Hcur.
        unfold remaining_bits, length_. cbn [io_buf io_pos bit_shift].
        rewrite Hz. cbn [Nat.eqb].
        destruct (Nat.eqb_spec k 8) as [|_]; [lia|].
        destruct (Nat.eqb_spec k 0) as [|_]; [lia|].
        split; [reflexivity|]. split; [|lia].
        rewrite length_app, Hlen. cbn [length]. rewrite Hceil by lia. reflexivity.
  - (* within the current byte *)
    apply except_ok in Hrun. rewrite Hdiv, Hmod, Nat.add_0_r in Hrun, Hfit.
    destruct (Nat.eqb_spec (b * 8 + k) 0) as [|_]; [lia|].
    unfold bind at 1, get_bit_shift at 1 in Hrun.
    destruct (Nat.leb_spec (b * 8 + k) (8 - bit_shift s)); [|lia].
    apply bind_ok in Hrun as (r & s1 & Hsh & Hrun). injection Hrun as <- <-.
    apply shift_ok in Hsh as (_ & c & _ & _ & ->).
    unfold remaining_bits, length_. cbn [io_buf io_pos bit_shift length].
    destruct (Nat.eqb_spec (bit_shift s) 0) as [|_]; [lia|].
    split; [reflexivity|]. split.
    + replace (8 * b + k + 7) with ((8 * b + k - 1) + 1 * 8) by lia.
      rewrite Nat.div_add by lia. rewrite Nat.div_small by lia. reflexivity.
    + destruct (Nat.eqb_spec (bit_shift s + (b * 8 + k)) 8) as [H8|H8];
        cbn [Nat.eqb].
      * lia.
      * destruct (Nat.eqb_spec (bit_shift s + (b * 8 + k)) 0); lia.
  - (* across bytes from inside a byte *)
    destruct (read_general_ok _ _ _ _ _ Hnz Hbig Hrun)
      as (Hlt & Hbuf & Hbs & Hp & (c & _ & Hc) & Hlen).
    rewrite Hdiv, Hmod, Nat.add_0_r in *.
    rewrite (adjustment_sign (bit_shift s) k ltac:(lia) Hk) in Hlen.
    apply lookup_lt_Some in Hc.
    split; [exact Hbuf|]. split.
    + rewrite Hlen.
      destruct (Nat.eqb_spec k 0); destruct (Nat.leb_spec (bit_shift s + k) 8);
        cbn [negb andb]; div_lia.
    + unfold remaining_bits, length_ in *. rewrite Hbuf, Hbs.
      destruct (Nat.eqb_spec (bit_shift s) 0) as [|_]; [lia|].
      destruct (Nat.eqb_spec ((bit_shift s + k) mod 8) 0); div_lia.
Qed.

(** X1.  A [read] that returns has consumed exactly the bits asked for:
    [8 * bytes + bits] bits fewer remain, the buffer is the same, and the
    result holds one value per started group of eight bits. *)
Theorem read_consumes_requested_bits (bytes bits : nat) s vs s' :
  read bytes bits s = (Ok vs, s') ->
  io_buf s' = io_buf s /\
  length vs = (8 * bytes + bits + 7) / 8 /\
  remaining_bits s' + (8 * bytes + bits) = remaining_bits s.
Proof.
  rewrite read_normal. intros Hrun.
  apply read_normal_ok in Hrun; [|apply Nat.mod_upper_bound; lia].
  replace (8 * (bytes + bits / 8) + bits mod 8) with (8 * bytes + bits) in Hrun
    by div_lia.
  exact Hrun.
Qed.

Lemma read_consumes_requested_bits_witness :
  let s := mkReplayBuffer [xab; xcd; xef] 1 3 (Some xab) in
  exists vs s',
    read 1 2 s = (Ok vs, s') /\ length vs = 2 /\
    remaining_bits s' + 10 = 21.
Proof.
  cbv zeta.
  destruct (read 1 2 (mkReplayBuffer [xab; xcd; xef] 1 3 (Some xab)))
    as [[vs|e] s'] eqn:Hrun; [|vm_compute in Hrun; discriminate].
  destruct (read_consumes_requested_bits _ _ _ _ _ Hrun) as (_ & Hlen & Hrem).
  exists vs, s'. split; [reflexivity|]. split; [exact Hlen | exact Hrem].
Defined.

Lemma read_loop_returns (fuel : nat) e old :
  forall (bit_count : nat) first next raw s,
    bit_count <= fuel -> io_pos s + (bit_count - 1) / 8 <= length_ s ->
    exists out next' s',
      read_loop fuel e old bit_count first next raw s = (Ok (out, next'), s').
Proof.
  induction fuel as [|fuel IH]; intros bit_count first next raw s Hfuel Hroom;
    cbn [read_loop].
  - destruct (Nat.ltb_spec 0 bit_count); [lia|]. eexists _, _, _. reflexivity.
  - destruct (Nat.ltb_spec 0 bit_count); [|eexists _, _, _; reflexivity].
    destruct (Nat.leb_spec bit_count 8).
    + apply IH; [lia|]. cbn. unfold length_ in *. div_lia.
    + destruct (lookup_lt_is_Some_2 (io_buf s) (io_pos s)) as [nb Hnb];
        [unfold length_ in *; div_lia|].
      rewrite (bind_step _ _ _ _ _ (read_ord_some _ _ Hnb)).
      apply IH; [lia|]. unfold length_ in *. cbn [io_pos io_buf with_pos].
      div_lia.
Qed.

Lemma read_general_returns (old bit_count bits : nat) s :
  old < 8 -> old <> 0 -> last_byte s <> None ->
  8 - old < bit_count ->
  bit_count <= 8 * (length_ s - io_pos s) + (8 - old) ->
  exists vs s', read_general old bit_count bits s = (Ok vs, s').
Proof.
  intros Hold Hne Hlast Hbig Hroom. unfold read_general. cbv zeta.
  set (new := (old + bits) mod 8).
  assert (Hstate : read_state old new s = (Ok (load_state old new), s)).
  { unfold read_state. destruct (Nat.ltb_spec old 8); [|lia].
    destruct (Nat.ltb_spec new 8) as [|Hge]; [reflexivity|].
    unfold new in Hge. div_lia. }
  rewrite (bind_step _ _ _ _ _ Hstate).
  unfold bind at 1, get_last_byte at 1. rewrite load_state_inv.
  destruct (lookup_lt_is_Some_2 (io_buf s) (io_pos s)) as [next Hnext];
    [unfold length_ in *; lia|].
  rewrite (bind_step _ _ _ _ _ (read_ord_some _ _ Hnext)).
  destruct (last_byte s) as [prev|]; [|contradiction].
  destruct (read_loop_returns (bit_count - (8 - old)) (load_state old new) old
              (bit_count - (8 - old))
              (Z.land (ord prev) (hi_mask (load_state old new))) next []
              (with_pos s (S (io_pos s))) ltac:(lia))
    as (out & next' & s1 & Hloop).
  { unfold length_ in *. cbn [io_pos io_buf with_pos]. div_lia. }
  rewrite (bind_step _ _ _ _ _ Hloop). eexists _, _. reflexivity.
Qed.

Lemma read_unfold_fits (bytes bits : nat) s :
  (bytes + bits / 8) * 8 + bits mod 8 <> 0 ->
  (bytes + bits / 8) * 8 + bits mod 8 <= 8 - bit_shift s ->
  read bytes bits s
  = except_TypeError
      (r <- shift ((bytes + bits / 8) * 8 + bits mod 8) ;; ret [r]) EOFError s.
Proof.
  intros Hne Hfit. unfold read, except_TypeError.
  destruct (Nat.eqb_spec ((bytes + bits / 8) * 8 + bits mod 8) 0) as [|_]; [lia|].
  unfold bind at 1 3, get_bit_shift.
  destruct (Nat.leb_spec ((bytes + bits / 8) * 8 + bits mod 8) (8 - bit_shift s));
    [reflexivity | lia].
Qed.

(** X2.  With the cursor in a valid state, [read] returns exactly when the
    bits asked for are there: it returns when [8 * bytes + bits] is at most
    the number of remaining bits, and raises [EOFError] otherwise. *)
Theorem read_returns_iff_enough_bits (bytes bits : nat) s :
  bit_shift s < 8 -> io_pos s <= length_ s ->
  (bit_shift s <> 0 -> last_byte s <> None) ->
  (8 * bytes + bits <= remaining_bits s ->
   exists vs s', read bytes bits s = (Ok vs, s')) /\
  (remaining_bits s < 8 * bytes + bits ->
   exists s', read bytes bits s = (Raise EOFError, s')).
Proof.
  intros Hbs Hin Hcache. split.
  - intros Hroom. rewrite <- bit_count_eq in Hroom. rewrite read_normal.
    set (b := bytes + bits / 8) in *. set (k := bits mod 8) in *.
    assert (Hk : k < 8) by (apply Nat.mod_upper_bound; lia).
    assert (Hdiv : k / 8 = 0) by (apply Nat.div_small; exact Hk).
    assert (Hmod : k mod 8 = k) by (apply Nat.mod_small; exact Hk).
    unfold remaining_bits in Hroom.
    destruct (Nat.eq_dec (b * 8 + k) 0) as [Hzero|Hpos].
    { assert (b = 0) as -> by lia. assert (k = 0) as -> by lia.
      eexists _, _. apply read_nothing. }
    destruct (Nat.eqb_spec (bit_shift s) 0) as [Hz|Hnz].
    + destruct (Nat.eq_dec k 0) as [Hk0|Hk0].
      * rewrite Hk0. destruct (read_aligned_bytes b s Hz ltac:(lia) ltac:(lia))
          as (lb & Hread & _).
        eexists _, _. exact Hread.
      * destruct (lookup_lt_is_Some_2 (io_buf s) (io_pos s + b)) as [c Hc];
          [unfold length_ in *; lia|].
        eexists _, _. apply (read_aligned_bits b k s c Hz ltac:(lia) Hc).
    + destruct (le_gt_dec (b * 8 + k) (8 - bit_shift s)) as [Hfit|Hbig].
      * rewrite read_unfold_fits by (rewrite Hdiv, Hmod, Nat.add_0_r; assumption).
        rewrite Hdiv, Hmod, Nat.add_0_r.
        destruct (last_byte s) as [c|] eqn:Hc; [|destruct (Hcache Hnz eq_refl)].
        assert (Hcur : current_byte s = Some c).
        { unfold current_byte. destruct (Nat.eqb_spec (bit_shift s) 0); [lia|].
          exact Hc. }
        eexists _, _. apply except_step.
        rewrite (bind_step _ _ _ _ _ (shift_fits s (b * 8 + k) c ltac:(lia) Hcur)).
        reflexivity.
      * rewrite read_unfold_general
          by (rewrite ?Hdiv, ?Hmod, ?Nat.add_0_r; assumption).
        rewrite Hdiv, Hmod, Nat.add_0_r.
        destruct (read_general_returns (bit_shift s) (b * 8 + k) k s Hbs Hnz
                    (Hcache Hnz) Hbig Hroom) as (vs & s' & Hrun).
        exists vs, s'. apply except_step. exact Hrun.
  - intros Hshort. apply read_past_end; [exact Hbs | exact Hin |].
    rewrite bit_count_eq. exact Hshort.
Qed.

Lemma read_returns_iff_enough_bits_witness :
  let s := mkReplayBuffer [xab; xcd; xef] 1 3 (Some xab) in
  remaining_bits s = 21 /\
  (exists vs s', read 2 5 s = (Ok vs, s')) /\
  (exists s', read 2 6 s = (Raise EOFError, s')).
Proof.
  cbv zeta.
  destruct (read_returns_iff_enough_bits 2 5
              (mkReplayBuffer [xab; xcd; xef] 1 3 (Some xab)))
    as [Hok _]; [cbn; lia | cbn; lia | discriminate|].
  destruct (read_returns_iff_enough_bits 2 6
              (mkReplayBuffer [xab; xcd; xef] 1 3 (Some xab)))
    as [_ Hfail]; [cbn; lia | cbn; lia | discriminate|].
  split; [reflexivity|]. split; [apply Hok | apply Hfail]; vm_compute; lia.
Defined.

Lemma read_byte_is_byte s v s' : read_byte s = (Ok v, s') -> is_byte v.
Proof.
  unfold read_byte. unfold bind at 1, get_bit_shift at 1.
  destruct (Nat.eqb (bit_shift s) 0); intros Hrun.
  - apply bind_ok in Hrun as (b & s1 & _ & Hrun). injection Hrun as <- <-.
    apply is_byte_ord.
  - apply bind_ok in Hrun as (r & s1 & Hread & Hrun).
    destruct (r !! 0) as [v'|] eqn:Hv; [|discriminate]. injection Hrun as <- <-.
    apply read_values in Hread.
    exact (proj1 (Forall_lookup _ _) Hread _ _ Hv).
Qed.

(** X3.  The values handed out are byte values: [shift w] returns a value
    below [2^w], and every value of the list [read] returns, and the value
    [read_byte] returns, is in [0,256). *)
Theorem read_values_are_bytes (s : ReplayBuffer) :
  (forall w r s', shift w s = (Ok r, s') -> (0 <= r < 2 ^ Z.of_nat w)%Z /\ w <= 8) /\
  (forall bytes bits vs s',
     read bytes bits s = (Ok vs, s') -> Forall (fun v => 0 <= v < 256)%Z vs) /\
  (forall v s', read_byte s = (Ok v, s') -> (0 <= v < 256)%Z).
Proof.
  split; [|split].
  - intros w r s' Hrun. apply shift_ok in Hrun as (Hfit & b & _ & -> & _).
    split; [|lia]. rewrite Z.land_ones by lia. apply Z.mod_pos_bound.
    apply Z.pow_pos_nonneg; lia.
  - intros bytes bits vs s' Hrun. exact (read_values _ _ _ _ _ Hrun).
  - intros v s' Hrun. exact (read_byte_is_byte _ _ _ Hrun).
Qed.

Lemma except_raise {A} (m : M A) e0 s e s' :
  except_TypeError m e0 s = (Raise e, s') ->
  e = e0 \/ (m s = (Raise e, s') /\ forall why, e <> TypeError why).
Proof.
  unfold except_TypeError.
  destruct (m s) as [[a|[why| | | | | |]] s1]; intros [= <- <-];
    solve [left; reflexivity | right; split; [reflexivity | discriminate]].
Qed.

Lemma bind_raise_inv {A B} (m : M A) (f : A -> M B) s e s' :
  bind m f s = (Raise e, s') ->
  m s = (Raise e, s') \/ exists a s1, m s = (Ok a, s1) /\ f a s1 = (Raise e, s').
Proof.
  unfold bind. destruct (m s) as [[a|e1] s1]; [eauto|].
  intros [= <- <-]. auto.
Qed.

Lemma read_ord_raises s e s' :
  read_ord s = (Raise e, s') -> e = TypeError OrdLength.
Proof.
  destruct (io_buf s !! io_pos s) as [b|] eqn:Hb.
  - rewrite (read_ord_some _ _ Hb). discriminate.
  - rewrite (read_ord_none _ Hb). intros [= <- _]. reflexivity.
Qed.

Lemma shift_raises (w : nat) s e s' :
  bit_shift s + w <= 8 -> shift w s = (Raise e, s') -> e = EOFError.
Proof.
  intros Hfit. destruct (current_byte s) as [b|] eqn:Hcur.
  - rewrite (shift_fits s w b Hfit Hcur). discriminate.
  - rewrite (shift_no_byte s w Hfit Hcur). intros [= <- _]. reflexivity.
Qed.

Lemma read_base_raises (n : nat) s e s' :
  read_base n s = (Raise e, s') -> e = TypeError OrdLength.
Proof.
  revert s. induction n as [|n IH]; intros s Hrun; cbn [read_base] in Hrun.
  - discriminate.
  - apply bind_raise_inv in Hrun as [Hrun | (b & s1 & _ & Hrun)].
    + exact (read_ord_raises _ _ _ Hrun).
    + apply bind_raise_inv in Hrun as [Hrun | (rest & s2 & _ & Hrun)].
      * exact (IH _ Hrun).
      * discriminate.
Qed.

Lemma read_loop_raises (fuel : nat) e old :
  forall (bit_count : nat) first next raw s err s',
    read_loop fuel e old bit_count first next raw s = (Raise err, s') ->
    err = TypeError OrdLength \/ err = OutOfFuel.
Proof.
  induction fuel as [|fuel IH]; intros bit_count first next raw s err s' Hrun;
    cbn [read_loop] in Hrun.
  - destruct (Nat.ltb 0 bit_count); [|discriminate].
    injection Hrun as <- _. auto.
  - destruct (Nat.ltb 0 bit_count); [|discriminate].
    destruct (Nat.leb bit_count 8).
    + exact (IH _ _ _ _ _ _ _ Hrun).
    + apply bind_raise_inv in Hrun as [Hrun | (nb & s1 & _ & Hrun)].
      * left. exact (read_ord_raises _ _ _ Hrun).
      * exact (IH _ _ _ _ _ _ _ Hrun).
Qed.

Lemma read_general_raises (old bit_count bits : nat) s e s' :
  old < 8 ->
  read_general old bit_count bits s = (Raise e, s') ->
  exists why, e = TypeError why.
Proof.
  intros Hold. unfold read_general. cbv zeta.
  set (new := (old + bits) mod 8).
  assert (Hstate : read_state old new s = (Ok (load_state old new), s)).
  { unfold read_state. destruct (Nat.ltb_spec old 8); [|lia].
    destruct (Nat.ltb_spec new 8) as [|Hge]; [reflexivity|].
    unfold new in Hge. div_lia. }
  rewrite (bind_step _ _ _ _ _ Hstate).
  unfold bind at 1, get_last_byte at 1. intros Hrun.
  apply bind_raise_inv in Hrun as [Hrun | (next & s1 & _ & Hrun)].
  { exists OrdLength. exact (read_ord_raises _ _ _ Hrun). }
  destruct (last_byte s) as [prev|]; [|injection Hrun as <- _; eauto].
  apply bind_raise_inv in Hrun as [Hrun | ([raw next'] & s2 & _ & Hrun)];
    [|discriminate].
  destruct (read_loop_raises _ _ _ _ _ _ _ _ _ _ Hrun) as [->| ->]; [eauto|].
  rewrite (surjective_pairing (read_loop _ _ _ _ _ _ _ _)) in Hrun.
  injection Hrun as Hfst _.
  destruct (read_loop_fuel _ _ _ _ _ _ _ _ (le_n _) Hfst).
Qed.

Lemma read_raises (bytes bits : nat) s e s' :
  bit_shift s < 8 -> read bytes bits s = (Raise e, s') -> e = EOFError.
Proof.
  intros Hbs. rewrite read_normal.
  set (b := bytes + bits / 8). set (k := bits mod 8).
  assert (Hk : k < 8) by (apply Nat.mod_upper_bound; lia).
  assert (Hdiv : k / 8 = 0) by (apply Nat.div_small; exact Hk).
  assert (Hmod : k mod 8 = k) by (apply Nat.mod_small; exact Hk).
  destruct (Nat.eq_dec (b * 8 + k) 0) as [Hzero|Hpos].
  { assert (b = 0) as -> by lia. assert (k = 0) as -> by lia.
    rewrite read_nothing. discriminate. }
  destruct (le_gt_dec (b * 8 + k) (8 - bit_shift s)) as [Hfit|Hbig].
  - rewrite read_unfold_fits by (rewrite Hdiv, Hmod, Nat.add_0_r; assumption).
    rewrite Hdiv, Hmod, Nat.add_0_r. intros Hrun.
    apply except_raise in Hrun as [->|[Hrun _]]; [reflexivity|].
    apply bind_raise_inv in Hrun as [Hrun | (r & s1 & _ & Hrun)]; [|discriminate].
    apply shift_raises in Hrun; [exact Hrun | lia].
  - destruct (Nat.eq_dec (bit_shift s) 0) as [Hz|Hnz].
    + intros Hrun. apply except_raise in Hrun as [->|[Hrun Hne]]; [reflexivity|].
      rewrite Hdiv, Hmod, Nat.add_0_r in Hrun.
      destruct (Nat.eqb_spec (b * 8 + k) 0) as [|_]; [lia|].
      unfold bind at 1, get_bit_shift at 1 in Hrun.
      destruct (Nat.leb_spec (b * 8 + k) (8 - bit_shift s)) as [|_]; [lia|].
      rewrite Hz in Hrun. cbn [Nat.eqb] in Hrun.
      apply bind_raise_inv in Hrun as [Hrun | (base & s1 & Hbase & Hrun)].
      { apply read_base_raises in Hrun. destruct (Hne _ Hrun). }
      destruct (negb (Nat.eqb k 0)); [|discriminate].
      apply bind_raise_inv in Hrun as [Hrun | (r & s2 & _ & Hrun)]; [|discriminate].
      apply shift_raises in Hrun; [exact Hrun|].
      apply read_base_inv in Hbase as [[-> _] | [_ ->]]; cbn; lia.
    + rewrite read_unfold_general
        by (rewrite ?Hdiv, ?Hmod, ?Nat.add_0_r; assumption).
      intros Hrun. apply except_raise in Hrun as [->|[Hrun Hne]]; [reflexivity|].
      apply read_general_raises in Hrun as [why ->]; [|exact Hbs].
      destruct (Hne why eq_refl).
Qed.

Lemma write_chars_bytes (vs : list Z) s :
  Forall is_byte vs -> exists cs, write_chars vs s = (Ok cs, s).
Proof.
  induction 1 as [|v vs Hv _ [cs IH]]; cbn [write_chars].
  - eexists. reflexivity.
  - unfold chr. unfold is_byte in Hv.
    destruct (Z.leb_spec 0 v); [|lia]. destruct (Z.ltb_spec v 256); [|lia].
    cbn [andb]. destruct (Byte.of_N (Z.to_N v)) as [c|] eqn:Hc.
    + rewrite (bind_step _ _ _ _ _ IH). eexists. reflexivity.
    + apply Byte.of_N_None_iff in Hc. lia.
Qed.

(** X4.  In a state with a bit offset below [8], the one exception [read]
    raises is [EOFError]; [read_chars] raises nothing at a byte boundary, and
    from inside a byte nothing but [EOFError]: the values it converts with
    [chr] are always in range. *)
Theorem read_raises_only_eof (s : ReplayBuffer) :
  bit_shift s < 8 ->
  (forall bytes bits e s', read bytes bits s = (Raise e, s') -> e = EOFError) /\
  (forall n e s',
     read_chars n s = (Raise e, s') -> e = EOFError /\ bit_shift s <> 0).
Proof.
  intros Hbs. split.
  - intros bytes bits e s'. apply read_raises. exact Hbs.
  - intros n e s'. unfold read_chars. unfold bind at 1, get_bit_shift at 1.
    destruct (Nat.eqb_spec (bit_shift s) 0) as [Hz|Hnz]; [discriminate|].
    intros Hrun. split; [|exact Hnz].
    apply bind_raise_inv in Hrun as [Hrun | (vs & s1 & Hread & Hrun)].
    + exact (read_raises _ _ _ _ _ Hbs Hrun).
    + destruct (write_chars_bytes vs s1 (read_values _ _ _ _ _ Hread)) as [cs Hcs].
      rewrite Hcs in Hrun. discriminate.
Qed.

Lemma read_raises_only_eof_witness :
  fst (read_chars 2 (mkReplayBuffer [xab; xcd] 1 3 (Some xab))) = Raise EOFError.
Proof.
  destruct (read_chars 2 (mkReplayBuffer [xab; xcd] 1 3 (Some xab)))
    as [[cs|e] s'] eqn:Hrun; [vm_compute in Hrun; discriminate|].
  destruct (read_raises_only_eof (mkReplayBuffer [xab; xcd] 1 3 (Some xab)))
    as [_ Hchars]; [cbn; lia|].
  destruct (Hchars _ _ _ Hrun) as [-> _]. reflexivity.
Defined.

(** ** Whole bytes read from inside a byte *)

Lemma straddled_length (o high : Z) (next : byte) (rest : list byte) :
  length (straddled o high next rest) = S (length rest).
Proof.
  revert high next. induction rest as [|n rest IH]; intros high next;
    cbn [straddled length]; [reflexivity|]. rewrite IH. reflexivity.
Qed.

Lemma byte_high_bits (x i : Z) : is_byte x -> (8 <= i)%Z -> Z.testbit x i = false.
Proof.
  intros Hx Hi. rewrite <- (Z.mod_small x (2 ^ 8)) by exact Hx.
  apply Z.mod_pow2_bits_high. lia.
Qed.

(** Masking with [0xFF ^ (2**o - 1)] keeps bits [o..7] where they are. *)
Lemma land_hi_mask (x : Z) (o : nat) :
  is_byte x -> o <= 8 ->
  Z.land x (Z.lxor 255 (2 ^ Z.of_nat o - 1))
  = Z.shiftl (x / 2 ^ Z.of_nat o) (Z.of_nat o).
Proof.
  intros Hx Ho. rewrite Z.sub_1_r, <- Z.ones_equiv.
  rewrite <- Z.shiftr_div_pow2 by lia.
  apply Z.bits_inj'. intros i Hi.
  rewrite Z.land_spec, Z.lxor_spec. change 255%Z with (Z.ones 8).
  rewrite !Z.testbit_ones_nonneg by lia.
  destruct (Z.ltb_spec i (Z.of_nat o)) as [Hlt|Hge].
  - rewrite Z.shiftl_spec_low by lia.
    destruct (Z.ltb_spec i 8); [|lia]. apply andb_false_r.
  - rewrite Z.shiftl_spec, Z.shiftr_spec by lia.
    replace (i - Z.of_nat o + Z.of_nat o)%Z with i by lia.
    destruct (Z.ltb_spec i 8) as [Hlt8|Hge8].
    + apply andb_true_r.
    + rewrite byte_high_bits by assumption. reflexivity.
Qed.

(** Masking with [0xFF - 2**(8-o) + 1] and shifting right by [8 - o] gives
    the top [o] bits. *)
Lemma land_lo_mask_inv (x : Z) (o : nat) :
  is_byte x -> o <= 8 ->
  Z.shiftr (Z.land x (255 - 2 ^ Z.of_nat (8 - o) + 1)) (Z.of_nat (8 - o))
  = (x / 2 ^ (8 - Z.of_nat o))%Z.
Proof.
  intros Hx Ho. replace (8 - Z.of_nat o)%Z with (Z.of_nat (8 - o)) by lia.
  set (k := Z.of_nat (8 - o)).
  assert (Hk : (0 <= k <= 8)%Z) by (unfold k; lia).
  rewrite <- Z.shiftr_div_pow2 by lia.
  apply Z.bits_inj'. intros i Hi.
  rewrite !Z.shiftr_spec, Z.land_spec by lia.
  destruct (Z.ltb_spec (i + k) 8) as [Hlt|Hge].
  - replace (255 - 2 ^ k + 1)%Z with (Z.shiftl (Z.ones (8 - k)) k).
    + rewrite Z.shiftl_spec, Z.testbit_ones_nonneg by lia.
      destruct (Z.ltb_spec (i + k - k) (8 - k)); [|lia]. apply andb_true_r.
    + rewrite Z.shiftl_mul_pow2, Z.ones_equiv by lia.
      rewrite <- Z.sub_1_r, Z.mul_sub_distr_r, <- Z.pow_add_r by lia.
      replace (8 - k + k)%Z with 8%Z by lia. change (2 ^ 8)%Z with 256%Z. lia.
  - rewrite byte_high_bits by (assumption || lia). reflexivity.
Qed.

Lemma masks_inside_byte (o : nat) (b : byte) :
  0 < o < 8 ->
  let e := load_state o o in
  adjustment e = 0%Z /\
  Z.land (ord b) (hi_mask e) = Z.shiftl (ord b / 2 ^ Z.of_nat o) (Z.of_nat o) /\
  Z.shiftr (Z.land (ord b) (lo_mask_inv e)) (Z.of_nat (old_bit_shift_inv e))
    = (ord b / 2 ^ (8 - Z.of_nat o))%Z /\
  Z.land (ord b) (last_mask e) = (ord b mod 2 ^ Z.of_nat o)%Z /\
  Z.shiftl (Z.land (ord b) (hi_mask_inv e)) (Z.of_nat o)
    = Z.shiftl (ord b mod 2 ^ (8 - Z.of_nat o)) (Z.of_nat o).
Proof.
  intros Ho e.
  assert (Hinv : hi_mask_inv e = Z.ones (Z.of_nat (8 - o)))
    by (apply hi_mask_inv_ones; lia).
  unfold e in *. unfold load_state in *.
  destruct (Nat.eqb_spec o 0) as [|_]; [lia|].
  cbn [adjustment hi_mask lo_mask_inv last_mask old_bit_shift_inv lo_mask] in *.
  split; [lia|]. split; [apply land_hi_mask; [apply is_byte_ord | lia]|].
  split; [apply land_lo_mask_inv; [apply is_byte_ord | lia]|].
  split.
  - rewrite Z.sub_1_r, <- Z.ones_equiv. apply Z.land_ones. lia.
  - rewrite Hinv, Z.land_ones by lia.
    replace (Z.of_nat (8 - o)) with (8 - Z.of_nat o)%Z by lia. reflexivity.
Qed.

Lemma take_drop_cons {A} (l : list A) (p k : nat) (x : A) (rest : list A) :
  take (S k) (drop p l) = x :: rest ->
  l !! p = Some x /\ take k (drop (S p) l) = rest.
Proof.
  intros H. destruct (drop p l) as [|y l'] eqn:Hd; [discriminate|].
  cbn [take] in H. injection H as -> H.
  assert (Hx : l !! p = Some x)
    by (rewrite <- (Nat.add_0_r p), <- lookup_drop, Hd; reflexivity).
  split; [exact Hx|]. rewrite (drop_S _ _ _ Hx) in Hd.
  injection Hd as <-. exact H.
Qed.

Lemma last_cons {A} (x d : A) (l : list A) : List.last (x :: l) d = List.last l x.
Proof.
  revert x d. induction l as [|y l IH]; intros x d; [reflexivity|].
  change (List.last (x :: y :: l) d) with (List.last (y :: l) d).
  rewrite !IH. reflexivity.
Qed.

Lemma read_loop_done (fuel : nat) e old first next raw s :
  read_loop fuel e old 0 first next raw s = (Ok (raw, next), s).
Proof. destruct fuel; reflexivity. Qed.

Lemma read_loop_straddled (o : nat) :
  0 < o < 8 ->
  forall rest fuel high next raw s,
    8 * length rest + o <= fuel ->
    take (length rest) (drop (io_pos s) (io_buf s)) = rest ->
    read_loop fuel (load_state o o) o (8 * length rest + o)
              (Z.shiftl high (Z.of_nat o)) next raw s
    = (Ok (raw ++ straddled (Z.of_nat o) high next rest, List.last rest next),
       with_pos s (io_pos s + length rest)).
Proof.
  intros Ho. induction rest as [|n rest IH]; intros fuel high next raw s Hfuel Hrest.
  - cbn [length] in *. replace (8 * 0 + o) with o in * by lia.
    rewrite Nat.add_0_r, with_pos_id.
    destruct fuel as [|fuel]; [lia|]. cbn [read_loop].
    destruct (Nat.ltb_spec 0 o); [|lia]. destruct (Nat.leb_spec o 8); [|lia].
    destruct (masks_inside_byte o next Ho) as (Hadj & _ & _ & Hlast & _).
    rewrite Hadj. cbn [Z.ltb Z.compare]. rewrite read_loop_done.
    rewrite Hlast. cbn [straddled List.last].
    rewrite lor_group; [reflexivity | lia |].
    apply Z.mod_pos_bound. apply Z.pow_pos_nonneg; lia.
  - cbn [length] in *.
    destruct fuel as [|fuel]; [lia|]. cbn [read_loop].
    destruct (Nat.ltb_spec 0 (8 * S (length rest) + o)); [|lia].
    destruct (Nat.leb_spec (8 * S (length rest) + o) 8); [lia|].
    destruct (take_drop_cons _ _ _ _ _ Hrest) as [Hn Hrest'].
    rewrite (bind_step _ _ _ _ _ (read_ord_some _ _ Hn)).
    destruct (masks_inside_byte o next Ho) as (_ & _ & Hsecond & _ & Hfirst).
    rewrite Hsecond, Hfirst.
    replace (8 * S (length rest) + o - 8) with (8 * length rest + o) by lia.
    rewrite IH.
    + cbn [io_pos with_pos straddled]. rewrite <- app_assoc. cbn [app].
      rewrite lor_group.
      * unfold with_pos. cbn [io_buf io_pos bit_shift last_byte].
        replace (S (io_pos s) + length rest) with (io_pos s + S (length rest))
          by lia.
        rewrite last_cons. reflexivity.
      * lia.
      * split; [apply Z.div_pos; [apply ord_range | apply Z.pow_pos_nonneg; lia]|].
        apply Z.div_lt_upper_bound; [apply Z.pow_pos_nonneg; lia|].
        rewrite <- Z.pow_add_r by lia.
        replace (8 - Z.of_nat o + Z.of_nat o)%Z with 8%Z by lia.
        apply ord_range.
    + lia.
    + exact Hrest'.
Qed.

(** A read of whole bytes from inside a byte. *)
Lemma read_inside_byte s (prev next : byte) (rest : list byte) :
  0 < bit_shift s < 8 ->
  last_byte s = Some prev ->
  take (S (length rest)) (drop (io_pos s) (io_buf s)) = next :: rest ->
  let o := Z.of_nat (bit_shift s) in
  read (S (length rest)) 0 s
  = (Ok (straddled o (ord prev / 2 ^ o) next rest),
     mkReplayBuffer (io_buf s) (io_pos s + S (length rest)) (bit_shift s)
                    (Some (List.last rest next))).
Proof.
  intros Ho Hprev Hbytes o.
  destruct (take_drop_cons _ _ _ _ _ Hbytes) as [Hnext Hrest].
  rewrite read_unfold_general
    by (change (0 / 8) with 0; change (0 mod 8) with 0; lia).
  change (0 / 8) with 0. change (0 mod 8) with 0. rewrite !Nat.add_0_r.
  apply except_step. unfold read_general. cbv zeta.
  rewrite Nat.add_0_r, (Nat.mod_small (bit_shift s) 8) by lia.
  assert (Hstate : read_state (bit_shift s) (bit_shift s) s
                   = (Ok (load_state (bit_shift s) (bit_shift s)), s)).
  { unfold read_state. destruct (Nat.ltb_spec (bit_shift s) 8); [|lia].
    reflexivity. }
  rewrite (bind_step _ _ _ _ _ Hstate).
  unfold bind at 1, get_last_byte at 1.
  rewrite (bind_step _ _ _ _ _ (read_ord_some _ _ Hnext)).
  rewrite Hprev, load_state_inv.
  destruct (masks_inside_byte (bit_shift s) prev Ho) as (_ & Hhi & _).
  rewrite Hhi.
  replace (S (length rest) * 8 - (8 - bit_shift s))
    with (8 * length rest + bit_shift s) by lia.
  rewrite (bind_step _ _ _ _ _
             (read_loop_straddled (bit_shift s) Ho rest _ _ next []
                (with_pos s (S (io_pos s))) (le_n _) Hrest)).
  cbn. repeat f_equal. lia.
Qed.

(** X5.  [read_byte] from inside a byte, [o] bits of the cached byte being
    consumed: the value keeps bits [o..7] of the cached byte where they are
    and takes its low [o] bits from the low bits of the next byte; the next
    byte becomes the cached byte and the bit offset stays [o]. *)
Theorem read_byte_inside_byte s (prev next : byte) :
  0 < bit_shift s < 8 ->
  last_byte s = Some prev ->
  io_buf s !! io_pos s = Some next ->
  let o := Z.of_nat (bit_shift s) in
  read_byte s
  = (Ok (ord prev / 2 ^ o * 2 ^ o + ord next mod 2 ^ o)%Z,
     mkReplayBuffer (io_buf s) (S (io_pos s)) (bit_shift s) (Some next)).
Proof.
  intros Ho Hprev Hnext o.
  unfold read_byte, bind at 1, get_bit_shift at 1.
  destruct (Nat.eqb_spec (bit_shift s) 0) as [|_]; [lia|].
  assert (Hbytes : take (S (length (@nil byte))) (drop (io_pos s) (io_buf s))
                   = [next])
    by (rewrite (drop_S _ _ _ Hnext); reflexivity).
  rewrite (bind_step _ _ _ _ _ (read_inside_byte s prev next [] Ho Hprev Hbytes)).
  cbn [straddled lookup list_lookup length List.last]. unfold ret. subst o.
  f_equal; [f_equal; ring | f_equal; lia].
Qed.

Lemma read_byte_inside_byte_witness :
  read_byte (mkReplayBuffer [xab; xcd] 1 3 (Some xab))
  = (Ok 173%Z, mkReplayBuffer [xab; xcd] 2 3 (Some xcd)).
Proof.
  exact (read_byte_inside_byte (mkReplayBuffer [xab; xcd] 1 3 (Some xab))
           xab xcd ltac:(cbn; lia) eq_refl eq_refl).
Defined.

(** X6.  [read_chars] of [k + 1] bytes from inside a byte, the bytes being
    there: the characters have the values of [straddled].  Read in one call,
    the bytes before the last give the top [o] bits of theirs to the value
    before, which [read_byte] called for each byte does not do. *)
Theorem read_chars_inside_byte s (prev next : byte) (rest : list byte) :
  0 < bit_shift s < 8 ->
  last_byte s = Some prev ->
  take (S (length rest)) (drop (io_pos s) (io_buf s)) = next :: rest ->
  let o := Z.of_nat (bit_shift s) in
  exists cs,
    read_chars (S (length rest)) s
    = (Ok cs, mkReplayBuffer (io_buf s) (io_pos s + S (length rest))
                (bit_shift s) (Some (List.last rest next))) /\
    map ord cs = straddled o (ord prev / 2 ^ o) next rest /\
    length cs = S (length rest).
Proof.
  intros Ho Hprev Hbytes o.
  pose proof (read_inside_byte s prev next rest Ho Hprev Hbytes) as Hread.
  cbv zeta in Hread. fold o in Hread.
  destruct (write_chars_bytes _
              (mkReplayBuffer (io_buf s) (io_pos s + S (length rest))
                 (bit_shift s) (Some (List.last rest next)))
              (read_values _ _ _ _ _ Hread)) as [cs Hcs].
  exists cs.
  destruct (write_chars_ok _ _ _ _ Hcs) as [_ Hmap].
  split; [|split; [exact Hmap|]].
  - unfold read_chars, bind at 1, get_bit_shift at 1.
    destruct (Nat.eqb_spec (bit_shift s) 0) as [|_]; [lia|].
    rewrite (bind_step _ _ _ _ _ Hread). exact Hcs.
  - rewrite <- (length_map ord), Hmap. apply straddled_length.
Qed.

Lemma read_chars_inside_byte_witness :
  let s := mkReplayBuffer [xab; xcd; xef] 1 3 (Some xab) in
  (exists cs,
     read_chars 2 s = (Ok cs, mkReplayBuffer [xab; xcd; xef] 3 3 (Some xef)) /\
     map ord cs = [174; 111]%Z) /\
  (a <- read_byte ;; b <- read_byte ;; ret [a; b]) s
  = (Ok [173; 207]%Z, mkReplayBuffer [xab; xcd; xef] 3 3 (Some xef)).
Proof.
  cbv zeta.
  destruct (read_chars_inside_byte
              (mkReplayBuffer [xab; xcd; xef] 1 3 (Some xab)) xab xcd [xef]
              ltac:(cbn; lia) eq_refl eq_refl) as (cs & Hrun & Hmap & _).
  split; [|vm_compute; reflexivity].
  exists cs. split; [exact Hrun | exact Hmap].
Defined.

(** ** [seek], [read_range] and [peek] *)

(** X7.  What [seek] does.  At a byte boundary, or when the target is
    offset [0], it moves the position to the target, clamped at [0], and
    nothing else; the target may be past the end.  Inside a byte it also
    reloads the cached byte from the byte before the target, and when there
    is no such byte, the target being past the end, it raises the
    [TypeError] of [ord('')] and leaves the position one before the
    target. *)
Theorem seek_outcome (position : Z) (mode : whence) s :
  let p := io_seek_target position mode s in
  (bit_shift s = 0 \/ p = 0 -> seek position mode s = (Ok tt, with_pos s p)) /\
  (forall b, bit_shift s <> 0 -> p <> 0 -> io_buf s !! (p - 1) = Some b ->
     seek position mode s
     = (Ok tt, mkReplayBuffer (io_buf s) p (bit_shift s) (Some b))) /\
  (bit_shift s <> 0 -> length_ s < p ->
     seek position mode s = (Raise (TypeError OrdLength), with_pos s (p - 1))).
Proof.
  intros p.
  assert (Hunfold : seek position mode s
            = if negb (Nat.eqb p 0) && negb (Nat.eqb (bit_shift s) 0)
              then (b <- read_ord ;; set_last_byte (Some b)) (with_pos s (p - 1))
              else (Ok tt, with_pos s p)).
  { unfold seek, io_seek, io_tell, get_bit_shift. unfold bind at 1 2 3.
    cbn [with_pos io_pos bit_shift]. fold p.
    destruct (negb (Nat.eqb p 0) && negb (Nat.eqb (bit_shift s) 0));
      [|reflexivity].
    unfold bind at 1. f_equal. unfold with_pos, io_seek_target.
    cbn [io_buf io_pos bit_shift last_byte]. f_equal. lia. }
  rewrite Hunfold. split; [|split].
  - intros [Hz | Hz]; rewrite Hz; [|reflexivity].
    rewrite andb_false_r. reflexivity.
  - intros b Hbs Hp Hb.
    destruct (Nat.eqb_spec p 0) as [|_]; [contradiction|].
    destruct (Nat.eqb_spec (bit_shift s) 0) as [|_]; [contradiction|].
    cbn [negb andb].
    assert (Hord : read_ord (with_pos s (p - 1))
                   = (Ok b, with_pos (with_pos s (p - 1)) (S (p - 1))))
      by (apply read_ord_some; exact Hb).
    rewrite (bind_step _ _ _ _ _ Hord). unfold set_last_byte, with_pos.
    cbn [io_buf io_pos bit_shift last_byte]. repeat f_equal. lia.
  - intros Hbs Hp.
    destruct (Nat.eqb_spec p 0) as [|_]; [lia|].
    destruct (Nat.eqb_spec (bit_shift s) 0) as [|_]; [contradiction|].
    cbn [negb andb].
    apply bind_raise, read_ord_none, lookup_ge_None.
    unfold length_ in Hp. cbn [io_buf io_pos with_pos]. lia.
Qed.


Lemma encode_hex_length (chars : list byte) :
  String.length (encode_hex chars) = 2 * length chars.
Proof.
  induction chars as [|b rest IH]; [reflexivity|].
  cbn [encode_hex String.length length]. rewrite IH. lia.
Qed.

(** X9.  At a byte boundary [peek] never raises: it returns the hex of the
    [n] bytes at the position, of the bytes that are left when there are
    fewer, two digits a byte, and leaves the buffer object as it was. *)
Theorem peek_at_byte_boundary (n : nat) s :
  bit_shift s = 0 ->
  exists r,
    peek n s = (Ok r, s) /\
    r = encode_hex (take n (drop (io_pos s) (io_buf s))) /\
    String.length r = 2 * Nat.min n (length_ s - io_pos s).
Proof.
  intros Hbs. eexists. split; [apply peek_aligned; exact Hbs|].
  split; [reflexivity|].
  rewrite encode_hex_length, length_take, length_drop. reflexivity.
Qed.

Lemma peek_at_byte_boundary_witness :
  peek 4 (mkReplayBuffer [x4d; x50; x51] 1 0 None)
  = (Ok "5051"%string, mkReplayBuffer [x4d; x50; x51] 1 0 None).
Proof.
  destruct (peek_at_byte_boundary 4 (mkReplayBuffer [x4d; x50; x51] 1 0 None)
              eq_refl) as (r & Hrun & -> & _).
  exact Hrun.
Defined.

(** ** The decoders *)

(** X10.  A [read_bitmask] that returns has read a length byte [n] and then
    exactly [n] bits; its result holds [n] booleans, one when [n] is [0], and
    boolean [i] is bit [i] of the integer packed from the values read, the
    first value being the least significant byte. *)
Theorem read_bitmask_bits s (mask : list bool) s' :
  read_bitmask s = (Ok mask, s') ->
  exists n s1 vs,
    read_byte s = (Ok n, s1) /\
    read 0 (Z.to_nat n) s1 = (Ok vs, s') /\
    (0 <= n < 256)%Z /\
    length mask = Nat.max 1 (Z.to_nat n) /\
    (forall i, i < length mask ->
       mask !! i = Some (Z.testbit (pack_mask vs) (Z.of_nat i))) /\
    remaining_bits s' + Z.to_nat n = remaining_bits s1.
Proof.
  intros Hrun.
  destruct (read_bitmask_ok _ _ _ Hrun) as (n & s1 & vs & Hb & Hread & Hmask & Hlen).
  exists n, s1, vs. split; [exact Hb|]. split; [exact Hread|].
  split; [exact (read_byte_is_byte _ _ _ Hb)|]. split; [exact Hlen|]. split.
  - intros i Hi. rewrite Hlen in Hi. rewrite Hmask.
    rewrite list_lookup_fmap, lookup_seq_lt by exact Hi. reflexivity.
  - rewrite read_normal in Hread.
    apply read_normal_ok in Hread as (_ & _ & Hrem);
      [|apply Nat.mod_upper_bound; lia].
    rewrite <- Hrem. div_lia.
Qed.

Lemma read_bitmask_bits_witness :
  exists mask s',
    read_bitmask (init [x0b; x93; x05]) = (Ok mask, s') /\
    length mask = 11 /\ mask !! 1 = Some true /\ mask !! 9 = Some false.
Proof.
  destruct (read_bitmask (init [x0b; x93; x05])) as [[mask|e] s'] eqn:Hrun;
    [|vm_compute in Hrun; discriminate].
  destruct (read_bitmask_bits _ _ _ Hrun)
    as (n & s1 & vs & Hb & Hread & _ & Hlen & Hbits & _).
  injection Hb as <- <-.
  assert (Hvs : vs = [147; 5]%Z) by (vm_compute in Hread; congruence).
  subst vs. exists mask, s'. split; [reflexivity|]. split; [exact Hlen|].
  split; [apply (Hbits 1) | apply (Hbits 9)]; rewrite Hlen; vm_compute; lia.
Defined.

Lemma read_count_range s c s' :
  read_count s = (Ok c, s') -> (0 <= c <= 127)%Z.
Proof.
  unfold read_count. intros Hrun.
  apply bind_ok in Hrun as (b & s1 & Hb & Hrun). injection Hrun as <- <-.
  pose proof (read_byte_is_byte _ _ _ Hb) as Hr. unfold is_byte in Hr.
  div_lia.
Qed.

Lemma for_range_length {A} (n : nat) (m : M A) s l s' :
  for_range n m s = (Ok l, s') -> length l = n.
Proof.
  revert s l. induction n as [|n IH]; intros s l Hrun; cbn [for_range] in Hrun.
  - injection Hrun as <- <-. reflexivity.
  - apply bind_ok in Hrun as (a & s1 & _ & Hrun).
    apply bind_ok in Hrun as (rest & s2 & Hrest & Hrun).
    injection Hrun as <- <-. cbn. rewrite (IH _ _ Hrest). reflexivity.
Qed.

Lemma dict_set_keys (data : list (Z * value)) (key : Z) (v : value) :
  (In key (map fst data) -> map fst (dict_set data key v) = map fst data) /\
  (~ In key (map fst data) -> map fst (dict_set data key v) = map fst data ++ [key]).
Proof.
  induction data as [|[k w] rest [IHin IHout]]; cbn [dict_set map fst app In].
  - split; [contradiction | reflexivity].
  - destruct (Z.eqb_spec k key) as [->|Hne]; cbn [map fst].
    + split; [reflexivity | intros Hn; destruct Hn; auto].
    + split.
      * intros [Heq | Hin]; [contradiction|]. rewrite (IHin Hin). reflexivity.
      * intros Hn. rewrite IHout by auto. reflexivity.
Qed.

Lemma dict_set_keys_ok data key v :
  keys_ok data -> (0 <= key <= 127)%Z -> keys_ok (dict_set data key v).
Proof.
  intros [Hnd Hall] Hkey. destruct (dict_set_keys data key v) as [Hin Hout].
  destruct (in_dec Z.eq_dec key (map fst data)) as [H|H].
  - unfold keys_ok. rewrite (Hin H). auto.
  - unfold keys_ok. rewrite (Hout H). split.
    + apply NoDup_app. split; [exact Hnd|]. split.
      * intros x Hx Hk. apply list_elem_of_singleton in Hk. subst x.
        apply H, list_elem_of_In, Hx.
      * apply NoDup_singleton.
    + apply Forall_app. split; [exact Hall|]. constructor; [exact Hkey | constructor].
Qed.

Lemma for_pairs_keys_ok (n : nat) (entry : M (Z * value)) :
  (forall s kv s', entry s = (Ok kv, s') -> (0 <= fst kv <= 127)%Z) ->
  forall data s out s',
    keys_ok data ->
    for_pairs n entry data s = (Ok out, s') ->
    keys_ok out /\ length out <= length data + n.
Proof.
  intros Hentry. induction n as [|n IH]; intros data s out s' Hok Hrun;
    cbn [for_pairs] in Hrun.
  - injection Hrun as <- <-. split; [exact Hok | lia].
  - apply bind_ok in Hrun as (kv & s1 & Hkv & Hrun).
    apply IH in Hrun as [Hout Hlen].
    + split; [exact Hout|].
      assert (length (dict_set data (fst kv) (snd kv)) <= S (length data)); [|lia].
      clear. induction data as [|[k w] rest IHd]; cbn [dict_set length]; [lia|].
      destruct (k =? fst kv)%Z; cbn [length]; lia.
    + apply dict_set_keys_ok; [exact Hok | exact (Hentry _ _ _ Hkv)].
Qed.

Lemma read_chars_length (n : nat) s cs s' :
  read_chars n s = (Ok cs, s') -> length cs <= n.
Proof.
  intros Hrun.
  apply read_chars_ok in Hrun as [[_ Hrun] | [_ (vs & Hrun & Hmap)]].
  - apply read_basic_ok in Hrun as (-> & _). rewrite length_take. lia.
  - rewrite read_normal in Hrun.
    apply read_normal_ok in Hrun as (_ & Hlen & _); [|cbn; lia].
    rewrite <- (length_map ord), Hmap, Hlen. div_lia.
Qed.

(** X11.  The containers [read_data_struct] returns are bounded by the count
    byte, which is halved: a string has at most 127 characters, a list at
    most 127 elements, and a dict at most 127 entries, whose keys are
    distinct integers of [0,127]: a key read twice keeps one entry. *)
Theorem read_data_struct_containers s (v : value) s' :
  read_data_struct s = (Ok v, s') ->
  match v with
  | PyStr cs => length cs <= 127
  | PyList l => length l <= 127
  | PyDict d =>
      length d <= 127 /\ NoDup (map fst d) /\
      Forall (fun k => 0 <= k <= 127)%Z (map fst d)
  | PyInt _ => True
  end.
Proof.
  intros Hrun.
  destruct (read_byte s) as [[d|e] s1] eqn:Hb.
  2: { unfold read_data_struct, bind at 1, bytes_left at 1 in Hrun.
       rewrite read_data_struct_fuel_S in Hrun.
       rewrite (bind_raise _ _ _ _ _ Hb) in Hrun. discriminate. }
  rewrite (read_data_struct_unfold s d s1 Hb) in Hrun.
  unfold read_data_struct_body in Hrun.
  destruct (Z.eqb_spec d 2) as [_|_].
  { apply bind_ok in Hrun as (c & s2 & Hc & Hrun).
    apply bind_ok in Hrun as (cs & s3 & Hcs & Hrun).
    injection Hrun as <- <-. apply read_count_range in Hc.
    apply read_chars_length in Hcs. lia. }
  destruct (Z.eqb_spec d 4) as [_|_].
  { apply bind_ok in Hrun as (? & s2 & _ & Hrun).
    apply bind_ok in Hrun as (c & s3 & Hc & Hrun).
    apply bind_ok in Hrun as (l & s4 & Hl & Hrun).
    injection Hrun as <- <-. apply read_count_range in Hc.
    apply for_range_length in Hl. lia. }
  destruct (Z.eqb_spec d 5) as [_|_].
  { apply bind_ok in Hrun as (c & s2 & Hc & Hrun).
    apply bind_ok in Hrun as (data & s3 & Hdata & Hrun).
    injection Hrun as <- <-. apply read_count_range in Hc.
    apply for_pairs_keys_ok in Hdata as [[Hnd Hall] Hlen].
    - cbn [length] in Hlen. split; [lia | auto].
    - intros s0 kv s0' Hkv.
      apply bind_ok in Hkv as (k & s4 & Hk & Hkv).
      apply bind_ok in Hkv as (w & s5 & _ & Hkv).
      injection Hkv as <- <-. exact (read_count_range _ _ _ Hk).
    - split; constructor. }
  destruct (Z.eqb_spec d 6) as [_|_].
  { apply bind_ok in Hrun as (? & ? & _ & Hrun). injection Hrun as <- <-. exact I. }
  destruct (Z.eqb_spec d 7) as [_|_].
  { apply bind_ok in Hrun as (? & ? & _ & Hrun). injection Hrun as <- <-. exact I. }
  destruct (Z.eqb_spec d 9) as [_|_].
  { apply bind_ok in Hrun as (? & ? & _ & Hrun). injection Hrun as <- <-. exact I. }
  discriminate.
Qed.

Lemma read_data_struct_containers_witness :
  exists d s',
    read_data_struct (init [x05; x04; x02; x06; x07; x02; x06; x09])
      = (Ok (PyDict d), s') /\
    length d <= 127 /\ NoDup (map fst d).
Proof.
  destruct (read_data_struct (init [x05; x04; x02; x06; x07; x02; x06; x09]))
    as [[v|e] s'] eqn:Hrun; [|vm_compute in Hrun; discriminate].
  pose proof (read_data_struct_containers _ _ _ Hrun) as Hv.
  destruct v as [| |d|]; try (vm_compute in Hrun; discriminate).
  exists d, s'. split; [reflexivity|]. destruct Hv as (Hlen & Hnd & _). auto.
Defined.

Lemma lor_below (k a b : Z) :
  (0 <= k)%Z -> (0 <= a < 2 ^ k)%Z -> (0 <= b < 2 ^ k)%Z ->
  (0 <= Z.lor a b < 2 ^ k)%Z.
Proof.
  intros Hk Ha Hb.
  assert (H : Z.lor a b = Z.land (Z.lor a b) (Z.ones k)).
  { rewrite Z.land_lor_distr_l, !Z.land_ones by lia.
    rewrite !Z.mod_small by lia. reflexivity. }
  rewrite H, Z.land_ones by lia. apply Z.mod_pos_bound.
  apply Z.pow_pos_nonneg; lia.
Qed.

Lemma le_int_range (chars : list byte) :
  (0 <= le_int chars < 256 ^ Z.of_nat (length chars))%Z.
Proof.
  induction chars as [|b rest IH]; [cbn; lia|].
  change (le_int (b :: rest)) with (ord b + 256 * le_int rest)%Z.
  cbn [length]. rewrite Nat2Z.inj_succ, Z.pow_succ_r by lia.
  pose proof (ord_range b). lia.
Qed.

Lemma be_int_snoc (chars : list byte) (b : byte) :
  be_int (chars ++ [b]) = (be_int chars * 256 + ord b)%Z.
Proof. unfold be_int. rewrite foldl_app. reflexivity. Qed.

Lemma be_int_range (chars : list byte) :
  (0 <= be_int chars < 256 ^ Z.of_nat (length chars))%Z.
Proof.
  induction chars as [|b rest IH] using rev_ind; [cbn; lia|].
  rewrite be_int_snoc, length_app. cbn [length].
  replace (Z.of_nat (length rest + 1)) with (Z.succ (Z.of_nat (length rest))) by lia.
  rewrite Z.pow_succ_r by lia. pose proof (ord_range b). lia.
Qed.

Lemma read_short_range e s h s' :
  read_short e s = (Ok h, s') -> (0 <= h < 65536)%Z.
Proof.
  unfold read_short. unfold bind at 1, get_bit_shift at 1. intros Hrun.
  apply bind_ok in Hrun as (chars & s1 & _ & Hun).
  unfold struct_unpack in Hun.
  destruct (Nat.eqb_spec (length chars) 2) as [Hlen|]; [|discriminate].
  injection Hun as <- _.
  pose proof (le_int_range chars) as Hle. pose proof (be_int_range chars) as Hbe.
  rewrite Hlen in Hle, Hbe. destruct e; assumption.
Qed.

(** X12.  The frame count [read_timestamp] returns is below [2^30]: with a
    first byte [first], it has the six high bits of [first] and eight bits
    for each of the [first mod 4] bytes that follow. *)
Theorem read_timestamp_range s (t : Z) s' :
  read_timestamp s = (Ok t, s') ->
  exists first s1,
    read_byte s = (Ok first, s1) /\
    (0 <= t < 2 ^ (6 + 8 * (first mod 4)))%Z /\
    (0 <= t < 2 ^ 30)%Z.
Proof.
  unfold read_timestamp. intros Hrun.
  apply bind_ok in Hrun as (first & s1 & Hfirst & Hrun).
  exists first, s1. split; [exact Hfirst|].
  pose proof (read_byte_is_byte _ _ _ Hfirst) as Hf. unfold is_byte in Hf.
  assert (Hcount : Z.land first 3 = (first mod 4)%Z)
    by (change 3%Z with (Z.ones 2); rewrite Z.land_ones by lia; reflexivity).
  assert (Htime : (0 <= Z.shiftr first 2 < 64)%Z)
    by (rewrite Z.shiftr_div_pow2 by lia; change (2 ^ 2)%Z with 4%Z; div_lia).
  rewrite Hcount in Hrun.
  assert (Hmain : (0 <= t < 2 ^ (6 + 8 * (first mod 4)))%Z).
  { destruct (Z.eqb_spec (first mod 4) 0) as [->|_].
    { injection Hrun as <- _. cbn. lia. }
    destruct (Z.eqb_spec (first mod 4) 1) as [->|_].
    { apply bind_ok in Hrun as (b & s2 & Hb & Hret). injection Hret as <- _.
      pose proof (read_byte_is_byte _ _ _ Hb) as Hbr. unfold is_byte in Hbr.
      apply lor_below; [lia | | cbn; lia].
      rewrite Z.shiftl_mul_pow2 by lia. cbn. lia. }
    destruct (Z.eqb_spec (first mod 4) 2) as [->|_].
    { apply bind_ok in Hrun as (h & s2 & Hh & Hret). injection Hret as <- _.
      apply read_short_range in Hh.
      apply lor_below; [lia | | cbn; lia].
      rewrite Z.shiftl_mul_pow2 by lia. cbn. lia. }
    destruct (Z.eqb_spec (first mod 4) 3) as [->|_]; [|discriminate].
    apply bind_ok in Hrun as (h & s2 & Hh & Hrun).
    apply bind_ok in Hrun as (b & s3 & Hb & Hret). injection Hret as <- _.
    apply read_short_range in Hh.
    pose proof (read_byte_is_byte _ _ _ Hb) as Hbr. unfold is_byte in Hbr.
    apply lor_below; [lia | | cbn; lia].
    apply lor_below; [lia | |].
    - rewrite Z.shiftl_mul_pow2 by lia. cbn. lia.
    - rewrite Z.shiftl_mul_pow2 by lia. cbn. lia. }
  split; [exact Hmain|].
  split; [lia|]. eapply Z.lt_le_trans; [apply Hmain|].
  apply Z.pow_le_mono_r; [lia|].
  pose proof (Z.mod_pos_bound first 4 ltac:(lia)). lia.
Qed.

Lemma read_timestamp_range_witness :
  exists t s',
    read_timestamp (init [xff; xff; xff; xff]) = (Ok t, s') /\
    (0 <= t < 2 ^ 30)%Z.
Proof.
  destruct (read_timestamp (init [xff; xff; xff; xff])) as [[t|e] s'] eqn:Hrun;
    [|vm_compute in Hrun; discriminate].
  destruct (read_timestamp_range _ _ _ Hrun) as (_ & _ & _ & _ & Hr).
  exists t, s'. split; [reflexivity | exact Hr].
Defined.

Lemma read_basic_take (n m : nat) s (cs : list byte) :
  take m (drop (io_pos s) (io_buf s)) = cs -> length cs = m -> n <= m ->
  read_basic n s = (Ok (take n cs), with_pos s (io_pos s + n)).
Proof.
  intros Hcs Hlen Hn. unfold read_basic.
  assert (Ht : take n (drop (io_pos s) (io_buf s)) = take n cs).
  { rewrite <- Hcs, take_take. f_equal. lia. }
  rewrite Ht. repeat f_equal. rewrite length_take. lia.
Qed.

(** X13.  The fixed-width integers at a byte boundary with bytes [a b c d]
    next.  [read_short] and [read_int] take two and four bytes in the byte
    order asked for; object types and object ids are big-endian:
    [read_object_type] returns [a * 256 + b], with a modifier
    [a * 65536 + b * 256 + c], and [read_object_id] returns
    [a * 2^24 + b * 2^16 + c * 2^8 + d].  Each moves past the bytes it
    decodes. *)
Theorem read_integers_at_byte_boundary s (a b c d : byte) :
  bit_shift s = 0 ->
  take 4 (drop (io_pos s) (io_buf s)) = [a; b; c; d] ->
  read_short LITTLE_ENDIAN s
    = (Ok (ord a + 256 * ord b)%Z, with_pos s (io_pos s + 2)) /\
  read_int LITTLE_ENDIAN s
    = (Ok (ord a + 256 * ord b + 65536 * ord c + 16777216 * ord d)%Z,
       with_pos s (io_pos s + 4)) /\
  read_object_type false s
    = (Ok (ord a * 256 + ord b)%Z, with_pos s (io_pos s + 2)) /\
  read_object_type true s
    = (Ok (ord a * 65536 + ord b * 256 + ord c)%Z, with_pos s (io_pos s + 3)) /\
  read_object_id s
    = (Ok (ord a * 16777216 + ord b * 65536 + ord c * 256 + ord d)%Z,
       with_pos s (io_pos s + 4)).
Proof.
  intros Hbs Hbytes.
  assert (Hshort : forall e, read_short e s
            = (Ok (match e with
                   | LITTLE_ENDIAN => ord a + 256 * ord b
                   | BIG_ENDIAN => ord a * 256 + ord b
                   end)%Z, with_pos s (io_pos s + 2))).
  { intros e. unfold read_short, bind at 1, get_bit_shift at 1.
    rewrite Hbs. cbn [Nat.eqb].
    rewrite (bind_step _ _ _ _ _
               (read_basic_take 2 4 s _ Hbytes eq_refl ltac:(lia))).
    unfold struct_unpack. cbn [take length Nat.eqb be_int le_int foldl foldr].
    unfold ret. destruct e; f_equal; f_equal; lia. }
  assert (Hint : forall e, read_int e s
            = (Ok (match e with
                   | LITTLE_ENDIAN =>
                       ord a + 256 * ord b + 65536 * ord c + 16777216 * ord d
                   | BIG_ENDIAN =>
                       ord a * 16777216 + ord b * 65536 + ord c * 256 + ord d
                   end)%Z, with_pos s (io_pos s + 4))).
  { intros e. unfold read_int, bind at 1, get_bit_shift at 1.
    rewrite Hbs. cbn [Nat.eqb].
    rewrite (bind_step _ _ _ _ _
               (read_basic_take 4 4 s _ Hbytes eq_refl ltac:(lia))).
    unfold struct_unpack. cbn [take length Nat.eqb be_int le_int foldl foldr].
    unfold ret. destruct e; f_equal; f_equal; lia. }
  split; [exact (Hshort LITTLE_ENDIAN)|]. split; [exact (Hint LITTLE_ENDIAN)|].
  split; [|split].
  - unfold read_object_type. rewrite (bind_step _ _ _ _ _ (Hshort BIG_ENDIAN)).
    reflexivity.
  - unfold read_object_type. rewrite (bind_step _ _ _ _ _ (Hshort BIG_ENDIAN)).
    assert (Hc : io_buf (with_pos s (io_pos s + 2))
                 !! io_pos (with_pos s (io_pos s + 2)) = Some c).
    { cbn [io_buf io_pos with_pos]. rewrite <- lookup_drop.
      rewrite <- (lookup_take_lt _ 4) by lia. rewrite Hbytes. reflexivity. }
    rewrite (bind_step _ _ _ _ _
               (read_byte_aligned (with_pos s (io_pos s + 2)) c Hbs Hc)).
    unfold ret, with_pos. cbn [io_buf io_pos bit_shift last_byte].
    rewrite lor_group by (pose proof (ord_range c); lia).
    change (2 ^ 8)%Z with 256%Z. f_equal; [f_equal; lia | f_equal; lia].
  - exact (Hint BIG_ENDIAN).
Qed.

Lemma read_integers_at_byte_boundary_witness :
  read_object_type true (init [x01; x02; x03; x04])
    = (Ok 66051%Z, with_pos (init [x01; x02; x03; x04]) 3) /\
  read_int LITTLE_ENDIAN (init [x01; x02; x03; x04])
    = (Ok 67305985%Z, with_pos (init [x01; x02; x03; x04]) 4).
Proof.
  destruct (read_integers_at_byte_boundary (init [x01; x02; x03; x04])
              x01 x02 x03 x04 eq_refl eq_refl) as (_ & Hint & _ & Hmod & _).
  split; [exact Hmod | exact Hint].
Defined.

(** ** [read_coordinate] *)





(** ** [windows_to_unix] *)

(** X15.  [windows_to_unix] gives the Unix time in whole seconds, but not
    rounded down: its constant is 0.4096 seconds before the Unix epoch, so a
    time [r] ticks after a whole second [t] gives [t] when [r] is below
    [5904000] ticks (0.5904 seconds) and [t + 1] from there on. *)
Theorem windows_to_unix_seconds (t r : Z) :
  (0 <= r < 10 ^ 7)%Z ->
  windows_to_unix (unix_epoch_ticks + 10 ^ 7 * t + r)
  = if (r <? 5904000)%Z then t else (t + 1)%Z.
Proof.
  intros Hr. unfold windows_to_unix, unix_epoch_ticks.
  change (10 ^ 7)%Z with 10000000%Z in *.
  destruct (Z.ltb_spec r 5904000); div_lia.
Qed.

Lemma windows_to_unix_seconds_witness :
  windows_to_unix 116444736000000000 = 0%Z /\
  windows_to_unix (116444736000000000 + 10 ^ 7 * 86400 + 5904000) = 86401%Z.
Proof.
  split.
  - exact (windows_to_unix_seconds 0 0 ltac:(cbn; lia)).
  - exact (windows_to_unix_seconds 86400 5904000 ltac:(cbn; lia)).
Defined.

(** ** [RangeMap] *)

Section range_map.
Context {R : Type}.
Implicit Types (m : @RangeMap.t R) (r : R) (key start : Z).

Lemma covers_dec start (end_ : option Z) key :
  (if RangeMap.truthy end_
   then (start <=? key)%Z && RangeMap.lt_end key end_
   else (start <=? key)%Z) = true <-> covers start end_ key.
Proof.
  unfold covers, RangeMap.truthy, RangeMap.lt_end.
  destruct end_ as [e|].
  - destruct (Z.eqb_spec e 0) as [->|Hne]; cbn [negb].
    + rewrite Z.leb_le. intuition.
    + rewrite andb_true_iff, Z.leb_le, Z.ltb_lt. intuition.
  - rewrite Z.leb_le. intuition.
Qed.

Lemma getitem_loop_some (ranges : list (Z * option Z * R)) key r :
  RangeMap.getitem_loop ranges key = Some r <->
  exists i start end_,
    ranges !! i = Some (start, end_, r) /\ covers start end_ key /\
    forall j s e r', j < i -> ranges !! j = Some (s, e, r') -> ~ covers s e key.
Proof.
  induction ranges as [|[[start end_] r0] rest IH]; cbn [RangeMap.getitem_loop].
  - split; [discriminate|]. intros (i & s & e & Hi & _). discriminate.
  - pose proof (covers_dec start end_ key) as Hdec.
    assert (Hloop : RangeMap.getitem_loop ((start, end_, r0) :: rest) key
              = if (if RangeMap.truthy end_
                    then (start <=? key)%Z && RangeMap.lt_end key end_
                    else (start <=? key)%Z)
                then Some r0 else RangeMap.getitem_loop rest key)
      by (cbn [RangeMap.getitem_loop]; destruct (RangeMap.truthy end_);
          reflexivity).
    cbn [RangeMap.getitem_loop] in Hloop. rewrite Hloop. clear Hloop.
    destruct (if RangeMap.truthy end_
              then (start <=? key)%Z && RangeMap.lt_end key end_
              else (start <=? key)%Z) eqn:Hhit.
    + split.
      * intros [= <-]. exists 0, start, end_.
        split; [reflexivity|]. split; [apply Hdec; reflexivity|].
        intros j ? ? ? Hj. lia.
      * intros (i & s & e & Hi & Hc & Hfirst).
        destruct i as [|i]; [cbn in Hi; congruence|].
        destruct (Hfirst 0 start end_ r0 ltac:(lia) eq_refl).
        apply Hdec. reflexivity.
    + rewrite IH. split.
      * intros (i & s & e & Hi & Hc & Hfirst). exists (S i), s, e.
        split; [exact Hi|]. split; [exact Hc|].
        intros [|j] s' e' r' Hj Hl.
        -- cbn in Hl. injection Hl as <- <- <-. intros Hcov.
           apply Hdec in Hcov. congruence.
        -- apply (Hfirst j s' e' r'); [lia | exact Hl].
      * intros (i & s & e & Hi & Hc & Hfirst).
        destruct i as [|i].
        -- cbn in Hi. injection Hi as <- <- <-. apply Hdec in Hc. congruence.
        -- exists i, s, e. split; [exact Hi|]. split; [exact Hc|].
           intros j s' e' r' Hj Hl. apply (Hfirst (S j) s' e' r'); [lia | exact Hl].
Qed.

(** X16.  [RangeMap.__getitem__] answers with the reader set of the first
    range, in the order of the calls of [add_range], that the key is in, and
    raises [KeyError] exactly when the key is in no range.  A range whose end
    is [None] or [0] has no upper end. *)
Theorem RangeMap_getitem_first_match m key :
  (forall r,
     RangeMap.__getitem__ m key = Ok r <->
     exists i start end_,
       RangeMap.ranges m !! i = Some (start, end_, r) /\
       covers start end_ key /\
       forall j s e r', j < i -> RangeMap.ranges m !! j = Some (s, e, r') ->
                        ~ covers s e key) /\
  (RangeMap.__getitem__ m key = Raise KeyError <->
   forall i s e r', RangeMap.ranges m !! i = Some (s, e, r') -> ~ covers s e key).
Proof.
  unfold RangeMap.__getitem__. split.
  - intros r. rewrite <- getitem_loop_some.
    destruct (RangeMap.getitem_loop (RangeMap.ranges m) key);
      split; congruence.
  - destruct (RangeMap.getitem_loop (RangeMap.ranges m) key) as [r|] eqn:Hloop.
    + split; [discriminate|]. intros Hnone.
      apply getitem_loop_some in Hloop as (i & s & e & Hi & Hc & _).
      destruct (Hnone _ _ _ _ Hi Hc).
    + split; [|reflexivity]. intros _ i s e r' Hi Hc.
      assert (Hsome : exists r, RangeMap.getitem_loop (RangeMap.ranges m) key = Some r).
      { clear Hloop. revert i Hi.
        induction (RangeMap.ranges m) as [|[[s0 e0] r0] rest IH]; intros i Hi;
          [discriminate|].
        cbn [RangeMap.getitem_loop].
        destruct i as [|i].
        - injection Hi as -> -> ->. apply covers_dec in Hc.
          destruct (RangeMap.truthy e); rewrite Hc; eauto.
        - destruct (IH i Hi) as [r Hr]. rewrite Hr.
          destruct (RangeMap.truthy e0);
            [destruct ((s0 <=? key)%Z && RangeMap.lt_end key e0)
            |destruct (s0 <=? key)%Z]; eauto. }
      destruct Hsome as [r Hr]. congruence.
Qed.

(** X17.  [add_range] never changes an answer: a key that had a reader set
    keeps it, the ranges added before taking precedence.  A key that raised
    [KeyError] gets the new reader set when it is in the new range, and still
    raises [KeyError] when it is not. *)
Theorem RangeMap_add_range_keeps_answers m start (end_ : option Z) r key :
  (forall r0, RangeMap.__getitem__ m key = Ok r0 ->
     RangeMap.__getitem__ (RangeMap.add_range m start end_ r) key = Ok r0) /\
  (RangeMap.__getitem__ m key = Raise KeyError -> covers start end_ key ->
     RangeMap.__getitem__ (RangeMap.add_range m start end_ r) key = Ok r) /\
  (RangeMap.__getitem__ m key = Raise KeyError -> ~ covers start end_ key ->
     RangeMap.__getitem__ (RangeMap.add_range m start end_ r) key
     = Raise KeyError).
Proof.
  unfold RangeMap.__getitem__, RangeMap.add_range. cbn [RangeMap.ranges].
  assert (Happ : RangeMap.getitem_loop (RangeMap.ranges m ++ [(start, end_, r)]) key
            = match RangeMap.getitem_loop (RangeMap.ranges m) key with
              | Some r0 => Some r0
              | None => RangeMap.getitem_loop [(start, end_, r)] key
              end).
  { induction (RangeMap.ranges m) as [|[[s0 e0] r0] rest IH]; [reflexivity|].
    cbn [app RangeMap.getitem_loop]. rewrite IH.
    destruct (RangeMap.truthy e0);
      [destruct ((s0 <=? key)%Z && RangeMap.lt_end key e0)
      |destruct (s0 <=? key)%Z]; reflexivity. }
  rewrite Happ. pose proof (covers_dec start end_ key) as Hdec.
  destruct (RangeMap.getitem_loop (RangeMap.ranges m) key) as [r0|].
  - split; [auto|]. split; discriminate.
  - split; [discriminate|]. cbn [RangeMap.getitem_loop]. split.
    + intros _ Hc. apply Hdec in Hc.
      destruct (RangeMap.truthy end_); rewrite Hc; reflexivity.
    + intros _ Hc.
      destruct (if RangeMap.truthy end_
                then (start <=? key)%Z && RangeMap.lt_end key end_
                else (start <=? key)%Z) eqn:Hhit;
        [destruct Hc; apply Hdec; reflexivity|].
      destruct (RangeMap.truthy end_); rewrite Hhit; reflexivity.
Qed.
End range_map.

(** ** [PersonDict] *)

Section person_dict.
Context {V : Type} (pid : V -> Z) (name : V -> string).
Implicit Types (d : @PersonDict.t V) (v : V) (key : PersonDict.key).

(** X18.  After [d[key] = v] the value is under its own player id, whatever
    the key was: [d[v.pid]] is [v].  Set under a name, it is found under
    that name; set under its own player id, it is found under [v.name].  So
    the last pair given to the constructor is found under its player id. *)
Theorem PersonDict_setitem_getitem d key v :
  let d' := PersonDict.__setitem__ pid name d key v in
  PersonDict.__getitem__ d' (PersonDict.Int (pid v)) = Ok v /\
  (forall s, key = PersonDict.Str s ->
     PersonDict.__getitem__ d' (PersonDict.Str s) = Ok v) /\
  (key = PersonDict.Int (pid v) ->
     PersonDict.__getitem__ d' (PersonDict.Str (name v)) = Ok v) /\
  (forall args,
     PersonDict.__getitem__
       (PersonDict.__init__ pid name (args ++ [(key, v)]) [])
       (PersonDict.Int (pid v)) = Ok v).
Proof.
  intros d'.
  assert (Hset : forall d0,
            PersonDict.dict_getitem (PersonDict.__setitem__ pid name d0 key v)
                                    (pid v) = Ok v).
  { intros d0. unfold PersonDict.dict_getitem, PersonDict.__setitem__.
    cbn [PersonDict.items]. rewrite lookup_insert_eq. reflexivity. }
  assert (Hpid : PersonDict.dict_getitem d' (pid v) = Ok v) by apply Hset.
  split; [exact Hpid|]. split; [|split].
  - intros s ->. unfold PersonDict.__getitem__.
    unfold d' at 1, PersonDict.__setitem__. cbn [PersonDict._key_map].
    rewrite lookup_insert_eq. exact Hpid.
  - intros ->. unfold PersonDict.__getitem__.
    unfold d' at 1, PersonDict.__setitem__. cbn [PersonDict._key_map].
    rewrite lookup_insert_eq. exact Hpid.
  - intros args. unfold PersonDict.__init__. cbn [foldl].
    rewrite foldl_app. cbn [foldl fst snd]. apply Hset.
Qed.

(** X19.  What [d[key] = v] leaves alone and what it does not.  The entries
    under other player ids stay, and so do the names that are not the one
    written and do not lead to [v.pid].  Set under an integer key [i] that
    is not [v.pid], the value is stored under [v.pid] but its name leads to
    [i]: [d[v.name]] is then what [d[i]] was, or a [KeyError]. *)
Theorem PersonDict_setitem_frame d key v :
  let d' := PersonDict.__setitem__ pid name d key v in
  (forall i, i <> pid v ->
     PersonDict.__getitem__ d' (PersonDict.Int i)
     = PersonDict.__getitem__ d (PersonDict.Int i)) /\
  (forall s,
     key <> PersonDict.Str s ->
     (forall i, key = PersonDict.Int i -> name v <> s) ->
     PersonDict._key_map d !! s <> Some (pid v) ->
     PersonDict.__getitem__ d' (PersonDict.Str s)
     = PersonDict.__getitem__ d (PersonDict.Str s)) /\
  (forall i, key = PersonDict.Int i -> i <> pid v ->
     PersonDict.__getitem__ d' (PersonDict.Str (name v))
     = PersonDict.__getitem__ d (PersonDict.Int i)).
Proof.
  intros d'.
  assert (Hother : forall i, i <> pid v ->
            PersonDict.dict_getitem d' i = PersonDict.dict_getitem d i).
  { intros i Hi. unfold PersonDict.dict_getitem, d', PersonDict.__setitem__.
    cbn [PersonDict.items]. rewrite lookup_insert_ne by congruence.
    reflexivity. }
  split; [exact Hother|]. split.
  - intros s Hkey Hname Hmap. unfold PersonDict.__getitem__.
    assert (Hsame : PersonDict._key_map d' !! s = PersonDict._key_map d !! s).
    { unfold d', PersonDict.__setitem__. cbn [PersonDict._key_map].
      destruct key as [s0|i].
      - rewrite lookup_insert_ne by congruence. reflexivity.
      - rewrite lookup_insert_ne by (apply (Hname i); reflexivity).
        reflexivity. }
    rewrite Hsame. destruct (PersonDict._key_map d !! s) as [i|]; [|reflexivity].
    apply Hother. congruence.
  - intros i -> Hi. unfold PersonDict.__getitem__ at 1.
    unfold d' at 1, PersonDict.__setitem__. cbn [PersonDict._key_map].
    rewrite lookup_insert_eq. apply Hother. exact Hi.
Qed.
End person_dict.

(** ** [Length] *)

(** X20.  The fields of a [Length] of [n] seconds.  The days of the
    [timedelta] are not read, so lengths wrap at 24 hours; [hours] is the
    whole hours and [secs] the seconds within the minute, but [mins] is the
    whole minutes, not the minutes within the hour: from one hour on it is
    at least [60], and [__str__] prints it so, ["01.61.01"] for 3661
    seconds. *)
Theorem Length_fields (n : Z) :
  let l := Length.of_seconds n in
  Length.hours l = (n mod 86400 / 3600)%Z /\
  (0 <= Length.hours l < 24)%Z /\
  Length.mins l = (60 * Length.hours l + n mod 3600 / 60)%Z /\
  Length.secs l = (n mod 60)%Z /\
  (60 * Length.mins l + Length.secs l = n mod 86400)%Z /\
  (Length.hours l <> 0%Z -> (60 <= Length.mins l)%Z) /\
  Length.__str__ (Length.of_seconds 3661) = "01.61.01"%string.
Proof.
  intros l. unfold l, Length.hours, Length.mins, Length.secs, Length.of_seconds.
  cbn [Length.seconds].
  do 6 (split; [div_lia|]). vm_compute. reflexivity.
Qed.

(** ** [shift] and [reset] *)

(** X21.  What [shift w] does in every state.  A width that does not fit in
    the rest of the current byte raises [ValueError] and changes nothing.  A
    width that fits returns the bits when there is a byte to work on, the
    next byte of the stream at a byte boundary and the cached byte inside a
    byte, and raises [EOFError], changing nothing, when there is none.  At a
    byte boundary a byte is loaded even for [w = 0]. *)
Theorem shift_outcome (w : nat) s :
  (8 < bit_shift s + w -> shift w s = (Raise ValueError, s)) /\
  (bit_shift s + w <= 8 -> current_byte s = None ->
   shift w s = (Raise EOFError, s)) /\
  (forall b, bit_shift s + w <= 8 -> current_byte s = Some b ->
   shift w s
   = (Ok ((ord b / 2 ^ Z.of_nat (bit_shift s)) mod 2 ^ Z.of_nat w)%Z,
      mkReplayBuffer (io_buf s)
        (if Nat.eqb (bit_shift s) 0 then S (io_pos s) else io_pos s)
        ((bit_shift s + w) mod 8) (Some b))).
Proof.
  split; [apply shift_too_wide|]. split; [apply shift_no_byte|].
  intros b Hfit Hcur. rewrite (shift_fits s w b Hfit Hcur).
  rewrite Z.land_ones, Z.shiftr_div_pow2 by lia.
  f_equal. f_equal. destruct (Nat.eqb_spec (bit_shift s + w) 8); div_lia.
Qed.

Lemma read_at_byte_boundary (bytes bits : nat) s1 s2 :
  bit_shift s1 = 0 -> bit_shift s2 = 0 ->
  io_buf s1 = io_buf s2 -> io_pos s1 = io_pos s2 -> io_pos s1 <= length_ s1 ->
  fst (read bytes bits s1) = fst (read bytes bits s2).
Proof.
  intros Hz1 Hz2 Hbuf Hpos Hin. rewrite !(read_normal bytes bits).
  set (b := bytes + bits / 8). set (k := bits mod 8).
  assert (Hk : k < 8) by (apply Nat.mod_upper_bound; lia).
  assert (Hlen : length_ s2 = length_ s1) by (unfold length_; rewrite Hbuf; reflexivity).
  destruct (le_gt_dec (8 * b + k) (remaining_bits s1)) as [Hroom|Hshort].
  - unfold remaining_bits in Hroom. rewrite Hz1 in Hroom. cbn [Nat.eqb] in Hroom.
    destruct (Nat.eq_dec k 0) as [Hk0|Hk0].
    + rewrite Hk0. destruct (Nat.eq_dec b 0) as [->|Hb0]; [reflexivity|].
      destruct (read_aligned_bytes b s1 Hz1 ltac:(lia) ltac:(lia)) as (lb1 & H1 & _).
      destruct (read_aligned_bytes b s2 Hz2 ltac:(lia) ltac:(lia)) as (lb2 & H2 & _).
      rewrite H1, H2, Hbuf, Hpos. reflexivity.
    + destruct (lookup_lt_is_Some_2 (io_buf s1) (io_pos s1 + b)) as [c Hc];
        [unfold length_ in *; lia|].
      rewrite (read_aligned_bits b k s1 c Hz1 ltac:(lia) Hc).
      rewrite Hbuf, Hpos in Hc.
      rewrite (read_aligned_bits b k s2 c Hz2 ltac:(lia) Hc).
      rewrite Hbuf, Hpos. reflexivity.
  - assert (Hshort2 : remaining_bits s2 < 8 * b + k)
      by (unfold remaining_bits in *; rewrite Hz2, Hlen, <- Hpos;
          rewrite Hz1 in Hshort; exact Hshort).
    assert (Hk8 : k / 8 = 0) by (apply Nat.div_small; exact Hk).
    assert (Hkm : k mod 8 = k) by (apply Nat.mod_small; exact Hk).
    destruct (read_past_end b k s1 ltac:(lia) Hin) as [s1' H1];
      [rewrite Hk8, Hkm; lia|].
    destruct (read_past_end b k s2 ltac:(lia) ltac:(lia)) as [s2' H2];
      [rewrite Hk8, Hkm; lia|].
    rewrite H1, H2. reflexivity.
Qed.

(** X22.  After [reset] the buffer reads like a new one over the same bytes:
    [read], [read_byte] and [read_chars] return what they return on a fresh
    buffer, although [reset] keeps the cached byte. *)
Theorem reset_reads_like_fresh s :
  let s0 := snd (reset s) in
  fst (tell s0) = Ok 0 /\
  (forall bytes bits,
     fst (read bytes bits s0) = fst (run (read bytes bits) (io_buf s))) /\
  fst (read_byte s0) = fst (run read_byte (io_buf s)) /\
  (forall n, fst (read_chars n s0) = fst (run (read_chars n) (io_buf s))).
Proof.
  intros s0.
  assert (Hs0 : s0 = mkReplayBuffer (io_buf s) 0 0 (last_byte s)) by reflexivity.
  rewrite Hs0. unfold run, init. split; [reflexivity|]. split; [|split].
  - intros bytes bits. apply read_at_byte_boundary; cbn; try reflexivity. lia.
  - destruct (io_buf s !! 0) as [c|] eqn:Hc.
    + rewrite (read_byte_aligned (mkReplayBuffer (io_buf s) 0 0 (last_byte s)) c
                 eq_refl Hc).
      rewrite (read_byte_aligned (mkReplayBuffer (io_buf s) 0 0 None) c
                 eq_refl Hc).
      reflexivity.
    + apply lookup_ge_None in Hc.
      rewrite (read_byte_aligned_at_end
                 (mkReplayBuffer (io_buf s) 0 0 (last_byte s)) eq_refl Hc).
      rewrite (read_byte_aligned_at_end
                 (mkReplayBuffer (io_buf s) 0 0 None) eq_refl Hc).
      reflexivity.
  - intros n. reflexivity.
Qed.
